(** * RSA key generation and the per-character cipher of [src/rsa.ts]

    A shallow embedding of the classes [RSA] and [ConsoleInterface], and the
    properties of the specification checked against it.

    - A JavaScript [bigint] is a [Z]; [%] and [/] truncate towards zero
      ([Z.rem], [Z.quot]) and raise [RangeError] on a zero divisor.
    - A JavaScript string is the list of its UTF-16 code units ([list Z],
      each unit in [0, 65535]).
    - A call returns, throws, or exceeds the bound put on a loop whose exit
      depends on the random source ([outcome]). Loops whose exit does not
      are defined by well-founded recursion.
    - [Math.random()] reads an explicit source [random : nat -> Q]; the
      state threaded through the code is the number of draws made so far.
    - A [number] that holds a bit length is a [Q] in the class [RSA]
      ([bitLength / 2] need not be an integer). The console reads it with
      [parseInt], which can also give NaN or an infinity; what the key
      generator does on them is written where the console calls it.
    - The console is a function of its state: the draws made, the lines
      typed by the user and read so far ([answers i] is the [i]-th one),
      and what was written and asked, in order.

    The file has the runtime ([JS]), the two classes ([RSA],
    [ConsoleInterface]), the random sources and predicates the proofs use,
    and then the properties, the ones of the specification named by their
    number (C1 to C10). *)

From Stdlib Require Import ZArith QArith Qround List Lia Bool String Ascii.
From Stdlib Require Zmod.ZmodInv.
From Equations Require Import Equations.
Import ListNotations.

Local Open Scope Z_scope.

(* ===================================================================== *)
(** * The JavaScript runtime, as far as the program uses it *)
(* ===================================================================== *)

Module JS.

(** The exceptions the program can meet. *)
Inductive exn : Type :=
| RangeError             (* BigInt division or remainder by zero *)
| SyntaxError            (* BigInt(string) on a malformed literal *)
| TypeError              (* BigInt arithmetic with undefined *)
| InvalidCharacterError. (* atob on a malformed token *)

(** What a call does: return a value, throw, or exceed the loop bound. *)
Inductive outcome (A : Type) : Type :=
| Ok (a : A)
| Throw (e : exn)
| OutOfFuel.
Arguments Ok {A} a.
Arguments Throw {A} e.
Arguments OutOfFuel {A}.

Definition bind {A B} (c : outcome A) (k : A -> outcome B) : outcome B :=
  match c with
  | Ok a => k a
  | Throw e => Throw e
  | OutOfFuel => OutOfFuel
  end.

(** [a % b] on bigints. *)
Definition BigInt_rem (a b : Z) : outcome Z :=
  if b =? 0 then Throw RangeError else Ok (Z.rem a b).

(** ** Strings *)

(** A string: its UTF-16 code units. *)
Definition jsstring : Type := list Z.

Definition is_code_unit (c : Z) : Prop := 0 <= c < 65536.
Definition is_jsstring (s : jsstring) : Prop := Forall is_code_unit s.

(** A string literal of the source, all of them ASCII. *)
Definition lit (s : string) : jsstring :=
  List.map (fun a => Z.of_nat (nat_of_ascii a)) (list_ascii_of_string s).

Definition comma : Z := 44.

(** [s.split(sep)] for a one-unit separator. The array it returns is never
    empty: its first element and the others. *)
Fixpoint split (sep : Z) (s : jsstring) : jsstring * list jsstring :=
  match s with
  | [] => ([], [])
  | c :: r =>
      let (f, fs) := split sep r in
      if c =? sep then ([], f :: fs) else (c :: f, fs)
  end.

(** [s.slice(0, -1)]: [s] without its last unit. *)
Definition slice_0_minus1 (s : jsstring) : jsstring := removelast s.

(** [array.map(f)] for an [f] that may throw: left to right. *)
Fixpoint map_throwing {A B} (f : A -> outcome B) (l : list A) : outcome (list B) :=
  match l with
  | [] => Ok []
  | x :: r =>
      bind (f x) (fun y => bind (map_throwing f r) (fun ys => Ok (y :: ys)))
  end.

(** ** BigInt and text *)

(** The decimal digits of a non-negative bigint, most significant first. *)
Equations digits (n : Z) : jsstring by wf (Z.to_nat n) lt :=
digits n with Z_lt_dec n 10 := {
  | left _ => [48 + n]
  | right _ => digits (n / 10) ++ [48 + n mod 10] }.
Next Obligation.
  pose proof (Z.div_lt n 10 ltac:(lia) ltac:(lia)).
  pose proof (Z.div_pos n 10 ltac:(lia) ltac:(lia)). lia.
Qed.

(** [`${z}`] for a bigint [z]: decimal, with [-] in front of a negative one. *)
Definition BigInt_toString (z : Z) : jsstring :=
  if z <? 0 then 45 :: digits (- z) else digits z.

(** WhiteSpace and LineTerminator of ECMAScript, which [BigInt(string)] trims. *)
Definition is_whitespace (c : Z) : bool :=
  existsb (Z.eqb c)
    [9; 10; 11; 12; 13; 32; 160; 5760; 8192; 8193; 8194; 8195; 8196; 8197;
     8198; 8199; 8200; 8201; 8202; 8232; 8233; 8239; 8287; 12288; 65279].

Fixpoint trim_start (s : jsstring) : jsstring :=
  match s with
  | [] => []
  | c :: r => if is_whitespace c then trim_start r else s
  end.

Definition trim (s : jsstring) : jsstring :=
  rev (trim_start (rev (trim_start s))).

(** The value of a digit or letter as a digit of some radix. *)
Definition digit_value (c : Z) : option Z :=
  if (48 <=? c) && (c <=? 57) then Some (c - 48)
  else if (97 <=? c) && (c <=? 122) then Some (c - 87)
  else if (65 <=? c) && (c <=? 90) then Some (c - 55)
  else None.

Fixpoint parse_digits (radix acc : Z) (s : jsstring) : option Z :=
  match s with
  | [] => Some acc
  | c :: r =>
      match digit_value c with
      | Some d => if d <? radix then parse_digits radix (acc * radix + d) r else None
      | None => None
      end
  end.

(** One digit at least. *)
Definition parse_number (radix : Z) (s : jsstring) : option Z :=
  match s with
  | [] => None
  | _ => parse_digits radix 0 s
  end.

(** StringToBigInt: the empty string is 0; a decimal literal may carry a
    sign; [0x], [0o] and [0b] literals may not. *)
Definition StringToBigInt (s : jsstring) : option Z :=
  match trim s with
  | [] => Some 0
  | c :: r =>
      if c =? 45 then option_map Z.opp (parse_number 10 r)
      else if c =? 43 then parse_number 10 r
      else if c =? 48 then
        match r with
        | x :: ds =>
            if (x =? 120) || (x =? 88) then parse_number 16 ds
            else if (x =? 111) || (x =? 79) then parse_number 8 ds
            else if (x =? 98) || (x =? 66) then parse_number 2 ds
            else parse_number 10 (c :: r)
        | [] => Some 0
        end
      else parse_number 10 (c :: r)
  end.

(** [BigInt(s)] for a string [s]. *)
Definition BigInt_of_string (s : jsstring) : outcome Z :=
  match StringToBigInt s with
  | Some z => Ok z
  | None => Throw SyntaxError
  end.

(** ** Numbers *)

(** The numbers [Number(bigint)] can give: integers and the infinities. *)
Inductive jsnumber : Type :=
| Finite (v : Z)
| PosInfinity
| NegInfinity.

(** A non-negative integer rounded to 53 significant bits, ties to even. *)
Definition round_to_double (x : Z) : Z :=
  let k := Z.log2 x - 52 in
  if k <=? 0 then x
  else
    let q := Z.shiftr x k in
    let r := Z.land x (Z.ones k) in
    let half := Z.shiftl 1 (k - 1) in
    let q' := if (half <? r) || ((r =? half) && Z.odd q) then q + 1 else q in
    Z.shiftl q' k.

(** [Number(x)] for a bigint [x]. *)
Definition Number_of_BigInt (x : Z) : jsnumber :=
  let m := round_to_double (Z.abs x) in
  if 2 ^ 1024 <=? m then (if x <? 0 then NegInfinity else PosInfinity)
  else Finite (Z.sgn x * m).

Definition ToUint16 (n : jsnumber) : Z :=
  match n with
  | Finite v => v mod 65536
  | PosInfinity | NegInfinity => 0
  end.

(** [String.fromCharCode(n)]. *)
Definition String_fromCharCode (n : jsnumber) : jsstring := [ToUint16 n].

(** [BigInt(Math.floor(x * n))] for a draw [x] and a number [n]: [BigInt]
    of an infinity or of NaN is a [RangeError]. The product of the two
    numbers is taken exactly. *)
Definition BigInt_floor_times (x : Q) (n : jsnumber) : outcome Z :=
  match n with
  | Finite v => Ok (Qfloor (x * inject_Z v))
  | PosInfinity | NegInfinity => Throw RangeError
  end.

(** ** Buffers: UTF-8 and base64 *)

Definition replacement : Z := 65533.

(** [Buffer.from(s)]: the UTF-8 bytes of [s]; a lone surrogate becomes U+FFFD. *)
Definition utf8_of_code_point (cp : Z) : list Z :=
  if cp <? 128 then [cp]
  else if cp <? 2048 then [192 + cp / 64; 128 + cp mod 64]
  else if cp <? 65536 then [224 + cp / 4096; 128 + (cp / 64) mod 64; 128 + cp mod 64]
  else [240 + cp / 262144; 128 + (cp / 4096) mod 64; 128 + (cp / 64) mod 64; 128 + cp mod 64].

Definition is_high_surrogate (c : Z) : bool := (55296 <=? c) && (c <=? 56319).
Definition is_low_surrogate (c : Z) : bool := (56320 <=? c) && (c <=? 57343).

Fixpoint Buffer_from (s : jsstring) : list Z :=
  match s with
  | [] => []
  | c :: r =>
      if is_high_surrogate c then
        match r with
        | lo :: r' =>
            if is_low_surrogate lo
            then utf8_of_code_point (65536 + (c - 55296) * 1024 + (lo - 56320)) ++ Buffer_from r'
            else utf8_of_code_point replacement ++ Buffer_from r
        | [] => utf8_of_code_point replacement
        end
      else if is_low_surrogate c then utf8_of_code_point replacement ++ Buffer_from r
      else utf8_of_code_point c ++ Buffer_from r
  end.

(** The UTF-8 decoder: bytes still needed, the code point so far, and the
    range the next byte must be in. *)
Record utf8_state : Type := {
  needed : Z;
  code_point : Z;
  lower : Z;
  upper : Z }.

Definition utf8_initial : utf8_state :=
  {| needed := 0; code_point := 0; lower := 128; upper := 191 |}.

(** A byte read with no sequence open: what is emitted and the next state. *)
Definition utf8_lead (b : Z) : list Z * utf8_state :=
  if b <=? 127 then ([b], utf8_initial)
  else if (194 <=? b) && (b <=? 223) then
    ([], {| needed := 1; code_point := b - 192; lower := 128; upper := 191 |})
  else if (224 <=? b) && (b <=? 239) then
    ([], {| needed := 2; code_point := b - 224;
            lower := if b =? 224 then 160 else 128;
            upper := if b =? 237 then 159 else 191 |})
  else if (240 <=? b) && (b <=? 244) then
    ([], {| needed := 3; code_point := b - 240;
            lower := if b =? 240 then 144 else 128;
            upper := if b =? 244 then 143 else 191 |})
  else ([replacement], utf8_initial).

Definition utf8_step (st : utf8_state) (b : Z) : list Z * utf8_state :=
  if needed st =? 0 then utf8_lead b
  else if (lower st <=? b) && (b <=? upper st) then
    let cp := code_point st * 64 + (b - 128) in
    if needed st =? 1 then ([cp], utf8_initial)
    else ([], {| needed := needed st - 1; code_point := cp; lower := 128; upper := 191 |})
  else
    let (out, st') := utf8_lead b in (replacement :: out, st').

Fixpoint utf8_decode (st : utf8_state) (bytes : list Z) : list Z :=
  match bytes with
  | [] => if needed st =? 0 then [] else [replacement]
  | b :: r => let (out, st') := utf8_step st b in out ++ utf8_decode st' r
  end.

Definition utf16_of_code_point (cp : Z) : jsstring :=
  if cp <? 65536 then [cp]
  else [55296 + (cp - 65536) / 1024; 56320 + (cp - 65536) mod 1024].

(** [buffer.toString()]: the bytes read as UTF-8, ill-formed parts as U+FFFD. *)
Definition Buffer_toString (bytes : list Z) : jsstring :=
  flat_map utf16_of_code_point (utf8_decode utf8_initial bytes).

(** The base64 alphabet. *)
Definition base64_char (v : Z) : Z :=
  if v <? 26 then 65 + v
  else if v <? 52 then 71 + v
  else if v <? 62 then v - 4
  else if v =? 62 then 43
  else 47.

Definition base64_value (c : Z) : option Z :=
  if (65 <=? c) && (c <=? 90) then Some (c - 65)
  else if (97 <=? c) && (c <=? 122) then Some (c - 71)
  else if (48 <=? c) && (c <=? 57) then Some (c + 4)
  else if c =? 43 then Some 62
  else if c =? 47 then Some 63
  else None.

(** [buffer.toString("base64")]. *)
Fixpoint Buffer_toString_base64 (bytes : list Z) : jsstring :=
  match bytes with
  | b1 :: b2 :: b3 :: r =>
      let n := (b1 * 256 + b2) * 256 + b3 in
      [base64_char (n / 262144); base64_char ((n / 4096) mod 64);
       base64_char ((n / 64) mod 64); base64_char (n mod 64)]
      ++ Buffer_toString_base64 r
  | [b1; b2] =>
      let n := (b1 * 256 + b2) * 4 in
      [base64_char (n / 4096); base64_char ((n / 64) mod 64); base64_char (n mod 64); 61]
  | [b1] =>
      let n := b1 * 16 in
      [base64_char (n / 64); base64_char (n mod 64); 61; 61]
  | [] => []
  end.

(** Six-bit groups back to bytes; bits that do not fill a byte are dropped. *)
Fixpoint bytes_of_sextets (l : list Z) : list Z :=
  match l with
  | a :: b :: c :: d :: r =>
      let n := ((a * 64 + b) * 64 + c) * 64 + d in
      [n / 65536; (n / 256) mod 256; n mod 256] ++ bytes_of_sextets r
  | [a; b; c] =>
      let n := (a * 64 + b) * 64 + c in [n / 1024; (n / 4) mod 256]
  | [a; b] => [(a * 64 + b) / 16]
  | _ => []
  end.

(** Node's decoder also reads the URL-safe alphabet. *)
Definition node_base64_value (c : Z) : option Z :=
  if c =? 45 then Some 62
  else if c =? 95 then Some 63
  else base64_value c.

(** Node's decoder skips what is not of the alphabet and stops at [=]. It
    reads a unit through [static_cast<uint8_t>]: of a unit above 255 the
    low byte is looked up and compared with [=]. *)
Fixpoint node_sextets (s : jsstring) : list Z :=
  match s with
  | [] => []
  | c :: r =>
      let b := c mod 256 in
      if b =? 61 then []
      else match node_base64_value b with
           | Some v => v :: node_sextets r
           | None => node_sextets r
           end
  end.

(** [Buffer.from(s, "base64")]: it never throws. *)
Definition Buffer_from_base64 (s : jsstring) : list Z :=
  bytes_of_sextets (node_sextets s).

(** ** atob *)

Definition is_ascii_whitespace (c : Z) : bool :=
  existsb (Z.eqb c) [9; 10; 12; 13; 32].

(** Up to two [=] at the end of a string whose length is a multiple of 4. *)
Definition strip_padding (s : jsstring) : jsstring :=
  if (Z.of_nat (List.length s) mod 4 =? 0) then
    match rev s with
    | c1 :: c2 :: r =>
        if c1 =? 61 then (if c2 =? 61 then rev r else rev (c2 :: r)) else s
    | [c1] => if c1 =? 61 then [] else s
    | [] => s
    end
  else s.

(** [atob(data)], the forgiving-base64 decode of the HTML standard: ASCII
    whitespace is removed, then the padding; a length of 1 modulo 4 or a
    unit outside the alphabet is an [InvalidCharacterError]. The result has
    one unit per byte. *)
Definition atob (data : jsstring) : outcome jsstring :=
  let d := strip_padding (filter (fun c => negb (is_ascii_whitespace c)) data) in
  if Z.of_nat (List.length d) mod 4 =? 1 then Throw InvalidCharacterError
  else
    match map_throwing
            (fun c => match base64_value c with
                      | Some v => Ok v
                      | None => Throw InvalidCharacterError
                      end) d with
    | Ok sextets => Ok (bytes_of_sextets sextets)
    | Throw e => Throw e
    | OutOfFuel => OutOfFuel
    end.

(** ** parseInt *)

(** What [parseInt] returns: NaN, an integer or an infinity. *)
Inductive number : Type :=
| NaN
| Num (n : jsnumber).

(** [a < b] on numbers: false when one of them is NaN. *)
Definition Number_lt (a b : number) : bool :=
  match a, b with
  | Num (Finite x), Num (Finite y) => x <? y
  | Num NegInfinity, Num (Finite _) => true
  | Num NegInfinity, Num PosInfinity => true
  | Num (Finite _), Num PosInfinity => true
  | _, _ => false
  end.

(** The longest prefix of [s] made of digits of the radix. *)
Fixpoint digits_prefix (radix : Z) (s : jsstring) : jsstring :=
  match s with
  | [] => []
  | c :: r =>
      match digit_value c with
      | Some d => if d <? radix then c :: digits_prefix radix r else []
      | None => []
      end
  end.

(** [parseInt(s)], no radix given: whitespace at the start is skipped, a
    sign read, then [0x] or [0X], which makes the radix 16 instead of 10,
    then the digits of the radix as far as they go. No digit at all gives
    NaN; what follows the digits is ignored. (The integer read is rounded
    as [Number] rounds it; an engine may round a decimal numeral of more
    than 20 digits otherwise.) *)
Definition parseInt (s : jsstring) : number :=
  let s0 := trim_start s in
  let negative := match s0 with c :: _ => c =? 45 | [] => false end in
  let s1 := match s0 with
            | c :: r => if (c =? 43) || (c =? 45) then r else s0
            | [] => []
            end in
  let hex := match s1 with
             | a :: b :: _ => (a =? 48) && ((b =? 120) || (b =? 88))
             | _ => false
             end in
  let radix := if hex then 16 else 10 in
  let s2 := if hex then skipn 2 s1 else s1 in
  match parse_number radix (digits_prefix radix s2) with
  | Some mathInt => Num (Number_of_BigInt (if negative then - mathInt else mathInt))
  | None => NaN
  end.

End JS.

Import JS.

Declare Scope js_scope.
Delimit Scope js_scope with js.
Notation "x <- c ;; k" := (JS.bind c (fun x => k))
  (at level 61, c at next level, right associativity) : js_scope.
Local Open Scope js_scope.

(* ===================================================================== *)
(** * class RSA: modular arithmetic *)
(* ===================================================================== *)

Module RSA.

(** [RSA.PUBLIC_EXPONENT]. *)
Definition PUBLIC_EXPONENT : Z := 65537.

(** [RSA.gcd]: [while (b) { t = b; b = a % b; a = t; } return a]. The
    remainder is taken by a non-zero [b], so it cannot throw; [|b|] goes
    down at every turn. *)
Equations gcd (a b : Z) : Z by wf (Z.abs_nat b) lt :=
gcd a b with Z.eq_dec b 0 := {
  | left _ => a
  | right _ => gcd b (Z.rem a b) }.
Next Obligation.
  pose proof (Z.rem_bound_abs a b n). lia.
Qed.

(** The loop of [RSA.modPow]:
    [while (exponent > 0n) { if (exponent & 1n) result = (result * base) % modulus;
       base = (base * base) % modulus; exponent >>= 1n; }].
    It is entered after [base % modulus] has succeeded, so [modulus] is not
    zero and the remainders inside it cannot throw. *)
Equations modPow_loop (result base exponent modulus : Z) : Z
  by wf (Z.to_nat exponent) lt :=
modPow_loop result base exponent modulus with Z_gt_dec exponent 0 := {
  | left _ =>
      modPow_loop
        (if Z.land exponent 1 =? 0 then result else Z.rem (result * base) modulus)
        (Z.rem (base * base) modulus)
        (Z.shiftr exponent 1)
        modulus
  | right _ => result }.
Next Obligation.
  rewrite Z.shiftr_div_pow2 by lia. change (2 ^ 1) with 2.
  pose proof (Z.div_lt exponent 2 ltac:(lia) ltac:(lia)).
  pose proof (Z.div_pos exponent 2 ltac:(lia) ltac:(lia)). lia.
Qed.

(** [RSA.modPow]. *)
Definition modPow (base exponent modulus : Z) : outcome Z :=
  base' <- BigInt_rem base modulus ;;
  Ok (modPow_loop 1 base' exponent modulus).

(** The loop of [RSA.modInverse]:
    [while (a > 1n) { q = a / m; t = m; m = a % m; a = t;
                      t = x0; x0 = x1 - q * x0; x1 = t; }];
    it leaves with [x1]. [a / m] throws when [m] is zero. *)
Equations modInverse_loop (a m x0 x1 : Z) : outcome Z
  by wf (Z.abs_nat m) lt :=
modInverse_loop a m x0 x1 with Z_gt_dec a 1 := {
  | left _ with Z.eq_dec m 0 := {
      | left _ => Throw RangeError
      | right _ =>
          modInverse_loop m (Z.rem a m) (x1 - Z.quot a m * x0) x0 }
  | right _ => Ok x1 }.
Next Obligation.
  pose proof (Z.rem_bound_abs a m n). lia.
Qed.

(** [RSA.modInverse]. *)
Definition modInverse (a m : Z) : outcome Z :=
  let m0 := m in
  if m =? 1 then Ok 0
  else
    x1 <- modInverse_loop a m 0 1 ;;
    Ok (if x1 <? 0 then x1 + m0 else x1).

(** ** Randomness *)

(** Code that calls [Math.random()]: it is given the number of draws made
    so far and hands back the new count with its result. *)
Definition rand (A : Type) : Type := nat -> outcome (A * nat).

Definition ret {A} (a : A) : rand A := fun st => Ok (a, st).

Definition bind_rand {A B} (c : rand A) (k : A -> rand B) : rand B :=
  fun st =>
    match c st with
    | Ok (a, st') => k a st'
    | Throw e => Throw e
    | OutOfFuel => OutOfFuel
    end.

(** A call that draws nothing. *)
Definition lift {A} (c : outcome A) : rand A :=
  fun st =>
    match c with
    | Ok a => Ok (a, st)
    | Throw e => Throw e
    | OutOfFuel => OutOfFuel
    end.

Notation "x <~ c ;; k" := (bind_rand c (fun x => k))
  (at level 61, c at next level, right associativity) : js_scope.

(** [n > 10n ? n - 10n : 2n], the least witness of a Miller-Rabin round. *)
Definition minRandom (n : Z) : Z := if n >? 10 then n - 10 else 2.

(** [BigInt(Math.floor(r * Number(n - minRandom))) + minRandom], the witness
    of a round whose draw is [r]. In a round [n - minRandom] is at most 10,
    so [Number] is exact on it and the floor is no infinity. The product of
    the draw and that number is taken exactly, where the code has it
    rounded to a double. *)
Definition witness (n : Z) (r : Q) : Z :=
  Qfloor (r * inject_Z (n - minRandom n)) + minRandom n.

(** The loop [while (r % 2n === 0n) { r >>= 1n; s += 1n; }]. From [r = 0] it
    would not leave; the test never calls it there. *)
Equations decompose (r s : Z) : outcome (Z * Z) by wf (Z.abs_nat r) lt :=
decompose r s with Z.eq_dec (Z.rem r 2) 0 := {
  | left _ with Z.eq_dec r 0 := {
      | left _ => OutOfFuel
      | right _ => decompose (Z.shiftr r 1) (s + 1) }
  | right _ => Ok (r, s) }.
Next Obligation.
  rewrite Z.shiftr_div_pow2 by lia. change (2 ^ 1) with 2.
  pose proof (Z.div_mod r 2 ltac:(lia)).
  pose proof (proj1 (Z.rem_mod_eq_0 r 2 ltac:(lia)) e). lia.
Qed.

(** The loop
    [while (j < s && x !== n - 1n) { x = modPow(x, 2n, n);
                                     if (x === 1n) return false; j += 1n; }]:
    [None] when it returns false, the last [x] when it ends. *)
Equations squarings (n s j x : Z) : outcome (option Z)
  by wf (Z.to_nat (s - j)) lt :=
squarings n s j x with Z_lt_dec j s := {
  | left _ with Z.eq_dec x (n - 1) := {
      | left _ => Ok (Some x)
      | right _ with modPow x 2 n := {
          | Ok x' => if x' =? 1 then Ok None else squarings n s (j + 1) x'
          | Throw e => Throw e
          | OutOfFuel => OutOfFuel } }
  | right _ => Ok (Some x) }.
Next Obligation. lia. Qed.

(** One round with witness [a]: does the candidate pass it? *)
Definition round (n r s a : Z) : outcome bool :=
  x <- modPow a r n ;;
  if (negb (x =? 1)) && (negb (x =? n - 1)) then
    after <- squarings n s 1 x ;;
    match after with
    | None => Ok false
    | Some x' => Ok (x' =? n - 1)
    end
  else Ok true.

Section WithRandomSource.

(** [random i] is what the [i]-th call of [Math.random()] returns. *)
Variable random : nat -> Q.

Definition Math_random : rand Q := fun st => Ok (random st, S st).

(** The loop of [RSA.generateRandomOddNumber]:
    [for (let i = 1; i < bitLength; i++) randomBits += Math.random() < 0.5 ? "0" : "1"]. *)
Equations randomBits_loop (bitLength : Q) (i : Z) (randomBits : jsstring) (st : nat)
  : jsstring * nat by wf (Z.to_nat (Qceiling bitLength - i)) lt :=
randomBits_loop bitLength i randomBits st with Qlt_le_dec (inject_Z i) bitLength := {
  | left _ =>
      randomBits_loop bitLength (i + 1)
        (randomBits ++ (if Qlt_le_dec (random st) (1 # 2) then lit "0" else lit "1"))
        (S st)
  | right _ => (randomBits, st) }.
Next Obligation.
  assert (i < Qceiling bitLength); [ | lia].
  rewrite Zlt_Qlt. eapply Qlt_le_trans; [eassumption | apply Qle_ceiling].
Qed.

(** [RSA.generateRandomOddNumber]. *)
Definition generateRandomOddNumber (bitLength : Q) : rand Z :=
  fun st =>
    let (randomBits, st') := randomBits_loop bitLength 1 (lit "1") st in
    lift (BigInt_of_string (lit "0b" ++ randomBits)) st'.

(** The rounds [for (let i = 0; i < k; i++) { ... }] of the primality test. *)
Fixpoint rounds (k : nat) (n r s : Z) : rand bool :=
  match k with
  | O => ret true
  | S k' =>
      x <~ Math_random ;;
      passed <~ lift (round n r s (witness n x)) ;;
      if passed then rounds k' n r s else ret false
  end.

(** [RSA.millerRabinPrimalityTest]. *)
Definition millerRabinPrimalityTest (n : Z) (k : nat) : rand bool :=
  if n <? 2 then ret false
  else if (n =? 2) || (n =? 3) then ret true
  else if Z.rem n 2 =? 0 then ret false
  else
    rs <~ lift (decompose (n - 1) 0) ;;
    rounds k n (fst rs) (snd rs).

(** [RSA.generatePrime]: [do { prime = ... } while (!test(prime))], at most
    [fuel] candidates. The test runs with its default of 10 rounds. *)
Fixpoint generatePrime (fuel : nat) (bitLength : Q) : rand Z :=
  match fuel with
  | O => fun _ => OutOfFuel
  | S fuel' =>
      prime <~ generateRandomOddNumber bitLength ;;
      ok <~ millerRabinPrimalityTest prime 10 ;;
      if ok then ret prime else generatePrime fuel' bitLength
  end.

(** The search [while (RSA.gcd(e, phi) !== 1n) e = BigInt(Math.floor(Math.random() * Number(phi)))],
    at most [fuel] draws. *)
Fixpoint exponent_loop (fuel : nat) (phi e : Z) : rand Z :=
  if gcd e phi =? 1 then ret e
  else
    match fuel with
    | O => fun _ => OutOfFuel
    | S fuel' =>
        x <~ Math_random ;;
        e' <~ lift (BigInt_floor_times x (Number_of_BigInt phi)) ;;
        exponent_loop fuel' phi e'
    end.

Record KeyPair : Type := {
  publicKey : jsstring;
  privateKey : jsstring }.

(** [Buffer.from(`${x},${n}`).toString("base64")]. *)
Definition keyToken (x n : Z) : jsstring :=
  Buffer_toString_base64
    (Buffer_from (BigInt_toString x ++ lit "," ++ BigInt_toString n)).

(** [RSA.generateKeys]. *)
Definition generateKeys (fuel : nat) (bitLength : Q) : rand KeyPair :=
  p <~ generatePrime fuel (bitLength / 2) ;;
  q <~ generatePrime fuel (bitLength / 2) ;;
  let n := p * q in
  let phi := (p - 1) * (q - 1) in
  e <~ exponent_loop fuel phi PUBLIC_EXPONENT ;;
  d <~ lift (modInverse e phi) ;;
  ret {| publicKey := keyToken e n; privateKey := keyToken d n |}.

End WithRandomSource.

(** ** The cipher *)

(** [Buffer.from(key, "base64").toString().split(",").map(BigInt)] and the
    pattern [[x, n]] it is bound to: [n] is undefined when there is one
    field only. *)
Definition keyFields (key : jsstring) : outcome (Z * option Z) :=
  let (first, others) := split comma (Buffer_toString (Buffer_from_base64 key)) in
  fields <- map_throwing BigInt_of_string (first :: others) ;;
  match fields with
  | x :: n :: _ => Ok (x, Some n)
  | [x] => Ok (x, None)
  | [] => Throw TypeError
  end.

(** [RSA.modPow] with the modulus the key gave: arithmetic on an undefined
    modulus is a [TypeError]. *)
Definition modPow_with (base exponent : Z) (modulus : option Z) : outcome Z :=
  match modulus with
  | Some n => modPow base exponent n
  | None => Throw TypeError
  end.

(** The loop of [RSA.encryptWorker], [encrypted] being what is built so far. *)
Fixpoint encrypt_loop (e : Z) (n : option Z) (message encrypted : jsstring)
  : outcome jsstring :=
  match message with
  | [] => Ok encrypted
  | charCode :: rest =>
      encryptedChar <- modPow_with charCode e n ;;
      encrypt_loop e n rest (encrypted ++ BigInt_toString encryptedChar ++ lit ",")
  end.

(** [RSA.encryptWorker]. *)
Definition encryptWorker (message publicKey : jsstring) : outcome jsstring :=
  en <- keyFields publicKey ;;
  encrypted <- encrypt_loop (fst en) (snd en) message [] ;;
  Ok (slice_0_minus1 encrypted).

(** The loop of [RSA.decryptWorker]. *)
Fixpoint decrypt_loop (d : Z) (n : option Z) (encryptedChars : list Z)
  (decrypted : jsstring) : outcome jsstring :=
  match encryptedChars with
  | [] => Ok decrypted
  | encryptedChar :: rest =>
      x <- modPow_with encryptedChar d n ;;
      let charCode := Number_of_BigInt x in
      decrypt_loop d n rest (decrypted ++ String_fromCharCode charCode)
  end.

(** [RSA.decryptWorker]. *)
Definition decryptWorker (encryptedMessage privateKey : jsstring) : outcome jsstring :=
  dn <- keyFields privateKey ;;
  let (first, others) := split comma encryptedMessage in
  encryptedChars <- map_throwing BigInt_of_string (first :: others) ;;
  decrypt_loop (fst dn) (snd dn) encryptedChars [].

(** ** The worker thread *)

(** The two values of [action]. *)
Inductive action : Type :=
| Encrypt   (* "encrypt" *)
| Decrypt.  (* "decrypt" *)

(** [RSA.workerTask]: the main thread starts a worker on this file with
    [workerData = { action, message, key }]; the worker runs
    [encryptWorker] or [decryptWorker] on them and posts the result, which
    resolves the promise; what the worker throws rejects it. *)
Definition workerTask (a : action) (message key : jsstring) : outcome jsstring :=
  match a with
  | Encrypt => encryptWorker message key
  | Decrypt => decryptWorker message key
  end.

(** [RSA.encrypt] and [RSA.decrypt]. *)
Definition encrypt (message publicKey : jsstring) : outcome jsstring :=
  workerTask Encrypt message publicKey.

Definition decrypt (encryptedMessage privateKey : jsstring) : outcome jsstring :=
  workerTask Decrypt encryptedMessage privateKey.

End RSA.

(* ===================================================================== *)
(** * class ConsoleInterface *)
(* ===================================================================== *)

Module ConsoleInterface.

(** [keyDatas.length] for a decoded token. *)
Definition field_count (decoded : jsstring) : Z :=
  1 + Z.of_nat (List.length (snd (split comma decoded))).

(** [ConsoleInterface.validateKey]:
    [const keyDatas = atob(key).split(","); return !(keyDatas.length < 2)]. *)
Definition validateKey (key : jsstring) : outcome bool :=
  unzipedKey <- atob key ;;
  if field_count unzipedKey <? 2 then Ok false else Ok true.

(** ** The console *)

(** What the program writes and asks, in order. [chalk] wraps a text in
    the codes of a colour and leaves the text as it is: the events keep the
    text. *)
Inductive event : Type :=
| Question (query : jsstring)     (* rl.question(query, ...): the prompt *)
| Log (args : list jsstring)      (* console.log(...args) *)
| Error (args : list jsstring)    (* console.error(...args) *)
| Warn (args : list jsstring)     (* console.warn(...args) *)
| Close.                          (* rl.close() *)

(** The state of a run: the calls of [Math.random()] made, the questions
    answered, and what was written, the latest last. *)
Record world : Type := {
  draws : nat;
  asked : nat;
  screen : list event }.

(** An asynchronous function of the console: from a state, it resolves with
    a value and the new state, rejects with what was thrown, or exceeds the
    bound put on its loops. *)
Definition io (A : Type) : Type := world -> outcome (A * world).

Definition ret_io {A} (a : A) : io A := fun w => Ok (a, w).

Definition bind_io {A B} (c : io A) (k : A -> io B) : io B :=
  fun w =>
    match c w with
    | Ok (a, w') => k a w'
    | Throw e => Throw e
    | OutOfFuel => OutOfFuel
    end.

Notation "x <<- c ;; k" := (bind_io c (fun x => k))
  (at level 61, c at next level, right associativity) : js_scope.

(** A call that neither reads nor writes. *)
Definition lift_outcome {A} (c : outcome A) : io A :=
  fun w =>
    match c with
    | Ok a => Ok (a, w)
    | Throw e => Throw e
    | OutOfFuel => OutOfFuel
    end.

(** A call that draws random numbers. *)
Definition lift_rand {A} (c : RSA.rand A) : io A :=
  fun w =>
    match c (draws w) with
    | Ok (a, st) => Ok (a, {| draws := st; asked := asked w; screen := screen w |})
    | Throw e => Throw e
    | OutOfFuel => OutOfFuel
    end.

Definition write (e : event) : io unit :=
  fun w => Ok (tt, {| draws := draws w; asked := asked w; screen := screen w ++ [e] |}).

(** How a call of [processChoice] ends: it returns, or the process exits. *)
Inductive ended : Type :=
| Returned
| Exited (code : Z).

Section Interaction.

(** [random i] is what the [i]-th call of [Math.random()] returns, and
    [answers i] the line typed at the [i]-th question. *)
Variable random : nat -> Q.
Variable answers : nat -> jsstring.

(** [ConsoleInterface.askQuestion]: the prompt is written and the promise
    resolves with the line typed. *)
Definition askQuestion (query : jsstring) : io jsstring :=
  fun w =>
    Ok (answers (asked w),
        {| draws := draws w; asked := S (asked w); screen := screen w ++ [Question query] |}).

(** [ConsoleInterface.close]: [if (ConsoleInterface.rl) rl.close()]. The
    interface exists once a question was asked. *)
Definition close : io unit :=
  fun w => if (asked w =? 0)%nat then Ok (tt, w) else write Close w.

(** [ConsoleInterface.displayFuturisticAnimation]. *)
Definition displayFuturisticAnimation : io unit :=
  write (Log [lit "Welcome to RSA Encryption and Decryption"]).

(** [ConsoleInterface.displayMenu]. *)
Definition displayMenu : io unit :=
  _ <<- write (Log [lit "Menu:"]) ;;
  _ <<- write (Log [lit "1. Create RSA Key"]) ;;
  _ <<- write (Log [lit "2. Encrypt Message"]) ;;
  _ <<- write (Log [lit "3. Decrypt Message"]) ;;
  write (Log [lit "4. Exit"]).

(** The loop of [createRSAKey]:
    [do { bitLength = parseInt(await askQuestion(...));
          if (bitLength < 16) console.error(...); } while (bitLength < 16)],
    at most [fuel] questions. *)
Fixpoint askBitLength (fuel : nat) : io number :=
  match fuel with
  | O => fun _ => OutOfFuel
  | S fuel' =>
      answer <<- askQuestion (lit "Enter the desired bit length for the keys (>=16): ") ;;
      let bitLength := parseInt answer in
      if Number_lt bitLength (Num (Finite 16)) then
        _ <<- write (Error [lit "Bit length must be greater than or equal to 16. Please enter a valid value."]) ;;
        askBitLength fuel'
      else ret_io bitLength
  end.

(** [RSA.generateKeys(bitLength)] on the number read. The bit length is
    used in the tests [i < bitLength / 2] of [generateRandomOddNumber]
    only: on NaN and on -Infinity they all fail, as they do on 0; on
    Infinity none fails and the loop does not end. *)
Definition generateKeys_on (fuel : nat) (bitLength : number) : RSA.rand RSA.KeyPair :=
  match bitLength with
  | Num (Finite v) => RSA.generateKeys random fuel (inject_Z v)
  | Num PosInfinity => fun _ => OutOfFuel
  | NaN | Num NegInfinity => RSA.generateKeys random fuel 0
  end.

(** [ConsoleInterface.createRSAKey]. *)
Definition createRSAKey (fuel : nat) : io unit :=
  bitLength <<- askBitLength fuel ;;
  _ <<- (if Number_lt (Num (Finite 16)) bitLength && Number_lt bitLength (Num (Finite 1024))
         then write (Warn [lit "For production, bit length should be greater or equal to 1024. "])
         else ret_io tt) ;;
  keys <<- lift_rand (generateKeys_on fuel bitLength) ;;
  _ <<- write (Log [lit "Public Key: "; RSA.publicKey keys]) ;;
  write (Log [lit "Private Key: "; RSA.privateKey keys]).

(** The loop of [encryptMessage], [do { ... } while (isVaildKey === false)],
    at most [fuel] turns. [isVaildKey] is set before the loop and not in
    it; [ConsoleInterface.close;] in its second branch calls nothing. *)
Fixpoint encryptMessage_loop (fuel : nat) (isVaildKey : bool) (publicKey : jsstring)
  : io unit :=
  match fuel with
  | O => fun _ => OutOfFuel
  | S fuel' =>
      _ <<- (if isVaildKey then
               message <<- askQuestion (lit "Enter the message to encrypt: ") ;;
               encryptedMessage <<- lift_outcome (RSA.encrypt message publicKey) ;;
               write (Log [lit "Encrypted Message: "; encryptedMessage])
             else
               write (Error [lit "This Public Key is Invaid. Generate another key"])) ;;
      if isVaildKey then ret_io tt else encryptMessage_loop fuel' isVaildKey publicKey
  end.

(** [ConsoleInterface.encryptMessage]. *)
Definition encryptMessage (fuel : nat) : io unit :=
  publicKey <<- askQuestion (lit "Enter the RSA public key: ") ;;
  isVaildKey <<- lift_outcome (validateKey publicKey) ;;
  encryptMessage_loop fuel isVaildKey publicKey.

(** [ConsoleInterface.decryptMessage]. *)
Definition decryptMessage : io unit :=
  privateKey <<- askQuestion (lit "Enter the RSA private key: ") ;;
  encryptedMessage <<- askQuestion (lit "Enter the encrypted message: ") ;;
  decryptedMessage <<- lift_outcome (RSA.decrypt encryptedMessage privateKey) ;;
  write (Log [lit "Decrypted Message: "; decryptedMessage]).

(** [ConsoleInterface.processChoice]: [switch (choice.trim())]. After
    [process.exit(0)] nothing runs. The loops of the functions it calls
    are given the bound [fuel]. *)
Definition processChoice (fuel : nat) (choice : jsstring) : io ended :=
  let chosen := trim choice in
  if list_eq_dec Z.eq_dec chosen (lit "1") then
    _ <<- createRSAKey fuel ;; ret_io Returned
  else if list_eq_dec Z.eq_dec chosen (lit "2") then
    _ <<- encryptMessage fuel ;; ret_io Returned
  else if list_eq_dec Z.eq_dec chosen (lit "3") then
    _ <<- decryptMessage ;; ret_io Returned
  else if list_eq_dec Z.eq_dec chosen (lit "4") then
    _ <<- close ;; ret_io (Exited 0)
  else
    _ <<- write (Log [lit "Invalid choice. Please enter a valid option."]) ;;
    ret_io Returned.

(** The loop of [main]: [while (true) { menu; choice; processChoice }], at
    most [fuel] turns. It is left when the process exits only, with the
    exit code. *)
Fixpoint main_loop (fuel : nat) : io Z :=
  match fuel with
  | O => fun _ => OutOfFuel
  | S fuel' =>
      _ <<- displayMenu ;;
      choice <<- askQuestion (lit "Enter your choice: ") ;;
      how <<- processChoice fuel choice ;;
      match how with
      | Returned => main_loop fuel'
      | Exited code => ret_io code
      end
  end.

(** [main], run on the main thread. *)
Definition main (fuel : nat) : io Z :=
  _ <<- displayFuturisticAnimation ;;
  main_loop fuel.

End Interaction.

End ConsoleInterface.

(* ===================================================================== *)
(** * Random sources used in the examples *)
(* ===================================================================== *)

(** Every draw is [x]. *)
Definition always (x : Q) : nat -> Q := fun _ => x.

(** Every draw is 9/10, but the draws listed in [low], which are 1/10. *)
Definition mostly_high (low : list nat) : nat -> Q :=
  fun i => if existsb (Nat.eqb i) low then 1 # 10 else 9 # 10.

(** The draws are those of [first], in order, and [x] from then on. *)
Definition draws (first : list Q) (x : Q) : nat -> Q :=
  fun i => nth i first x.

(* ===================================================================== *)
(** * Vocabulary of the proofs *)
(* ===================================================================== *)

(** What every turn of the loop of [modInverse a0 m0] keeps: [x1] and [x0]
    are the coefficients of [a0] that give [a] and [m] modulo [m0], they
    have opposite signs, and their sizes are tied to [a] and [m] by
    [a * |x0| + m * |x1| = m0]. *)
Definition modInverse_inv (a0 m0 a m x0 x1 : Z) : Prop :=
  1 <= a /\ 0 <= m /\ Z.gcd a m = 1 /\
  (m0 | a - x1 * a0) /\ (m0 | m - x0 * a0) /\
  ((x0 <= 0 /\ 0 <= x1) \/ (0 <= x0 /\ x1 <= 0)) /\
  a * Z.abs x0 + m * Z.abs x1 = m0 /\
  Z.abs x1 < m0.

(** What [encryptWorker] appends for one unit: [`${encryptedChar},`]. *)
Definition unit_text (u : Z) : jsstring := BigInt_toString u ++ lit ",".

(** The ciphertext token that lists [units]: every unit with its comma, the
    last comma cut off. *)
Definition ciphertext_of (units : list Z) : jsstring :=
  slice_0_minus1 (flat_map unit_text units).

(** The six-bit groups [Buffer_toString_base64] writes for [bytes], and the
    padding it puts after them. *)
Fixpoint sextets_of_bytes (bytes : list Z) : list Z :=
  match bytes with
  | b1 :: b2 :: b3 :: r =>
      let n := (b1 * 256 + b2) * 256 + b3 in
      [n / 262144; (n / 4096) mod 64; (n / 64) mod 64; n mod 64] ++ sextets_of_bytes r
  | [b1; b2] =>
      let n := (b1 * 256 + b2) * 4 in [n / 4096; (n / 64) mod 64; n mod 64]
  | [b1] =>
      let n := b1 * 16 in [n / 64; n mod 64]
  | [] => []
  end.

Fixpoint padding_of (bytes : list Z) : jsstring :=
  match bytes with
  | _ :: _ :: _ :: r => padding_of r
  | [_; _] => [61]
  | [_] => [61; 61]
  | [] => []
  end.

(** What a Miller-Rabin round on the candidate [n], with [n - 1 = r * 2 ^ s]
    and the witness [a], holds after [j] squarings: [a ^ (r * 2 ^ j)]
    modulo [n]. *)
Definition squared_power (n r a j : Z) : Z := a ^ (r * 2 ^ j) mod n.

(** Case analysis on every comparison of the goal, dropping the cases the
    hypotheses rule out. *)
Ltac split_tests :=
  repeat (match goal with
          | |- context [?a <? ?b] => destruct (Z.ltb_spec a b)
          | |- context [?a <=? ?b] => destruct (Z.leb_spec a b)
          | |- context [?a =? ?b] => destruct (Z.eqb_spec a b)
          end; try lia; cbn [andb orb negb]).

(* ===================================================================== *)
(** * Properties *)
(* ===================================================================== *)

(** ** The loops, one turn at a time *)

Lemma gcd_zero (a : Z) : RSA.gcd a 0 = a.
Proof. now simp gcd. Qed.

Lemma gcd_step (a b : Z) : b <> 0 -> RSA.gcd a b = RSA.gcd b (Z.rem a b).
Proof.
  intros Hb. rewrite RSA.gcd_equation_1.
  destruct (Z.eq_dec b 0) as [E | E]; [contradiction | reflexivity].
Qed.

Lemma modPow_loop_done (result base exponent modulus : Z) :
  exponent <= 0 -> RSA.modPow_loop result base exponent modulus = result.
Proof.
  intros He. rewrite RSA.modPow_loop_equation_1.
  destruct (Z_gt_dec exponent 0) as [G | G]; [lia | reflexivity].
Qed.

Lemma modPow_loop_step (result base exponent modulus : Z) :
  0 < exponent ->
  RSA.modPow_loop result base exponent modulus =
  RSA.modPow_loop
    (if Z.land exponent 1 =? 0 then result else Z.rem (result * base) modulus)
    (Z.rem (base * base) modulus) (Z.shiftr exponent 1) modulus.
Proof.
  intros He. rewrite RSA.modPow_loop_equation_1.
  destruct (Z_gt_dec exponent 0) as [G | G]; [reflexivity | lia].
Qed.

Lemma modInverse_loop_done (a m x0 x1 : Z) :
  a <= 1 -> RSA.modInverse_loop a m x0 x1 = Ok x1.
Proof.
  intros Ha. rewrite RSA.modInverse_loop_equation_1.
  destruct (Z_gt_dec a 1) as [G | G]; [lia | reflexivity].
Qed.

Lemma modInverse_loop_zero (a x0 x1 : Z) :
  1 < a -> RSA.modInverse_loop a 0 x0 x1 = Throw RangeError.
Proof.
  intros Ha. rewrite RSA.modInverse_loop_equation_1.
  destruct (Z_gt_dec a 1) as [G | G]; [reflexivity | lia].
Qed.

Lemma modInverse_loop_step (a m x0 x1 : Z) :
  1 < a -> m <> 0 ->
  RSA.modInverse_loop a m x0 x1 =
  RSA.modInverse_loop m (Z.rem a m) (x1 - Z.quot a m * x0) x0.
Proof.
  intros Ha Hm. rewrite RSA.modInverse_loop_equation_1.
  destruct (Z_gt_dec a 1) as [G | G]; [ | lia].
  cbn. destruct (Z.eq_dec m 0) as [E | E]; [contradiction | reflexivity].
Qed.

(** ** modPow computes the modular power *)

Lemma low_bit_split (e : Z) :
  0 <= e -> e = 2 * Z.shiftr e 1 + (if Z.land e 1 =? 0 then 0 else 1).
Proof.
  intros He. rewrite Z.shiftr_div_pow2 by lia. change (2 ^ 1) with 2.
  change 1 with (Z.ones 1) at 1. rewrite Z.land_ones by lia. change (2 ^ 1) with 2.
  pose proof (Z.mod_pos_bound e 2 ltac:(lia)).
  pose proof (Z.div_mod e 2 ltac:(lia)).
  destruct (Z.eqb_spec (e mod 2) 0); lia.
Qed.

Lemma modPow_loop_spec (exponent : Z) :
  0 <= exponent -> forall result base modulus,
  0 < modulus -> 0 <= result -> 0 <= base -> 0 < exponent ->
  RSA.modPow_loop result base exponent modulus = (result * base ^ exponent) mod modulus.
Proof.
  intros He0. pattern exponent. apply Z_lt_induction; [ | exact He0].
  clear exponent He0. intros e IH r b m Hm Hr Hb He.
  rewrite modPow_loop_step by lia.
  pose proof (low_bit_split e ltac:(lia)) as Hsplit.
  set (h := Z.shiftr e 1) in *. clearbody h.
  assert (Hh : 0 <= h < e).
  { destruct (Z.land e 1 =? 0); lia. }
  assert (Hbb : Z.rem (b * b) m = (b * b) mod m) by (apply Z.rem_mod_nonneg; nia).
  assert (Hrb : Z.rem (r * b) m = (r * b) mod m) by (apply Z.rem_mod_nonneg; nia).
  rewrite Hbb, Hrb.
  assert (Hpow : forall k, 0 <= k -> (b * b) ^ k = b ^ (2 * k)).
  { intros k Hk. rewrite Z.pow_mul_r by lia. f_equal. lia. }
  destruct (Z.eq_dec h 0) as [Hz | Hz].
  - rewrite Hz in *. rewrite modPow_loop_done by lia.
    destruct (Z.land e 1 =? 0); [lia | ].
    replace e with 1 by lia. now rewrite Z.pow_1_r.
  - assert (Hbm : 0 <= (b * b) mod m < m) by (apply Z.mod_pos_bound; lia).
    rewrite IH; try lia.
    + rewrite <- Z.mul_mod_idemp_r by lia.
      rewrite Z.mod_pow_l.
      rewrite Z.mul_mod_idemp_r by lia.
      rewrite Hpow by lia.
      destruct (Z.land e 1 =? 0).
      * f_equal. f_equal. f_equal. lia.
      * rewrite Z.mul_mod_idemp_l by lia.
        rewrite Hsplit, Z.pow_add_r, Z.pow_1_r by lia.
        f_equal. lia.
    + destruct (Z.land e 1 =? 0); [lia | ].
      apply Z.mod_pos_bound; lia.
Qed.

(** What [modPow] returns on the inputs the cipher gives it. *)
Lemma modPow_spec (base exponent modulus : Z) :
  0 <= base -> 0 < modulus ->
  RSA.modPow base exponent modulus =
  Ok (if exponent <=? 0 then 1 else (base ^ exponent) mod modulus).
Proof.
  intros Hb Hm. unfold RSA.modPow, BigInt_rem.
  destruct (Z.eqb_spec modulus 0) as [E | E]; [lia | ]. cbn.
  destruct (Z.leb_spec exponent 0) as [L | L].
  - now rewrite modPow_loop_done.
  - rewrite Z.rem_mod_nonneg by lia.
    pose proof (Z.mod_pos_bound base modulus Hm).
    rewrite modPow_loop_spec by lia.
    rewrite Z.mul_1_l. now rewrite Z.mod_pow_l.
Qed.

(** ** gcd is the greatest common divisor on non-negative arguments *)

Lemma gcd_correct (b : Z) :
  0 <= b -> forall a, 0 <= a -> RSA.gcd a b = Z.gcd a b.
Proof.
  intros Hb0. pattern b. apply Zlt_0_ind; [ | exact Hb0].
  clear b Hb0. intros b IH Hb0 a Ha.
  destruct (Z.eq_dec b 0) as [-> | Hb].
  - rewrite gcd_zero, Z.gcd_0_r. lia.
  - rewrite gcd_step by assumption.
    rewrite Z.rem_mod_nonneg by lia.
    pose proof (Z.mod_pos_bound a b ltac:(lia)).
    rewrite IH by lia.
    rewrite Z.gcd_comm, Z.gcd_mod by lia. apply Z.gcd_comm.
Qed.

(** ** modInverse: the extended Euclidean loop *)

Section ModInverse.

(** The arguments [modInverse] was called with. *)
Variables a0 m0 : Z.
Hypothesis m0_big : 1 < m0.


Lemma modInverse_inv_init :
  1 <= a0 -> Z.gcd a0 m0 = 1 -> modInverse_inv a0 m0 a0 m0 0 1.
Proof.
  intros Ha Hg. unfold modInverse_inv. repeat split; try lia; try assumption.
  - exists 0. lia.
  - exists 1. lia.
Qed.

Lemma modInverse_inv_step (a m x0 x1 : Z) :
  modInverse_inv a0 m0 a m x0 x1 -> 1 < a ->
  m <> 0 /\ 0 <= Z.rem a m < m /\
  modInverse_inv a0 m0 m (Z.rem a m) (x1 - Z.quot a m * x0) x0.
Proof.
  intros (Ha & Hm & Hg & Hd1 & Hd0 & Hs & Hsize & Hx1) Ha1.
  assert (Hm0 : m <> 0).
  { intros ->. rewrite Z.gcd_0_r in Hg. lia. }
  assert (Hrem : Z.rem a m = a mod m) by (apply Z.rem_mod_nonneg; lia).
  assert (Hquot : Z.quot a m = a / m) by (apply Z.quot_div_nonneg; lia).
  rewrite Hrem, Hquot.
  pose proof (Z.mod_pos_bound a m ltac:(lia)) as Hb.
  pose proof (Z.div_mod a m Hm0) as Hdm.
  assert (Hq : 0 <= a / m) by (apply Z.div_pos; lia).
  set (q := a / m) in *. set (r := a mod m) in *. clearbody q r.
  split; [exact Hm0 | ]. split; [exact Hb | ].
  unfold modInverse_inv. repeat split; try lia.
  - subst a. rewrite Z.gcd_comm in Hg.
    rewrite Z.add_comm, Z.mul_comm, Z.gcd_add_mult_diag_r in Hg.
    exact Hg.
  - exact Hd0.
  - destruct Hd1 as [k1 Hk1], Hd0 as [k0 Hk0].
    exists (k1 - q * k0). nia.
  - destruct Hs as [[H0 H1] | [H0 H1]].
    + rewrite (Z.abs_eq (x1 - q * x0)) by nia.
      rewrite (Z.abs_neq x0) in * by lia. rewrite (Z.abs_eq x1) in * by lia. nia.
    + rewrite (Z.abs_neq (x1 - q * x0)) by nia.
      rewrite (Z.abs_eq x0) in * by lia. rewrite (Z.abs_neq x1) in * by lia. nia.
  - assert (Hmx : 0 <= m * Z.abs x1) by (pose proof (Z.abs_nonneg x1); nia).
    pose proof (Z.abs_nonneg x0). nia.
Qed.

Lemma modInverse_loop_spec (m : Z) :
  0 <= m -> forall a x0 x1,
  modInverse_inv a0 m0 a m x0 x1 ->
  exists x, RSA.modInverse_loop a m x0 x1 = Ok x /\
            (m0 | 1 - x * a0) /\ Z.abs x < m0.
Proof.
  intros Hm0. pattern m. apply Zlt_0_ind; [ | exact Hm0].
  clear m Hm0. intros m IH Hm a x0 x1 Hinv.
  destruct (Z_le_gt_dec a 1) as [Ha | Ha].
  - rewrite modInverse_loop_done by exact Ha.
    destruct Hinv as (Ha1 & _ & _ & Hd1 & _ & _ & _ & Hx1).
    exists x1. replace a with 1 in Hd1 by lia. auto.
  - destruct (modInverse_inv_step a m x0 x1 Hinv ltac:(lia)) as (Hm0 & Hr & Hinv').
    rewrite modInverse_loop_step by lia.
    apply IH; [lia | exact Hinv'].
Qed.

End ModInverse.

(** [modInverse] on a coprime pair: the result, its range and what it is. *)
Lemma modInverse_spec (e phi : Z) :
  1 <= e -> 1 < phi -> Z.gcd e phi = 1 ->
  exists d, RSA.modInverse e phi = Ok d /\ 0 <= d < phi /\ (e * d) mod phi = 1.
Proof.
  intros He Hphi Hg.
  destruct (modInverse_loop_spec e phi Hphi phi ltac:(lia) e 0 1
              (modInverse_inv_init e phi Hphi He Hg)) as (x & Hx & [k Hk] & Hb).
  unfold RSA.modInverse.
  destruct (Z.eqb_spec phi 1) as [E | E]; [lia | ].
  rewrite Hx. cbn.
  exists (if x <? 0 then x + phi else x). split; [reflexivity | ].
  split.
  - destruct (Z.ltb_spec x 0); lia.
  - destruct (Z.ltb_spec x 0).
    + replace (e * (x + phi)) with (1 + (e - k) * phi) by lia.
      rewrite Z.mod_add by lia. apply Z.mod_small. lia.
    + replace (e * x) with (1 + (- k) * phi) by lia.
      rewrite Z.mod_add by lia. apply Z.mod_small. lia.
Qed.

(** ** C3: the range of modPow *)

(** C3, as stated, fails: with modulus 1 and exponent 0 the loop is not
    entered and [modPow] returns 1, outside [0, 0]; and a negative base
    gives a negative result, the remainder taking the sign of the
    dividend. *)
Lemma modPow_range_counterexample :
  RSA.modPow 5 0 1 = Ok 1 /\ ~ (0 <= 1 <= 1 - 1) /\
  RSA.modPow (-2) 1 3 = Ok (-2) /\ ~ (0 <= -2 <= 3 - 1).
Proof. repeat split; try (vm_compute; reflexivity); lia. Qed.

(** C3, amended: for every base >= 0, every exponent >= 0 and every modulus
    > 0, the case of modulus 1 with exponent 0 left out, [modPow] returns a
    value in [0, modulus - 1]; and [modPow a 0 n] is 1 for every [a] and
    every [n > 1]. *)
Theorem modPow_range (base exponent modulus : Z) :
  (0 <= base -> 0 <= exponent -> 0 < modulus -> 1 < modulus \/ 0 < exponent ->
   exists v, RSA.modPow base exponent modulus = Ok v /\ 0 <= v <= modulus - 1) /\
  (1 < modulus -> RSA.modPow base 0 modulus = Ok 1).
Proof.
  split.
  - intros Hb He Hm Hcase. rewrite modPow_spec by lia.
    eexists. split; [reflexivity | ].
    destruct (Z.leb_spec exponent 0) as [L | L].
    + lia.
    + pose proof (Z.mod_pos_bound (base ^ exponent) modulus Hm). lia.
  - intros Hm1. unfold RSA.modPow, BigInt_rem.
    destruct (Z.eqb_spec modulus 0) as [E | E]; [lia | ]. cbn.
    now rewrite modPow_loop_done by lia.
Qed.

Lemma modPow_range_witness :
  (exists v, RSA.modPow 7 5 13 = Ok v /\ 0 <= v <= 13 - 1) /\
  RSA.modPow 7 0 13 = Ok 1.
Proof.
  destruct (modPow_range 7 5 13) as [Hrange Hone].
  split; [apply Hrange; lia | apply Hone; lia].
Defined.

(** ** C9: modPow has no guard *)

(** C9, as stated, fails: a negative exponent and a negative modulus are
    both answered with a value. *)
Lemma modPow_guard_counterexample :
  RSA.modPow 2 (-1) 5 = Ok 1 /\ RSA.modPow 2 3 (-5) = Ok 3.
Proof. split; vm_compute; reflexivity. Qed.

(** C9, amended: [modPow] checks nothing. With a modulus other than 0 it
    returns a value for every base and exponent, 1 when the exponent is not
    positive; with modulus 0 the first remainder raises the runtime's
    [RangeError]. *)
Theorem modPow_unguarded (base exponent modulus : Z) :
  (modulus <> 0 ->
   exists v, RSA.modPow base exponent modulus = Ok v /\ (exponent <= 0 -> v = 1)) /\
  RSA.modPow base exponent 0 = Throw RangeError.
Proof.
  split; [ | reflexivity].
  intros Hm. unfold RSA.modPow, BigInt_rem.
  destruct (Z.eqb_spec modulus 0) as [E | E]; [contradiction | ]. cbn.
  eexists. split; [reflexivity | ].
  intros He. now apply modPow_loop_done.
Qed.

Lemma modPow_unguarded_witness :
  exists v, RSA.modPow 2 (-1) (-5) = Ok v /\ (-1 <= 0 -> v = 1).
Proof. apply (proj1 (modPow_unguarded 2 (-1) (-5))). lia. Defined.

(** ** C5: the witness of a Miller-Rabin round *)

Lemma scaled_draw_range (r : Q) (k : Z) :
  (0 <= r)%Q -> (r < 1)%Q -> 0 < k -> 0 <= Qfloor (r * inject_Z k) <= k - 1.
Proof.
  intros H0 H1 Hk.
  assert (Hk' : (0 < inject_Z k)%Q).
  { change 0%Q with (inject_Z 0). rewrite <- Zlt_Qlt. exact Hk. }
  split.
  - change 0 with (Qfloor 0). apply Qfloor_resp_le.
    apply Qmult_le_0_compat; [exact H0 | apply Qlt_le_weak; exact Hk'].
  - assert (Qfloor (r * inject_Z k) < k); [ | lia].
    rewrite Zlt_Qlt. apply Qle_lt_trans with (r * inject_Z k)%Q; [apply Qfloor_le | ].
    rewrite <- (Qmult_1_l (inject_Z k)) at 2.
    apply Qmult_lt_compat_r; assumption.
Qed.

Lemma scaled_draw_onto (k a : Z) :
  0 <= a < k ->
  exists r, (0 <= r)%Q /\ (r < 1)%Q /\ Qfloor (r * inject_Z k) = a.
Proof.
  intros Ha.
  assert (Hk : ~ (inject_Z k == 0)%Q).
  { change 0%Q with (inject_Z 0). rewrite inject_Z_injective. lia. }
  assert (Hk' : (0 < inject_Z k)%Q).
  { change 0%Q with (inject_Z 0). rewrite <- Zlt_Qlt. lia. }
  exists (inject_Z a / inject_Z k)%Q. split; [ | split].
  - apply Qle_shift_div_l; [exact Hk' | ].
    rewrite Qmult_0_l. change 0%Q with (inject_Z 0). rewrite <- Zle_Qle. lia.
  - apply Qlt_shift_div_r; [exact Hk' | ].
    rewrite Qmult_1_l. rewrite <- Zlt_Qlt. lia.
  - rewrite (Qfloor_comp _ (inject_Z a)); [apply Qfloor_Z | ].
    rewrite Qmult_comm. apply Qmult_div_r. exact Hk.
Qed.

(** The interval [[max (n - 10) 2, n)] is not the one of the candidate 11:
    [n > 10n] holds there, the least witness is [n - 10 = 1], and the draw 0
    gives the witness 1, below [max (n - 10) 2 = 2]. The candidate is one the
    program tests: in [generatePrime(4)], after the bits ["1011"], ten draws
    of 0 make every witness 1, and [generateKeys(8)] returns the modulus
    [11 * 11] on such draws. *)
Lemma witness_of_11_is_1 :
  RSA.minRandom 11 = 1 /\ RSA.witness 11 0 = 1 /\ Z.max (11 - 10) 2 = 2 /\
  RSA.millerRabinPrimalityTest (always 0) 11 10 0%nat = Ok (true, 10%nat) /\
  RSA.generatePrime (draws [0%Q; 9 # 10; 9 # 10] 0) 1 4 0%nat = Ok (11, 13%nat) /\
  exists keys,
    RSA.generateKeys
      (draws [0%Q; 9 # 10; 9 # 10; 0%Q; 0%Q; 0%Q; 0%Q; 0%Q; 0%Q; 0%Q; 0%Q;
              0%Q; 0%Q; 0%Q; 9 # 10; 9 # 10] 0) 1 8 0%nat = Ok (keys, 26%nat) /\
    RSA.keyFields (RSA.publicKey keys) = Ok (65537, Some (11 * 11)).
Proof.
  repeat match goal with |- _ /\ _ => split end; try (vm_compute; reflexivity).
  eexists. split; vm_compute; reflexivity.
Qed.

(** For every other candidate above 3 the witness lies in
    [[max (n - 10) 2, n)], whatever the draw. *)
Lemma witness_range (n : Z) (r : Q) :
  3 < n -> n <> 11 -> (0 <= r)%Q -> (r < 1)%Q ->
  Z.max (n - 10) 2 <= RSA.witness n r < n.
Proof.
  intros Hn H11 H0 H1. unfold RSA.witness, RSA.minRandom.
  destruct (Z.gtb_spec n 10) as [G | G].
  - pose proof (scaled_draw_range r (n - (n - 10)) H0 H1 ltac:(lia)). lia.
  - pose proof (scaled_draw_range r (n - 2) H0 H1 ltac:(lia)). lia.
Qed.

Lemma witness_range_witness : Z.max (13 - 10) 2 <= RSA.witness 13 (9 # 10) < 13.
Proof. apply (witness_range 13 (9 # 10)); [lia | lia | easy | easy]. Defined.

(** C5: in a round on a candidate [n > 3] the witness is drawn from the
    interval the conditional [n > 10n ? n - 10n : 2n] opens: [[n - 10, n)]
    above 10 and [[2, n)] up to 10. Every draw gives a witness of that
    interval and every value of it is the witness of some draw. It is
    [[max (n - 10) 2, n)] for every candidate but 11. *)
Theorem witness_interval (n : Z) (r : Q) :
  3 < n -> (0 <= r)%Q -> (r < 1)%Q ->
  (if n >? 10 then n - 10 else 2) <= RSA.witness n r < n /\
  (n <> 11 -> Z.max (n - 10) 2 <= RSA.witness n r < n) /\
  (forall a, (if n >? 10 then n - 10 else 2) <= a < n ->
     exists r', (0 <= r')%Q /\ (r' < 1)%Q /\ RSA.witness n r' = a).
Proof.
  intros Hn H0 H1. unfold RSA.witness, RSA.minRandom.
  destruct (Z.gtb_spec n 10) as [G | G].
  - pose proof (scaled_draw_range r (n - (n - 10)) H0 H1 ltac:(lia)).
    split; [lia | ]. split; [lia | ].
    intros a Ha.
    destruct (scaled_draw_onto (n - (n - 10)) (a - (n - 10)) ltac:(lia))
      as (r' & L & U & E).
    exists r'. rewrite E. repeat split; try assumption; lia.
  - pose proof (scaled_draw_range r (n - 2) H0 H1 ltac:(lia)).
    split; [lia | ]. split; [lia | ].
    intros a Ha.
    destruct (scaled_draw_onto (n - 2) (a - 2) ltac:(lia)) as (r' & L & U & E).
    exists r'. rewrite E. repeat split; try assumption; lia.
Qed.

Lemma witness_interval_witness :
  11 - 10 <= RSA.witness 11 0 < 11 /\
  Z.max (13 - 10) 2 <= RSA.witness 13 (9 # 10) < 13 /\
  exists r', (0 <= r')%Q /\ (r' < 1)%Q /\ RSA.witness 11 r' = 1.
Proof.
  split; [ | split].
  - apply (witness_interval 11 0); [lia | easy | easy].
  - apply (witness_interval 13 (9 # 10)); [lia | easy | easy | lia].
  - apply (witness_interval 11 0); [lia | easy | easy | simpl; lia].
Defined.

(** ** C6: the candidates of the prime generator *)

(** C6 fails on the low bit: only the leading ["1"] is fixed, every other
    bit is drawn. With bit length 2 and a draw below 1/2 the candidate is
    ["0b10"], the even number 2; with bit length 8, the least the console
    asks for, and seven such draws it is 128. *)
Lemma generateRandomOddNumber_even_candidate :
  RSA.generateRandomOddNumber (always (1 # 4)) 2 0%nat = Ok (2, 1%nat) /\
  Z.even 2 = true /\
  RSA.generateRandomOddNumber (always (1 # 4)) 8 0%nat = Ok (128, 7%nat) /\
  Z.even 128 = true.
Proof. repeat split; vm_compute; reflexivity. Qed.

(** ** C8: validateKey *)

Lemma field_count_comma (s : jsstring) :
  2 <= ConsoleInterface.field_count s <-> In comma s.
Proof.
  unfold ConsoleInterface.field_count.
  induction s as [ | c r IH]; cbn [split].
  - cbn. split; [lia | intros []].
  - destruct (split comma r) as [f fs] eqn:E. cbn [snd] in IH.
    destruct (Z.eqb_spec c comma) as [-> | Hc]; cbn [snd List.length].
    + split; [intros _; now left | lia].
    + rewrite IH. split; [now right | intros [H | H]; [congruence | exact H]].
Qed.

Lemma atob_outcome (data : jsstring) :
  (exists decoded, atob data = Ok decoded) \/ atob data = Throw InvalidCharacterError.
Proof.
  unfold atob.
  set (d := strip_padding _). clearbody d.
  destruct (_ =? 1); [now right | ].
  set (f := fun c : Z => _).
  assert (H : (exists l, map_throwing f d = Ok l) \/
              map_throwing f d = Throw InvalidCharacterError).
  { induction d as [ | c r IH]; cbn.
    - left. now exists [].
    - destruct (f c) as [v | e | ] eqn:E; cbn.
      + destruct IH as [[l ->] | ->]; cbn; [left; eauto | now right].
      + right. unfold f in E. destruct (base64_value c); congruence.
      + unfold f in E. destruct (base64_value c); discriminate. }
  destruct H as [[l ->] | ->]; [left; eauto | now right].
Qed.

(** C8: [validateKey] is no total boolean check. [atob] raises on a token
    that is no base64, ["!"] or a token with one character after its
    padding is taken off, and [validateKey] lets the error through, where a
    token that decodes to one field gives [false]. Its caller
    [encryptMessage] has a branch for a key that is not valid; on such a
    token the branch is not reached, the error is caught nowhere, and
    [main] ends on it after the choice 2. *)
Theorem validateKey_throws :
  ConsoleInterface.validateKey (lit "!") = Throw InvalidCharacterError /\
  ConsoleInterface.validateKey (lit "MCw0=") = Throw InvalidCharacterError /\
  ConsoleInterface.validateKey (lit "MTIz") = Ok false /\
  (forall (fuel : nat) (w : ConsoleInterface.world),
     ConsoleInterface.encryptMessage (fun _ => lit "!") fuel w =
     Throw InvalidCharacterError) /\
  (forall (random : nat -> Q) (fuel : nat),
     ConsoleInterface.main random
       (fun i => match i with O => lit "2" | S _ => lit "!" end) (S fuel)
       {| ConsoleInterface.draws := 0; ConsoleInterface.asked := 0;
          ConsoleInterface.screen := [] |} = Throw InvalidCharacterError).
Proof.
  repeat match goal with |- _ /\ _ => split end; intros; vm_compute; reflexivity.
Qed.

(** What [validateKey] does on every token: either the token decodes and
    [validateKey] returns whether the decoded text has two fields at
    least, that is whether it holds a comma, or it does not decode and
    [validateKey] raises [atob]'s [InvalidCharacterError]. *)
Lemma validateKey_outcome (key : jsstring) :
  (exists decoded,
     atob key = Ok decoded /\
     ConsoleInterface.validateKey key = Ok (2 <=? ConsoleInterface.field_count decoded) /\
     (ConsoleInterface.validateKey key = Ok true <-> In comma decoded)) \/
  (atob key = Throw InvalidCharacterError /\
   ConsoleInterface.validateKey key = Throw InvalidCharacterError).
Proof.
  unfold ConsoleInterface.validateKey.
  destruct (atob_outcome key) as [[decoded ->] | ->]; [left | right; now split].
  exists decoded. cbn [bind]. split; [reflexivity | ].
  pose proof (field_count_comma decoded) as Hc.
  destruct (Z.ltb_spec (ConsoleInterface.field_count decoded) 2) as [L | L];
    destruct (Z.leb_spec 2 (ConsoleInterface.field_count decoded)) as [L' | L'];
    try lia.
  - split; [reflexivity | ]. split; [discriminate | ].
    intros H. apply Hc in H. lia.
  - split; [reflexivity | ]. split; [intros _; now apply Hc | reflexivity].
Qed.

(** ** C10: the empty plaintext *)

(** C10, as stated, fails for a private exponent that is not positive: the
    loop of [modPow] is not entered and the unit 0 decrypts to the code 1.
    [generateKeys] gives such a key when both primes are 2. *)
Lemma decrypt_empty_counterexample :
  (exists st, RSA.generateKeys (always (1 # 4)) 1 4 0%nat =
              Ok ({| RSA.publicKey := lit "NjU1MzcsNA=="; RSA.privateKey := lit "MCw0" |}, st)) /\
  RSA.keyFields (lit "MCw0") = Ok (0, Some 4) /\ 1 < 4 /\
  RSA.decryptWorker [] (lit "MCw0") = Ok [1].
Proof.
  split; [eexists; vm_compute; reflexivity | ].
  repeat split; vm_compute; reflexivity.
Qed.

(** C10, amended: the empty plaintext encrypts to the empty token under
    every key that parses, and for every private key with exponent [d > 0]
    and modulus [n > 1] the empty token decrypts to the one unit 0, not to
    the empty string. *)
Theorem empty_plaintext_round_trip (publicKey privateKey : jsstring)
    (e d n : Z) (n' : option Z) :
  RSA.keyFields publicKey = Ok (e, n') ->
  RSA.keyFields privateKey = Ok (d, Some n) ->
  0 < d -> 1 < n ->
  RSA.encryptWorker [] publicKey = Ok [] /\
  RSA.decryptWorker [] privateKey = Ok [0] /\
  (c <- RSA.encryptWorker [] publicKey ;; RSA.decryptWorker c privateKey) = Ok [0].
Proof.
  intros Hpub Hpriv Hd Hn.
  assert (Henc : RSA.encryptWorker [] publicKey = Ok []).
  { unfold RSA.encryptWorker. rewrite Hpub. reflexivity. }
  assert (Hdec : RSA.decryptWorker [] privateKey = Ok [0]).
  { unfold RSA.decryptWorker. rewrite Hpriv. cbn.
    rewrite modPow_spec by lia. cbn.
    destruct (Z.leb_spec d 0) as [L | L]; [lia | ].
    rewrite Z.pow_0_l, Z.mod_0_l by lia. reflexivity. }
  rewrite Henc. cbn. auto.
Qed.

Lemma empty_plaintext_round_trip_witness :
  RSA.encryptWorker [] (lit "NjU1MzcsMTQz") = Ok [] /\
  RSA.decryptWorker [] (lit "MTEzLDE0Mw==") = Ok [0] /\
  (c <- RSA.encryptWorker [] (lit "NjU1MzcsMTQz") ;;
   RSA.decryptWorker c (lit "MTEzLDE0Mw==")) = Ok [0].
Proof.
  apply (empty_plaintext_round_trip _ _ 65537 113 143 (Some 143));
    [vm_compute; reflexivity | vm_compute; reflexivity | lia | lia].
Defined.

(** ** C7: every ciphertext unit is below the modulus *)

Lemma modPow_unit_range (charCode e n : Z) :
  0 <= charCode -> 1 < n ->
  exists unit, RSA.modPow charCode e n = Ok unit /\ 0 <= unit < n.
Proof.
  intros Hc Hn. rewrite modPow_spec by lia.
  eexists. split; [reflexivity | ].
  destruct (Z.leb_spec e 0) as [L | L]; [lia | ].
  apply Z.mod_pos_bound. lia.
Qed.

Lemma encrypt_loop_spec (e n : Z) (message : jsstring) :
  1 < n -> is_jsstring message ->
  forall encrypted,
  exists units,
    RSA.encrypt_loop e (Some n) message encrypted =
      Ok (encrypted ++ flat_map unit_text units) /\
    Forall2 (fun charCode unit => RSA.modPow charCode e n = Ok unit /\ 0 <= unit < n)
            message units.
Proof.
  intros Hn Hmsg. induction Hmsg as [ | c rest Hc Hrest IH]; intros encrypted.
  - exists []. cbn. rewrite app_nil_r. split; [reflexivity | constructor].
  - destruct (modPow_unit_range c e n ltac:(apply Hc) Hn) as (u & Hu & Hr).
    destruct (IH (encrypted ++ BigInt_toString u ++ lit ",")) as (us & Hus & Hall).
    exists (u :: us). split.
    + cbn [RSA.encrypt_loop RSA.modPow_with]. rewrite Hu. cbn [bind].
      rewrite Hus. cbn [flat_map]. unfold unit_text at 2.
      now rewrite <- !app_assoc.
    + constructor; [split; assumption | exact Hall].
Qed.

(** C7: under a public key with modulus [n > 1], [encryptWorker] returns
    the token that lists one unit per character of the plaintext, each unit
    what [modPow] gave for that character and each in [0, n). *)
Theorem encrypt_units_in_range (message publicKey : jsstring) (e n : Z) :
  RSA.keyFields publicKey = Ok (e, Some n) -> 1 < n -> is_jsstring message ->
  exists units,
    RSA.encryptWorker message publicKey = Ok (ciphertext_of units) /\
    Forall2 (fun charCode unit => RSA.modPow charCode e n = Ok unit /\ 0 <= unit < n)
            message units.
Proof.
  intros Hkey Hn Hmsg.
  destruct (encrypt_loop_spec e n message Hn Hmsg []) as (units & Hloop & Hall).
  exists units. split; [ | exact Hall].
  unfold RSA.encryptWorker. rewrite Hkey. cbn [bind fst snd].
  rewrite Hloop. reflexivity.
Qed.

Lemma encrypt_units_in_range_witness :
  exists units,
    RSA.encryptWorker (lit "Hi") (lit "NjU1MzcsMTQz") = Ok (ciphertext_of units) /\
    Forall2 (fun charCode unit =>
               RSA.modPow charCode 65537 143 = Ok unit /\ 0 <= unit < 143)
            (lit "Hi") units.
Proof.
  apply (encrypt_units_in_range (lit "Hi") (lit "NjU1MzcsMTQz") 65537 143);
    [vm_compute; reflexivity | lia | ].
  repeat constructor; vm_compute; congruence.
Defined.

(** ** C4: 65537 is taken when it is coprime with phi *)

Lemma bind_rand_ok {A B} (c : RSA.rand A) (k : A -> RSA.rand B) st b st' :
  RSA.bind_rand c k st = Ok (b, st') ->
  exists a st1, c st = Ok (a, st1) /\ k a st1 = Ok (b, st').
Proof.
  unfold RSA.bind_rand. destruct (c st) as [[a st1] | e | ]; try discriminate.
  intros H. eauto.
Qed.

Lemma millerRabin_true_ge_2 random n k st st' :
  RSA.millerRabinPrimalityTest random n k st = Ok (true, st') -> 2 <= n.
Proof.
  unfold RSA.millerRabinPrimalityTest.
  destruct (Z.ltb_spec n 2) as [L | L]; [discriminate | lia].
Qed.

Lemma generatePrime_ge_2 random fuel bitLength :
  forall st p st', RSA.generatePrime random fuel bitLength st = Ok (p, st') -> 2 <= p.
Proof.
  induction fuel as [ | fuel IH]; intros st p st' H; [discriminate | ].
  cbn [RSA.generatePrime] in H.
  apply bind_rand_ok in H. destruct H as (prime & st1 & _ & H).
  apply bind_rand_ok in H. destruct H as (ok & st2 & Htest & H).
  destruct ok.
  - injection H as <- <-. eapply millerRabin_true_ge_2; eassumption.
  - eapply IH; eassumption.
Qed.

Lemma exponent_loop_coprime random fuel phi e st :
  RSA.gcd e phi = 1 -> RSA.exponent_loop random fuel phi e st = Ok (e, st).
Proof.
  intros Hg. destruct fuel; cbn [RSA.exponent_loop]; rewrite Hg; reflexivity.
Qed.

(** C4: when the two primes drawn give a [phi] with [gcd(65537, phi) = 1],
    the exponent search returns 65537 without a draw, whatever bound it is
    given, and the keys of [generateKeys] carry [e = 65537]. *)
Theorem generateKeys_prefers_65537 (random : nat -> Q) (fuel : nat) (bitLength : Q)
    (st st1 st2 : nat) (p q : Z) :
  RSA.generatePrime random fuel (bitLength / 2) st = Ok (p, st1) ->
  RSA.generatePrime random fuel (bitLength / 2) st1 = Ok (q, st2) ->
  RSA.gcd RSA.PUBLIC_EXPONENT ((p - 1) * (q - 1)) = 1 ->
  (forall fuel', RSA.exponent_loop random fuel' ((p - 1) * (q - 1)) RSA.PUBLIC_EXPONENT st2
                 = Ok (65537, st2)) /\
  exists d,
    RSA.modInverse 65537 ((p - 1) * (q - 1)) = Ok d /\
    RSA.generateKeys random fuel bitLength st =
      Ok ({| RSA.publicKey := RSA.keyToken 65537 (p * q);
             RSA.privateKey := RSA.keyToken d (p * q) |}, st2).
Proof.
  intros Hp Hq Hg.
  pose proof (generatePrime_ge_2 _ _ _ _ _ _ Hp) as Hp2.
  pose proof (generatePrime_ge_2 _ _ _ _ _ _ Hq) as Hq2.
  split; [intros fuel'; now apply exponent_loop_coprime | ].
  set (phi := (p - 1) * (q - 1)) in *.
  assert (Hphi : 1 <= phi) by (unfold phi; nia).
  assert (Hd : exists d, RSA.modInverse 65537 phi = Ok d).
  { destruct (Z.eq_dec phi 1) as [-> | Hne]; [now exists 0 | ].
    unfold RSA.PUBLIC_EXPONENT in Hg. rewrite gcd_correct in Hg by lia.
    destruct (modInverse_spec 65537 phi ltac:(lia) ltac:(lia) Hg) as (d & Hd & _).
    eauto. }
  destruct Hd as [d Hd]. exists d. split; [exact Hd | ].
  unfold RSA.generateKeys, RSA.bind_rand. rewrite Hp, Hq.
  fold phi. rewrite (exponent_loop_coprime random fuel phi _ st2 Hg).
  unfold RSA.PUBLIC_EXPONENT, RSA.lift. rewrite Hd. reflexivity.
Qed.

Lemma generateKeys_prefers_65537_witness :
  (forall fuel', RSA.exponent_loop (mostly_high [0; 14]%nat) fuel' ((11 - 1) * (13 - 1))
                   RSA.PUBLIC_EXPONENT 26%nat = Ok (65537, 26%nat)) /\
  exists d,
    RSA.modInverse 65537 ((11 - 1) * (13 - 1)) = Ok d /\
    RSA.generateKeys (mostly_high [0; 14]%nat) 1 8 0%nat =
      Ok ({| RSA.publicKey := RSA.keyToken 65537 (11 * 13);
             RSA.privateKey := RSA.keyToken d (11 * 13) |}, 26%nat).
Proof.
  apply (generateKeys_prefers_65537 (mostly_high [0; 14]%nat) 1 8 0%nat 13%nat 26%nat 11 13);
    vm_compute; reflexivity.
Defined.

(** ** Number theory behind the round trip *)

(** Fermat's little theorem, walked along an exponent [1 + j * (p - 1)]. *)
Lemma pow_cycle (p a : Z) :
  Z.prime p -> forall j, 0 <= j -> a ^ (1 + j * (p - 1)) mod p = a mod p.
Proof.
  intros Hp. pose proof (Z.prime_ge_2 p Hp) as Hp2.
  apply natlike_ind.
  - now rewrite Z.mul_0_l, Z.add_0_r, Z.pow_1_r.
  - intros j Hj IH.
    replace (1 + Z.succ j * (p - 1)) with (j * (p - 1) + p) by lia.
    rewrite Z.pow_add_r by nia.
    rewrite <- Z.mul_mod_idemp_r by lia.
    rewrite (Stdlib.Zmod.ZmodInv.Z.fermat p a Hp).
    rewrite Z.mul_mod_idemp_r by lia.
    rewrite <- IH. f_equal.
    rewrite Z.add_comm, Z.pow_add_r, Z.pow_1_r by nia. reflexivity.
Qed.

Lemma cong_divide (m a b : Z) : 0 < m -> a mod m = b mod m -> (m | a - b).
Proof.
  intros Hm H. apply Z.mod_divide; [lia | ].
  rewrite Zminus_mod, H, Z.sub_diag. apply Z.mod_0_l. lia.
Qed.

Lemma distinct_primes_coprime (p q : Z) :
  Z.prime p -> Z.prime q -> p <> q -> Z.gcd p q = 1.
Proof.
  intros Hp Hq Hne. apply Z.coprime_prime_l; [exact Hp | ].
  intros Hd. apply Hne. now apply Z.divide_prime_prime.
Qed.

(** The RSA identity: an exponent that is 1 modulo [(p - 1) * (q - 1)]
    leaves every residue modulo [p * q] where it was. *)
Lemma rsa_identity (p q c k : Z) :
  Z.prime p -> Z.prime q -> p <> q -> 0 <= k ->
  c ^ (1 + k * ((p - 1) * (q - 1))) mod (p * q) = c mod (p * q).
Proof.
  intros Hp Hq Hne Hk.
  pose proof (Z.prime_ge_2 p Hp) as Hp2. pose proof (Z.prime_ge_2 q Hq) as Hq2.
  set (x := c ^ (1 + k * ((p - 1) * (q - 1)))).
  assert (Hxp : (p | x - c)).
  { apply cong_divide; [lia | ]. unfold x.
    replace (k * ((p - 1) * (q - 1))) with (k * (q - 1) * (p - 1)) by lia.
    apply pow_cycle; [exact Hp | nia]. }
  assert (Hxq : (q | x - c)).
  { apply cong_divide; [lia | ]. unfold x.
    replace (k * ((p - 1) * (q - 1))) with (k * (p - 1) * (q - 1)) by lia.
    apply pow_cycle; [exact Hq | nia]. }
  destruct Hxp as [u Hu].
  assert (Hqu : (q | u)).
  { apply Z.gauss with p.
    - rewrite Z.mul_comm, <- Hu. exact Hxq.
    - rewrite Z.gcd_comm. now apply distinct_primes_coprime. }
  destruct Hqu as [v Hv].
  replace x with (c + v * (p * q)) by (subst u; lia).
  apply Z.mod_add. nia.
Qed.

Lemma modPow_round_trip (p q e d c : Z) :
  Z.prime p -> Z.prime q -> p <> q ->
  1 <= e -> 1 <= d -> (e * d) mod ((p - 1) * (q - 1)) = 1 ->
  0 <= c < p * q ->
  exists u, RSA.modPow c e (p * q) = Ok u /\ 0 <= u < p * q /\
            RSA.modPow u d (p * q) = Ok c.
Proof.
  intros Hp Hq Hne He Hd Hed Hc.
  pose proof (Z.prime_ge_2 p Hp) as Hp2. pose proof (Z.prime_ge_2 q Hq) as Hq2.
  assert (Hn : 0 < p * q) by nia.
  assert (Hphi : 0 < (p - 1) * (q - 1)) by nia.
  exists (c ^ e mod (p * q)).
  pose proof (Z.mod_pos_bound (c ^ e) (p * q) Hn) as Hu.
  rewrite !modPow_spec by lia.
  destruct (Z.leb_spec e 0) as [L | _]; [lia | ].
  destruct (Z.leb_spec d 0) as [L | _]; [lia | ].
  repeat split; try lia.
  f_equal. rewrite Z.mod_pow_l, <- Z.pow_mul_r by lia.
  pose proof (Z.div_mod (e * d) ((p - 1) * (q - 1)) ltac:(lia)) as Hdm.
  rewrite Hed in Hdm.
  assert (Hk : 0 <= (e * d) / ((p - 1) * (q - 1))) by (apply Z.div_pos; nia).
  set (k := (e * d) / ((p - 1) * (q - 1))) in *.
  replace (e * d) with (1 + k * ((p - 1) * (q - 1))) by lia.
  rewrite rsa_identity by assumption.
  apply Z.mod_small. lia.
Qed.

(** ** Text: decimal numerals *)

Lemma digits_small (n : Z) : n < 10 -> digits n = [48 + n].
Proof.
  intros Hn. rewrite digits_equation_1.
  destruct (Z_lt_dec n 10) as [L | L]; [reflexivity | lia].
Qed.

Lemma digits_step (n : Z) :
  10 <= n -> digits n = digits (n / 10) ++ [48 + n mod 10].
Proof.
  intros Hn. rewrite digits_equation_1.
  destruct (Z_lt_dec n 10) as [L | L]; [lia | reflexivity].
Qed.

Lemma digit_value_digit (c : Z) : 48 <= c <= 57 -> digit_value c = Some (c - 48).
Proof. intros Hc. unfold digit_value. split_tests; try reflexivity. Qed.

Lemma parse_digits_app (radix : Z) (s1 s2 : jsstring) :
  forall acc,
  parse_digits radix acc (s1 ++ s2) =
  match parse_digits radix acc s1 with
  | Some a => parse_digits radix a s2
  | None => None
  end.
Proof.
  induction s1 as [ | c r IH]; intros acc; cbn; [reflexivity | ].
  destruct (digit_value c) as [v | ]; [ | reflexivity].
  destruct (v <? radix); [apply IH | reflexivity].
Qed.

(** The numeral of a non-negative [n]: digits only, one at least, and read
    back as [n]. *)
Lemma digits_spec (n : Z) :
  0 <= n ->
  Forall (fun c => 48 <= c <= 57) (digits n) /\
  digits n <> [] /\
  parse_digits 10 0 (digits n) = Some n.
Proof.
  intros Hn0. pattern n. apply Zlt_0_ind; [ | exact Hn0].
  clear n Hn0. intros n IH Hn.
  destruct (Z_lt_dec n 10) as [L | L].
  - rewrite digits_small by exact L. repeat split.
    + constructor; [lia | constructor].
    + discriminate.
    + cbn [parse_digits]. rewrite digit_value_digit by lia.
      destruct (Z.ltb_spec (48 + n - 48) 10); [f_equal; lia | lia].
  - rewrite digits_step by lia.
    pose proof (Z.mod_pos_bound n 10 ltac:(lia)) as Hm.
    pose proof (Z.div_mod n 10 ltac:(lia)) as Hdm.
    destruct (IH (n / 10)) as (Hall & Hne & Hparse).
    { split; [apply Z.div_pos; lia | apply Z.div_lt; lia]. }
    repeat split.
    + apply Forall_app. split; [exact Hall | ]. constructor; [lia | constructor].
    + intros E. apply app_eq_nil in E. destruct E as [_ E]. discriminate.
    + rewrite parse_digits_app, Hparse. cbn [parse_digits].
      rewrite digit_value_digit by lia.
      destruct (Z.ltb_spec (48 + n mod 10 - 48) 10); [f_equal; lia | lia].
Qed.

Lemma printable_not_whitespace (c : Z) : 33 <= c <= 126 -> is_whitespace c = false.
Proof.
  intros Hc. unfold is_whitespace. cbn [existsb]. split_tests; try reflexivity.
Qed.

Lemma trim_start_no_whitespace (s : jsstring) :
  Forall (fun c => is_whitespace c = false) s -> trim_start s = s.
Proof.
  intros H. destruct H as [ | c r Hc _]; cbn [trim_start]; [ | rewrite Hc]; reflexivity.
Qed.

Lemma trim_no_whitespace (s : jsstring) :
  Forall (fun c => is_whitespace c = false) s -> trim s = s.
Proof.
  intros H. unfold trim. rewrite (trim_start_no_whitespace s H).
  rewrite trim_start_no_whitespace by (apply Forall_rev; exact H).
  apply rev_involutive.
Qed.

Lemma StringToBigInt_digits (s : jsstring) :
  Forall (fun c => 48 <= c <= 57) s -> s <> [] ->
  StringToBigInt s = parse_digits 10 0 s.
Proof.
  intros Hs Hne. unfold StringToBigInt.
  rewrite trim_no_whitespace.
  2:{ eapply Forall_impl; [ | exact Hs]. intros c Hc. cbv beta in Hc.
      apply printable_not_whitespace. lia. }
  destruct Hs as [ | c r Hc Hr]; [contradiction | ].
  destruct (Z.eqb_spec c 45); [lia | ]. destruct (Z.eqb_spec c 43); [lia | ].
  destruct (Z.eqb_spec c 48) as [-> | _]; [ | reflexivity].
  destruct Hr as [ | x ds Hx _]; [reflexivity | ].
  split_tests; try reflexivity.
Qed.

(** [BigInt(`${z}`)] is [z]. *)
Lemma BigInt_of_toString (z : Z) : BigInt_of_string (BigInt_toString z) = Ok z.
Proof.
  unfold BigInt_of_string, BigInt_toString.
  destruct (Z.ltb_spec z 0) as [L | L].
  - destruct (digits_spec (- z) ltac:(lia)) as (Hall & Hne & Hparse).
    unfold StringToBigInt. rewrite trim_no_whitespace.
    2:{ constructor; [reflexivity | ].
        eapply Forall_impl; [ | exact Hall]. intros c Hc. cbv beta in Hc.
        apply printable_not_whitespace. lia. }
    cbn [Z.eqb Pos.eqb]. unfold parse_number.
    destruct (digits (- z)) as [ | c r] eqn:E; [contradiction | ].
    rewrite Hparse. cbn [option_map]. f_equal. lia.
  - destruct (digits_spec z L) as (Hall & Hne & Hparse).
    rewrite StringToBigInt_digits, Hparse by assumption. reflexivity.
Qed.

Lemma BigInt_toString_text (z : Z) :
  Forall (fun c => 45 <= c <= 57) (BigInt_toString z) /\ BigInt_toString z <> [].
Proof.
  unfold BigInt_toString. destruct (Z.ltb_spec z 0) as [L | L].
  - destruct (digits_spec (- z) ltac:(lia)) as (Hall & _).
    split; [ | discriminate]. constructor; [lia | ].
    eapply Forall_impl; [ | exact Hall]. cbn. intros; lia.
  - destruct (digits_spec z L) as (Hall & Hne & _).
    split; [ | exact Hne].
    eapply Forall_impl; [ | exact Hall]. cbn. intros; lia.
Qed.

(** ** Text: splitting at commas *)

Lemma split_no_sep (sep : Z) (s : jsstring) :
  ~ In sep s -> split sep s = (s, []).
Proof.
  induction s as [ | c r IH]; intros Hn; cbn [split]; [reflexivity | ].
  rewrite IH by (intros H; apply Hn; now right).
  destruct (Z.eqb_spec c sep) as [-> | _]; [ | reflexivity].
  exfalso. apply Hn. now left.
Qed.

Lemma split_app (sep : Z) (f r : jsstring) :
  ~ In sep f ->
  split sep (f ++ sep :: r) = (f, fst (split sep r) :: snd (split sep r)).
Proof.
  induction f as [ | c f' IH]; intros Hn.
  - cbn [app split]. destruct (split sep r) as [f0 fs]. now rewrite Z.eqb_refl.
  - cbn [app split]. rewrite IH by (intros H; apply Hn; now right).
    destruct (Z.eqb_spec c sep) as [-> | _]; [ | reflexivity].
    exfalso. apply Hn. now left.
Qed.

Lemma BigInt_toString_no_comma (z : Z) : ~ In comma (BigInt_toString z).
Proof.
  destruct (BigInt_toString_text z) as [Hall _]. rewrite Forall_forall in Hall.
  intros H. apply Hall in H. unfold comma in H. lia.
Qed.

(** ** Text: UTF-8 and base64 of ASCII *)

Lemma list_ind3 {A} (P : list A -> Prop) :
  P [] -> (forall a, P [a]) -> (forall a b, P [a; b]) ->
  (forall a b c r, P r -> P (a :: b :: c :: r)) ->
  forall l, P l.
Proof.
  intros H0 H1 H2 H3 l.
  assert (H : P l /\ (forall a, P (a :: l)) /\ (forall a b, P (a :: b :: l))).
  { induction l as [ | c r (IH0 & IH1 & IH2)]; [auto | ].
    repeat split; auto. }
  apply H.
Qed.

Lemma Buffer_from_ascii (s : jsstring) :
  Forall (fun c => 0 <= c < 128) s -> Buffer_from s = s.
Proof.
  induction 1 as [ | c r Hc _ IH]; cbn [Buffer_from]; [reflexivity | ].
  unfold is_high_surrogate, is_low_surrogate, utf8_of_code_point.
  split_tests; cbn [app]; now rewrite IH.
Qed.

Lemma Buffer_toString_ascii (bytes : list Z) :
  Forall (fun b => 0 <= b < 128) bytes -> Buffer_toString bytes = bytes.
Proof.
  unfold Buffer_toString.
  induction 1 as [ | b r Hb _ IH]; [reflexivity | ].
  cbn [utf8_decode]. unfold utf8_step, utf8_initial at 1. cbn [needed Z.eqb].
  unfold utf8_lead. destruct (Z.leb_spec b 127); [ | lia].
  cbn [app flat_map]. rewrite IH.
  unfold utf16_of_code_point. destruct (Z.ltb_spec b 65536); [reflexivity | lia].
Qed.

Lemma base64_char_value (v : Z) :
  0 <= v < 64 ->
  base64_char v <> 61 /\
  base64_value (base64_char v) = Some v /\
  node_base64_value (base64_char v) = Some v /\
  is_ascii_whitespace (base64_char v) = false.
Proof.
  intros Hv. unfold base64_char.
  destruct (Z.ltb_spec v 26);
    [ | destruct (Z.ltb_spec v 52);
        [ | destruct (Z.ltb_spec v 62); [ | destruct (Z.eqb_spec v 62)]]];
    (split; [lia | ]);
    unfold node_base64_value, base64_value, is_ascii_whitespace; cbn [existsb];
    split_tests; repeat split; try (f_equal; lia).
Qed.

Lemma base64_char_byte (v : Z) :
  0 <= v < 64 -> base64_char v mod 256 = base64_char v.
Proof.
  intros Hv. apply Z.mod_small. unfold base64_char.
  destruct (Z.ltb_spec v 26);
    [ | destruct (Z.ltb_spec v 52);
        [ | destruct (Z.ltb_spec v 62); [ | destruct (Z.eqb_spec v 62)]]]; lia.
Qed.

Lemma sextets_of_24_bits (n : Z) :
  0 <= n < 16777216 ->
  (0 <= n / 262144 < 64 /\ 0 <= (n / 4096) mod 64 < 64 /\
   0 <= (n / 64) mod 64 < 64 /\ 0 <= n mod 64 < 64) /\
  ((n / 262144 * 64 + (n / 4096) mod 64) * 64 + (n / 64) mod 64) * 64 + n mod 64 = n.
Proof. intros Hn. repeat split; Z.div_mod_to_equations; lia. Qed.

Lemma sextets_of_18_bits (n : Z) :
  0 <= n < 262144 ->
  (0 <= n / 4096 < 64 /\ 0 <= (n / 64) mod 64 < 64 /\ 0 <= n mod 64 < 64) /\
  (n / 4096 * 64 + (n / 64) mod 64) * 64 + n mod 64 = n.
Proof. intros Hn. repeat split; Z.div_mod_to_equations; lia. Qed.

Lemma sextets_of_12_bits (n : Z) :
  0 <= n < 4096 ->
  (0 <= n / 64 < 64 /\ 0 <= n mod 64 < 64) /\ n / 64 * 64 + n mod 64 = n.
Proof. intros Hn. repeat split; Z.div_mod_to_equations; lia. Qed.

Lemma bytes_of_24_bits (b1 b2 b3 : Z) :
  0 <= b1 < 256 -> 0 <= b2 < 256 -> 0 <= b3 < 256 ->
  let n := (b1 * 256 + b2) * 256 + b3 in
  0 <= n < 16777216 /\ n / 65536 = b1 /\ (n / 256) mod 256 = b2 /\ n mod 256 = b3.
Proof. intros H1 H2 H3 n. subst n. repeat split; Z.div_mod_to_equations; lia. Qed.

Lemma bytes_of_18_bits (b1 b2 : Z) :
  0 <= b1 < 256 -> 0 <= b2 < 256 ->
  let n := (b1 * 256 + b2) * 4 in
  0 <= n < 262144 /\ n / 1024 = b1 /\ (n / 4) mod 256 = b2.
Proof. intros H1 H2 n. subst n. repeat split; Z.div_mod_to_equations; lia. Qed.

Lemma bytes_of_12_bits (b1 : Z) :
  0 <= b1 < 256 ->
  let n := b1 * 16 in 0 <= n < 4096 /\ n / 16 = b1.
Proof. intros H1 n. subst n. repeat split; Z.div_mod_to_equations; lia. Qed.

(** The encoding is the characters of the six-bit groups, then the padding. *)
Lemma base64_shape (bytes : list Z) :
  Buffer_toString_base64 bytes =
  List.map base64_char (sextets_of_bytes bytes) ++ padding_of bytes.
Proof.
  induction bytes as [ | b1 | b1 b2 | b1 b2 b3 r IH] using list_ind3;
    try reflexivity.
  cbn [Buffer_toString_base64 sextets_of_bytes padding_of]. rewrite IH.
  rewrite map_app, <- app_assoc. reflexivity.
Qed.

(** The groups are six bits wide, they give the bytes back, and with the
    padding their number is a multiple of four. *)
Lemma sextets_of_bytes_spec (bytes : list Z) :
  Forall (fun b => 0 <= b < 256) bytes ->
  Forall (fun v => 0 <= v < 64) (sextets_of_bytes bytes) /\
  bytes_of_sextets (sextets_of_bytes bytes) = bytes /\
  ((padding_of bytes = [] /\ Z.of_nat (List.length (sextets_of_bytes bytes)) mod 4 = 0) \/
   (padding_of bytes = [61] /\ Z.of_nat (List.length (sextets_of_bytes bytes)) mod 4 = 3) \/
   (padding_of bytes = [61; 61] /\ Z.of_nat (List.length (sextets_of_bytes bytes)) mod 4 = 2)).
Proof.
  induction bytes as [ | b1 | b1 b2 | b1 b2 b3 r IH] using list_ind3; intros Hall.
  - repeat split; [constructor | now left].
  - inversion_clear Hall as [ | ? ? H1 _].
    cbn [sextets_of_bytes padding_of].
    destruct (bytes_of_12_bits b1 H1) as (Hn & E1).
    set (n := b1 * 16) in *. clearbody n.
    destruct (sextets_of_12_bits n Hn) as ((S1 & S2) & E).
    repeat split.
    + repeat constructor; lia.
    + cbn [bytes_of_sextets]. rewrite E, E1. reflexivity.
    + right. right. split; reflexivity.
  - inversion_clear Hall as [ | ? ? H1 Hall']. inversion_clear Hall' as [ | ? ? H2 _].
    cbn [sextets_of_bytes padding_of].
    destruct (bytes_of_18_bits b1 b2 H1 H2) as (Hn & E1 & E2).
    set (n := (b1 * 256 + b2) * 4) in *. clearbody n.
    destruct (sextets_of_18_bits n Hn) as ((S1 & S2 & S3) & E).
    repeat split.
    + repeat constructor; lia.
    + cbn [bytes_of_sextets]. rewrite E, E1, E2. reflexivity.
    + right. left. split; reflexivity.
  - inversion_clear Hall as [ | ? ? H1 Hall']. inversion_clear Hall' as [ | ? ? H2 Hall].
    inversion_clear Hall as [ | ? ? H3 Hr].
    destruct (IH Hr) as (IHrange & IHbytes & IHpad).
    cbn [sextets_of_bytes padding_of app].
    destruct (bytes_of_24_bits b1 b2 b3 H1 H2 H3) as (Hn & E1 & E2 & E3).
    set (n := (b1 * 256 + b2) * 256 + b3) in *. clearbody n.
    destruct (sextets_of_24_bits n Hn) as ((S1 & S2 & S3 & S4) & E).
    repeat split.
    + repeat (constructor; [lia | ]). exact IHrange.
    + cbn [bytes_of_sextets app]. rewrite E, E1, E2, E3, IHbytes. reflexivity.
    + cbn [List.length]. rewrite !Nat2Z.inj_succ.
      replace (Z.succ (Z.succ (Z.succ (Z.succ (Z.of_nat (List.length (sextets_of_bytes r)))))))
        with (Z.of_nat (List.length (sextets_of_bytes r)) + 1 * 4) by lia.
      rewrite Z.mod_add by lia. exact IHpad.
Qed.

Lemma node_sextets_chars (vs : list Z) (pad : jsstring) :
  Forall (fun v => 0 <= v < 64) vs ->
  pad = [] \/ (exists r, pad = 61 :: r) ->
  node_sextets (List.map base64_char vs ++ pad) = vs.
Proof.
  intros Hvs Hpad. induction Hvs as [ | v vs' Hv _ IH].
  - destruct Hpad as [-> | [r ->]]; reflexivity.
  - destruct (base64_char_value v Hv) as (Hne & _ & Hval & _).
    cbn [List.map app node_sextets]. cbv zeta.
    rewrite (base64_char_byte v Hv), Hval, IH.
    destruct (Z.eqb_spec (base64_char v) 61); [contradiction | reflexivity].
Qed.

(** Decoding what was encoded gives the bytes back. *)
Lemma base64_round_trip (bytes : list Z) :
  Forall (fun b => 0 <= b < 256) bytes ->
  Buffer_from_base64 (Buffer_toString_base64 bytes) = bytes.
Proof.
  intros Hall. unfold Buffer_from_base64.
  destruct (sextets_of_bytes_spec bytes Hall) as (Hrange & Hbytes & Hpad).
  rewrite base64_shape, node_sextets_chars; [exact Hbytes | exact Hrange | ].
  destruct Hpad as [[-> _] | [[-> _] | [-> _]]]; [now left | right; eauto | right; eauto].
Qed.

(** A key token reads back as the pair it was made of. *)
Lemma keyFields_keyToken (x n : Z) :
  RSA.keyFields (RSA.keyToken x n) = Ok (x, Some n).
Proof.
  unfold RSA.keyFields, RSA.keyToken.
  set (text := BigInt_toString x ++ lit "," ++ BigInt_toString n).
  assert (Hascii : Forall (fun c => 0 <= c < 128) text).
  { unfold text. destruct (BigInt_toString_text x) as [Hx _].
    destruct (BigInt_toString_text n) as [Hn _].
    apply Forall_app; split; [ | apply Forall_app; split].
    - eapply Forall_impl; [ | exact Hx]. cbn. intros; lia.
    - constructor; [cbn; lia | constructor].
    - eapply Forall_impl; [ | exact Hn]. cbn. intros; lia. }
  rewrite (Buffer_from_ascii text Hascii).
  rewrite base64_round_trip
    by (eapply Forall_impl; [ | exact Hascii]; cbn; intros; lia).
  rewrite (Buffer_toString_ascii text Hascii).
  unfold text. change (lit "," ++ BigInt_toString n) with (comma :: BigInt_toString n).
  rewrite split_app by apply BigInt_toString_no_comma.
  rewrite split_no_sep by apply BigInt_toString_no_comma.
  cbn [fst snd map_throwing bind].
  rewrite !BigInt_of_toString. reflexivity.
Qed.

(** ** The ciphertext token and its units *)

Lemma unit_text_nonempty (units : list Z) :
  units <> [] -> flat_map unit_text units <> [].
Proof.
  destruct units as [ | u us]; [contradiction | ]. intros _.
  cbn [flat_map]. unfold unit_text.
  destruct (BigInt_toString_text u) as [_ Hne].
  destruct (BigInt_toString u); [contradiction | discriminate].
Qed.

Lemma ciphertext_single (u : Z) : ciphertext_of [u] = BigInt_toString u.
Proof.
  unfold ciphertext_of, slice_0_minus1, unit_text. cbn [flat_map].
  rewrite app_nil_r. apply removelast_last.
Qed.

Lemma ciphertext_cons (u : Z) (us : list Z) :
  us <> [] ->
  ciphertext_of (u :: us) = BigInt_toString u ++ comma :: ciphertext_of us.
Proof.
  intros Hne. unfold ciphertext_of, slice_0_minus1. cbn [flat_map].
  rewrite removelast_app by (apply unit_text_nonempty; exact Hne).
  unfold unit_text at 1. rewrite <- app_assoc. reflexivity.
Qed.

(** Splitting the token at its commas gives the numerals of the units. *)
Lemma split_ciphertext (us : list Z) :
  forall u, split comma (ciphertext_of (u :: us)) =
            (BigInt_toString u, List.map BigInt_toString us).
Proof.
  induction us as [ | u' us' IH]; intros u.
  - rewrite ciphertext_single. apply split_no_sep, BigInt_toString_no_comma.
  - rewrite ciphertext_cons by discriminate.
    rewrite split_app by apply BigInt_toString_no_comma.
    rewrite IH. reflexivity.
Qed.

Lemma map_BigInt_of_toString (units : list Z) :
  map_throwing BigInt_of_string (List.map BigInt_toString units) = Ok units.
Proof.
  induction units as [ | u us IH]; [reflexivity | ].
  cbn [List.map map_throwing]. rewrite BigInt_of_toString, IH. reflexivity.
Qed.

(** ** Decryption of one unit *)

Lemma fromCharCode_code_unit (c : Z) :
  is_code_unit c -> String_fromCharCode (Number_of_BigInt c) = [c].
Proof.
  unfold is_code_unit. intros Hc.
  unfold String_fromCharCode, Number_of_BigInt.
  rewrite Z.abs_eq by lia.
  assert (Hround : round_to_double c = c).
  { unfold round_to_double.
    assert (Z.log2 c < 16).
    { destruct (Z.eq_dec c 0) as [-> | Hz]; [cbn; lia | ].
      apply Z.log2_lt_pow2; lia. }
    destruct (Z.leb_spec (Z.log2 c - 52) 0); [reflexivity | lia]. }
  rewrite Hround.
  assert (Hbig : 65536 <= 2 ^ 1024).
  { change 65536 with (2 ^ 16). apply Z.pow_le_mono_r; lia. }
  destruct (Z.leb_spec (2 ^ 1024) c) as [L | L]; [lia | ].
  cbn [ToUint16]. f_equal.
  replace (Z.sgn c * c) with c by (destruct (Z.eq_dec c 0); [subst; reflexivity | rewrite Z.sgn_pos; lia]).
  apply Z.mod_small. lia.
Qed.

Lemma decrypt_loop_spec (d n : Z) (message : jsstring) (units : list Z) :
  Forall2 (fun c u => RSA.modPow u d n = Ok c /\ is_code_unit c) message units ->
  forall decrypted,
  RSA.decrypt_loop d (Some n) units decrypted = Ok (decrypted ++ message).
Proof.
  induction 1 as [ | c u message' units' [Hu Hc] _ IH]; intros decrypted.
  - cbn. now rewrite app_nil_r.
  - cbn [RSA.decrypt_loop RSA.modPow_with]. rewrite Hu. cbn [bind].
    rewrite fromCharCode_code_unit by exact Hc.
    rewrite IH, <- app_assoc. reflexivity.
Qed.

(** ** The keys generateKeys returns *)

Lemma round_to_double_nonneg (x : Z) : 0 <= x -> 0 <= round_to_double x.
Proof.
  intros Hx. unfold round_to_double.
  destruct (Z.leb_spec (Z.log2 x - 52) 0); [exact Hx | ].
  apply Z.shiftl_nonneg.
  pose proof (proj2 (Z.shiftr_nonneg x (Z.log2 x - 52)) Hx).
  destruct (_ || _); lia.
Qed.

Lemma Number_of_BigInt_nonneg (x v : Z) :
  0 <= x -> Number_of_BigInt x = Finite v -> 0 <= v.
Proof.
  intros Hx. unfold Number_of_BigInt.
  destruct (_ <=? _); [destruct (x <? 0); discriminate | ].
  intros H. injection H as <-.
  pose proof (round_to_double_nonneg (Z.abs x) (Z.abs_nonneg x)).
  pose proof (Z.sgn_nonneg x). nia.
Qed.

Lemma exponent_loop_result (random : nat -> Q) (phi : Z) :
  (forall i, (0 <= random i)%Q /\ (random i < 1)%Q) -> 0 <= phi ->
  forall fuel e st e' st',
  0 <= e ->
  RSA.exponent_loop random fuel phi e st = Ok (e', st') ->
  RSA.gcd e' phi = 1 /\ 0 <= e'.
Proof.
  intros Hrange Hphi. induction fuel as [ | fuel IH]; intros e st e' st' He H;
    cbn [RSA.exponent_loop] in H;
    destruct (Z.eqb_spec (RSA.gcd e phi) 1) as [Hg | Hg].
  - injection H as <- <-. auto.
  - discriminate.
  - injection H as <- <-. auto.
  - unfold RSA.bind_rand, RSA.Math_random, RSA.lift in H.
    destruct (Number_of_BigInt phi) as [v | | ] eqn:Hv; try discriminate.
    cbn [BigInt_floor_times] in H.
    apply IH in H; [exact H | ].
    change 0 with (Qfloor 0). apply Qfloor_resp_le.
    apply Qmult_le_0_compat; [apply Hrange | ].
    change 0%Q with (inject_Z 0). rewrite <- Zle_Qle.
    exact (Number_of_BigInt_nonneg phi v Hphi Hv).
Qed.

(** ** C2: modInverse *)

(** [modInverse] is private and called once, by [generateKeys], on the
    exponent the search returned: for [phi > 1] that exponent is 1 at
    least, 65537 or a draw in [[0, phi)] that is coprime with [phi]. *)
Lemma exponent_loop_domain (random : nat -> Q) (fuel : nat) (phi e : Z) (st st' : nat) :
  (forall i, (0 <= random i)%Q /\ (random i < 1)%Q) -> 1 < phi ->
  RSA.exponent_loop random fuel phi RSA.PUBLIC_EXPONENT st = Ok (e, st') ->
  1 <= e /\ Z.gcd e phi = 1.
Proof.
  intros Hrange Hphi He.
  assert (Hpe : 0 <= RSA.PUBLIC_EXPONENT) by (unfold RSA.PUBLIC_EXPONENT; lia).
  destruct (exponent_loop_result random phi Hrange ltac:(lia) _ _ _ _ _ Hpe He)
    as [Hg He0].
  rewrite gcd_correct in Hg by lia.
  split; [ | exact Hg].
  destruct (Z.eq_dec e 0) as [-> | ]; [ | lia].
  rewrite Z.gcd_0_l in Hg. lia.
Qed.

(** C2: for all coprime [e] and [phi > 1], [e] an exponent as the program
    has them ([e >= 1]), [modInverse e phi] returns the one [d] of
    [0, phi - 1] with [(e * d) mod phi = 1]; so it does on every exponent
    the search of [generateKeys] hands to it; and [modInverse a 1] is 0 for
    every [a]. *)
Theorem modInverse_correct (e phi : Z) :
  (1 <= e -> 1 < phi -> Z.gcd e phi = 1 ->
   exists d, RSA.modInverse e phi = Ok d /\
             0 <= d <= phi - 1 /\
             (e * d) mod phi = 1 /\
             forall d', 0 <= d' <= phi - 1 -> (e * d') mod phi = 1 -> d' = d) /\
  (forall (random : nat -> Q) (fuel st st' : nat),
   (forall i, (0 <= random i)%Q /\ (random i < 1)%Q) -> 1 < phi ->
   RSA.exponent_loop random fuel phi RSA.PUBLIC_EXPONENT st = Ok (e, st') ->
   1 <= e /\ Z.gcd e phi = 1 /\
   exists d, RSA.modInverse e phi = Ok d /\
             0 <= d <= phi - 1 /\
             (e * d) mod phi = 1) /\
  RSA.modInverse e 1 = Ok 0.
Proof.
  split; [ | split; [ | reflexivity]].
  - intros He Hphi Hg.
    destruct (modInverse_spec e phi He Hphi Hg) as (d & Hd & Hr & Hinv).
    exists d. repeat split; try assumption; try lia.
    intros d' Hr' Hinv'.
    (* d' = d' * (e * d) = (d' * e) * d = d modulo phi *)
    assert (H1 : (d' * (e * d)) mod phi = d' mod phi).
    { rewrite <- Z.mul_mod_idemp_r, Hinv, Z.mul_1_r by lia. reflexivity. }
    assert (H2 : (d' * (e * d)) mod phi = d mod phi).
    { replace (d' * (e * d)) with ((e * d') * d) by lia.
      rewrite <- Z.mul_mod_idemp_l, Hinv', Z.mul_1_l by lia. reflexivity. }
    rewrite H1 in H2. rewrite !Z.mod_small in H2 by lia. exact H2.
  - intros random fuel st st' Hrange Hphi Hloop.
    destruct (exponent_loop_domain random fuel phi e st st' Hrange Hphi Hloop) as [He Hg].
    destruct (modInverse_spec e phi He Hphi Hg) as (d & Hd & Hr & Hinv).
    split; [exact He | ]. split; [exact Hg | ].
    exists d. repeat split; try assumption; lia.
Qed.

Lemma modInverse_correct_witness :
  (exists d, RSA.modInverse 65537 120 = Ok d /\
             0 <= d <= 120 - 1 /\
             (65537 * d) mod 120 = 1 /\
             forall d', 0 <= d' <= 120 - 1 -> (65537 * d') mod 120 = 1 -> d' = d) /\
  (1 <= 3 /\ Z.gcd 3 131074 = 1 /\
   exists d, RSA.modInverse 3 131074 = Ok d /\
             0 <= d <= 131074 - 1 /\
             (3 * d) mod 131074 = 1).
Proof.
  split.
  - apply (proj1 (modInverse_correct 65537 120)); [lia | lia | reflexivity].
  - apply (proj1 (proj2 (modInverse_correct 3 131074)) (always (3 # 131074)) 1%nat 0%nat 1%nat).
    + intros i. split; easy.
    + lia.
    + vm_compute. reflexivity.
Defined.

Lemma generateKeys_inv (random : nat -> Q) (fuel : nat) (bitLength : Q)
    (st st1 st2 st3 : nat) (p q : Z) (keys : RSA.KeyPair) :
  RSA.generatePrime random fuel (bitLength / 2) st = Ok (p, st1) ->
  RSA.generatePrime random fuel (bitLength / 2) st1 = Ok (q, st2) ->
  RSA.generateKeys random fuel bitLength st = Ok (keys, st3) ->
  exists e d,
    RSA.exponent_loop random fuel ((p - 1) * (q - 1)) RSA.PUBLIC_EXPONENT st2 = Ok (e, st3) /\
    RSA.modInverse e ((p - 1) * (q - 1)) = Ok d /\
    keys = {| RSA.publicKey := RSA.keyToken e (p * q);
              RSA.privateKey := RSA.keyToken d (p * q) |}.
Proof.
  intros Hp Hq H. unfold RSA.generateKeys, RSA.bind_rand in H.
  rewrite Hp, Hq in H.
  destruct (RSA.exponent_loop random fuel _ _ st2) as [[e st'] | ? | ] eqn:He;
    try discriminate.
  unfold RSA.lift in H.
  destruct (RSA.modInverse e _) as [d | ? | ] eqn:Hd; try discriminate.
  injection H as <- <-. exists e, d. auto.
Qed.

(** ** C1: the round trip *)

Lemma prime_11 : Z.prime 11.
Proof.
  split; [lia | ]. intros n Hn [k Hk].
  assert (H : n = 2 \/ n = 3 \/ n = 4 \/ n = 5 \/ n = 6 \/ n = 7 \/ n = 8 \/ n = 9 \/ n = 10)
    by lia.
  repeat (destruct H as [-> | H]; [lia | ]). lia.
Qed.

Lemma prime_13 : Z.prime 13.
Proof.
  split; [lia | ]. intros n Hn [k Hk].
  assert (H : n = 2 \/ n = 3 \/ n = 4 \/ n = 5 \/ n = 6 \/ n = 7 \/ n = 8 \/ n = 9 \/
              n = 10 \/ n = 11 \/ n = 12) by lia.
  repeat (destruct H as [-> | H]; [lia | ]). lia.
Qed.

Lemma mostly_high_range (low : list nat) (i : nat) :
  (0 <= mostly_high low i)%Q /\ (mostly_high low i < 1)%Q.
Proof. unfold mostly_high. destruct (existsb _ low); split; easy. Qed.

(** C1, as stated, fails in three ways. The primality test accepts the
    composite 9 when every witness drawn is 8 (that is, -1 modulo 9), so
    [generateKeys] can return the modulus 99 = 9 * 11, under which "A"
    decrypts to "b". Nothing keeps the two primes apart: with 13 drawn
    twice the modulus is 169 and "A" decrypts to the unit 0. And the empty
    plaintext does not come back either: under the key made of the primes
    11 and 13 it decrypts to the unit 0. *)
Lemma round_trip_counterexample :
  (RSA.generatePrime (mostly_high [0; 1; 13]%nat) 1 (8 / 2) 0%nat = Ok (9, 13%nat) /\
   RSA.generatePrime (mostly_high [0; 1; 13]%nat) 1 (8 / 2) 13%nat = Ok (11, 26%nat) /\
   9 = 3 * 3 /\
   exists keys st,
     RSA.generateKeys (mostly_high [0; 1; 13]%nat) 1 8 0%nat = Ok (keys, st) /\
     RSA.keyFields (RSA.publicKey keys) = Ok (65537, Some 99) /\
     Forall (fun c => c < 99) (lit "A") /\
     (c <- RSA.encryptWorker (lit "A") (RSA.publicKey keys) ;;
      RSA.decryptWorker c (RSA.privateKey keys)) = Ok (lit "b")) /\
  (RSA.generatePrime (mostly_high [1; 14]%nat) 1 (8 / 2) 0%nat = Ok (13, 13%nat) /\
   RSA.generatePrime (mostly_high [1; 14]%nat) 1 (8 / 2) 13%nat = Ok (13, 26%nat) /\
   exists keys st,
     RSA.generateKeys (mostly_high [1; 14]%nat) 1 8 0%nat = Ok (keys, st) /\
     RSA.keyFields (RSA.publicKey keys) = Ok (65537, Some 169) /\
     Forall (fun c => c < 169) (lit "A") /\
     (c <- RSA.encryptWorker (lit "A") (RSA.publicKey keys) ;;
      RSA.decryptWorker c (RSA.privateKey keys)) = Ok [0]) /\
  (exists keys st,
     RSA.generateKeys (mostly_high [0; 14]%nat) 1 8 0%nat = Ok (keys, st) /\
     RSA.keyFields (RSA.publicKey keys) = Ok (65537, Some 143) /\
     (c <- RSA.encryptWorker [] (RSA.publicKey keys) ;;
      RSA.decryptWorker c (RSA.privateKey keys)) = Ok [0]).
Proof.
  split; [ | split].
  - split; [vm_compute; reflexivity | ]. split; [vm_compute; reflexivity | ].
    split; [reflexivity | ].
    eexists. eexists. split; [vm_compute; reflexivity | ].
    split; [vm_compute; reflexivity | ].
    split; [repeat constructor | vm_compute; reflexivity].
  - split; [vm_compute; reflexivity | ]. split; [vm_compute; reflexivity | ].
    eexists. eexists. split; [vm_compute; reflexivity | ].
    split; [vm_compute; reflexivity | ].
    split; [repeat constructor | vm_compute; reflexivity].
  - eexists. eexists. split; [vm_compute; reflexivity | ].
    split; vm_compute; reflexivity.
Qed.

Lemma round_trip_units (p q e d : Z) (message : jsstring) (units : list Z) :
  Z.prime p -> Z.prime q -> p <> q ->
  1 <= e -> 1 <= d -> (e * d) mod ((p - 1) * (q - 1)) = 1 ->
  is_jsstring message -> Forall (fun c => c < p * q) message ->
  Forall2 (fun c u => RSA.modPow c e (p * q) = Ok u /\ 0 <= u < p * q) message units ->
  Forall2 (fun c u => RSA.modPow u d (p * q) = Ok c /\ is_code_unit c) message units.
Proof.
  intros Hp Hq Hne He Hd Hed Hmsg Hlt H.
  induction H as [ | c u message' units' [Hu _] _ IH]; [constructor | ].
  inversion_clear Hmsg as [ | ? ? Hc Hmsg']. inversion_clear Hlt as [ | ? ? Hcn Hlt'].
  constructor; [ | now apply IH].
  split; [ | exact Hc].
  destruct (modPow_round_trip p q e d c Hp Hq Hne He Hd Hed) as (u' & Hu' & _ & Hback).
  { unfold is_code_unit in Hc. lia. }
  rewrite Hu in Hu'. injection Hu' as ->. exact Hback.
Qed.

(** C1, amended: for every key pair [generateKeys] returns from two primes
    that are prime indeed and differ, and every non-empty string whose code
    units are all below the modulus [n = p * q], decrypting the encryption
    gives the string back. *)
Theorem round_trip (random : nat -> Q) (fuel : nat) (bitLength : Q)
    (st st1 st2 st3 : nat) (p q : Z) (keys : RSA.KeyPair) (m : jsstring) :
  (forall i, (0 <= random i)%Q /\ (random i < 1)%Q) ->
  RSA.generatePrime random fuel (bitLength / 2) st = Ok (p, st1) ->
  RSA.generatePrime random fuel (bitLength / 2) st1 = Ok (q, st2) ->
  RSA.generateKeys random fuel bitLength st = Ok (keys, st3) ->
  Z.prime p -> Z.prime q -> p <> q ->
  m <> [] -> is_jsstring m -> Forall (fun c => c < p * q) m ->
  (exists e d, RSA.keyFields (RSA.publicKey keys) = Ok (e, Some (p * q)) /\
               RSA.keyFields (RSA.privateKey keys) = Ok (d, Some (p * q))) /\
  (c <- RSA.encryptWorker m (RSA.publicKey keys) ;;
   RSA.decryptWorker c (RSA.privateKey keys)) = Ok m.
Proof.
  intros Hrange Hgp Hgq Hkeys Hp Hq Hne Hm Hmsg Hlt.
  pose proof (Z.prime_ge_2 p Hp) as Hp2. pose proof (Z.prime_ge_2 q Hq) as Hq2.
  destruct (generateKeys_inv _ _ _ _ _ _ _ _ _ _ Hgp Hgq Hkeys) as (e & d & He & Hd & ->).
  set (phi := (p - 1) * (q - 1)) in *.
  assert (Hphi : 2 <= phi) by (unfold phi; nia).
  assert (Hn : 1 < p * q) by nia.
  assert (Hpe : 0 <= RSA.PUBLIC_EXPONENT) by (unfold RSA.PUBLIC_EXPONENT; lia).
  destruct (exponent_loop_result random phi Hrange ltac:(lia) _ _ _ _ _ Hpe He)
    as [Hg He0].
  rewrite gcd_correct in Hg by lia.
  assert (He1 : 1 <= e).
  { destruct (Z.eq_dec e 0) as [-> | ]; [ | lia].
    rewrite Z.gcd_0_l in Hg. lia. }
  destruct (modInverse_spec e phi He1 ltac:(lia) Hg) as (d' & Hd' & Hdr & Hed).
  rewrite Hd in Hd'. injection Hd' as <-.
  assert (Hd1 : 1 <= d).
  { destruct (Z.eq_dec d 0) as [-> | ]; [ | lia].
    rewrite Z.mul_0_r, Z.mod_0_l in Hed; lia. }
  cbn [RSA.publicKey RSA.privateKey].
  split; [exists e, d; split; apply keyFields_keyToken | ].
  destruct (encrypt_loop_spec e (p * q) m Hn Hmsg []) as (units & Hloop & Hunits).
  unfold RSA.encryptWorker. rewrite keyFields_keyToken. cbn [bind fst snd].
  rewrite Hloop. cbn [bind app]. fold (ciphertext_of units).
  pose proof (round_trip_units p q e d m units Hp Hq Hne He1 Hd1 Hed Hmsg Hlt Hunits)
    as Hback.
  unfold RSA.decryptWorker. rewrite keyFields_keyToken. cbn [bind fst snd].
  destruct units as [ | u us].
  - inversion Hunits. subst m. contradiction.
  - rewrite split_ciphertext.
    change (BigInt_toString u :: List.map BigInt_toString us)
      with (List.map BigInt_toString (u :: us)).
    rewrite map_BigInt_of_toString. cbn [bind].
    apply (decrypt_loop_spec d (p * q) m (u :: us) Hback []).
Qed.

Lemma round_trip_witness :
  (exists e d,
     RSA.keyFields (lit "NjU1MzcsMTQz") = Ok (e, Some (11 * 13)) /\
     RSA.keyFields (lit "MTEzLDE0Mw==") = Ok (d, Some (11 * 13))) /\
  (c <- RSA.encryptWorker (lit "Hi!") (lit "NjU1MzcsMTQz") ;;
   RSA.decryptWorker c (lit "MTEzLDE0Mw==")) = Ok (lit "Hi!").
Proof.
  apply (round_trip (mostly_high [0; 14]%nat) 1 8 0%nat 13%nat 26%nat 26%nat 11 13
           {| RSA.publicKey := lit "NjU1MzcsMTQz"; RSA.privateKey := lit "MTEzLDE0Mw==" |}
           (lit "Hi!")).
  - apply mostly_high_range.
  - vm_compute. reflexivity.
  - vm_compute. reflexivity.
  - vm_compute. reflexivity.
  - exact prime_11.
  - exact prime_13.
  - lia.
  - discriminate.
  - repeat constructor; vm_compute; congruence.
  - repeat constructor.
Defined.

(** ** The candidates of the prime generator: their size *)




Lemma parse_binary (tail : jsstring) :
  Forall (fun c => c = 48 \/ c = 49) tail ->
  forall acc,
  exists v, parse_digits 2 acc tail = Some (acc * 2 ^ Z.of_nat (List.length tail) + v) /\
            0 <= v < 2 ^ Z.of_nat (List.length tail).
Proof.
  induction 1 as [ | c r Hc _ IH]; intros acc.
  - exists 0. cbn. split; [f_equal; lia | lia].
  - cbn [parse_digits List.length]. rewrite Nat2Z.inj_succ, Z.pow_succ_r by lia.
    assert (Hv : digit_value c = Some (c - 48)) by (apply digit_value_digit; lia).
    rewrite Hv. destruct (Z.ltb_spec (c - 48) 2) as [_ | L]; [ | lia].
    destruct (IH (acc * 2 + (c - 48))) as (v & Hparse & Hrange).
    exists ((c - 48) * 2 ^ Z.of_nat (List.length r) + v).
    split; [rewrite Hparse; f_equal; lia | nia].
Qed.



(** ** Further properties of the arithmetic and of the keys *)

(** On non-negative arguments [gcd] is the greatest common divisor, and
    [gcd a 0] is [a]. *)
Theorem gcd_euclid (a b : Z) :
  0 <= a -> 0 <= b -> RSA.gcd a b = Z.gcd a b /\ RSA.gcd a 0 = a.
Proof. intros Ha Hb. split; [now apply gcd_correct | apply gcd_zero]. Qed.

Lemma gcd_euclid_witness : RSA.gcd 65537 120 = Z.gcd 65537 120 /\ RSA.gcd 65537 0 = 65537.
Proof. apply (gcd_euclid 65537 120); lia. Defined.

(** On a non-negative base, a positive exponent and a positive modulus,
    [modPow] is the power reduced modulo the modulus. *)
Theorem modPow_computes_power (base exponent modulus : Z) :
  0 <= base -> 0 < exponent -> 0 < modulus ->
  RSA.modPow base exponent modulus = Ok (base ^ exponent mod modulus).
Proof.
  intros Hb He Hm. rewrite modPow_spec by lia.
  destruct (Z.leb_spec exponent 0); [lia | reflexivity].
Qed.

Lemma modPow_computes_power_witness : RSA.modPow 65 65537 143 = Ok (65 ^ 65537 mod 143).
Proof. apply (modPow_computes_power 65 65537 143); lia. Defined.

Lemma exponent_loop_exit (random : nat -> Q) (phi : Z) :
  forall fuel e st e' st',
  RSA.exponent_loop random fuel phi e st = Ok (e', st') -> RSA.gcd e' phi = 1.
Proof.
  induction fuel as [ | fuel IH]; intros e st e' st' H;
    cbn [RSA.exponent_loop] in H;
    destruct (Z.eqb_spec (RSA.gcd e phi) 1) as [Hg | Hg];
    try discriminate; try (injection H as <- <-; exact Hg).
  unfold RSA.bind_rand, RSA.Math_random, RSA.lift in H.
  destruct (BigInt_floor_times _ _) as [e1 | ? | ]; try discriminate.
  eapply IH. exact H.
Qed.

Lemma generatePrime_passed (random : nat -> Q) (bitLength : Q) :
  forall fuel st p st',
  RSA.generatePrime random fuel bitLength st = Ok (p, st') ->
  exists s s',
    RSA.generateRandomOddNumber random bitLength s = Ok (p, s') /\
    RSA.millerRabinPrimalityTest random p 10 s' = Ok (true, st').
Proof.
  induction fuel as [ | fuel IH]; intros st p st' H; cbn [RSA.generatePrime] in H;
    [discriminate | ].
  apply bind_rand_ok in H. destruct H as (prime & st1 & Hc & H).
  apply bind_rand_ok in H. destruct H as (ok & st2 & Ht & H).
  destruct ok.
  - injection H as <- <-. exists st, st1. split; assumption.
  - eapply IH. exact H.
Qed.

(** The keys [generateKeys] returns: both tokens read back as two fields,
    with one modulus [p * q] for numbers [p, q >= 2] that passed the
    primality test, an exponent [e] with [gcd(e, phi) = 1] and the [d] that
    [modInverse] gave for it. Each of [p] and [q] is a candidate of half the
    bit length on which the ten rounds of the test, run on the draws that
    follow the candidate's, returned [true]. *)
Theorem generateKeys_invariants (random : nat -> Q) (fuel : nat) (bitLength : Q)
    (st st' : nat) (keys : RSA.KeyPair) :
  RSA.generateKeys random fuel bitLength st = Ok (keys, st') ->
  exists p q e d,
    2 <= p /\ 2 <= q /\
    (exists s s' t,
       RSA.generateRandomOddNumber random (bitLength / 2) s = Ok (p, s') /\
       RSA.millerRabinPrimalityTest random p 10 s' = Ok (true, t)) /\
    (exists s s' t,
       RSA.generateRandomOddNumber random (bitLength / 2) s = Ok (q, s') /\
       RSA.millerRabinPrimalityTest random q 10 s' = Ok (true, t)) /\
    RSA.gcd e ((p - 1) * (q - 1)) = 1 /\
    RSA.modInverse e ((p - 1) * (q - 1)) = Ok d /\
    RSA.keyFields (RSA.publicKey keys) = Ok (e, Some (p * q)) /\
    RSA.keyFields (RSA.privateKey keys) = Ok (d, Some (p * q)).
Proof.
  intros H. unfold RSA.generateKeys in H.
  apply bind_rand_ok in H. destruct H as (p & st1 & Hp & H).
  apply bind_rand_ok in H. destruct H as (q & st2 & Hq & H).
  apply bind_rand_ok in H. destruct H as (e & st3 & He & H).
  apply bind_rand_ok in H. destruct H as (d & st4 & Hd & H).
  injection H as <- _.
  unfold RSA.lift in Hd.
  destruct (RSA.modInverse e ((p - 1) * (q - 1))) as [d' | ? | ] eqn:Hinv;
    try discriminate.
  injection Hd as -> _.
  exists p, q, e, d. cbn [RSA.publicKey RSA.privateKey].
  split; [eapply generatePrime_ge_2; exact Hp | ].
  split; [eapply generatePrime_ge_2; exact Hq | ].
  split.
  { destruct (generatePrime_passed _ _ _ _ _ _ Hp) as (s & s' & Hc & Ht). eauto. }
  split.
  { destruct (generatePrime_passed _ _ _ _ _ _ Hq) as (s & s' & Hc & Ht). eauto. }
  split; [eapply exponent_loop_exit; exact He | ].
  split; [exact Hinv | ].
  split; apply keyFields_keyToken.
Qed.

Lemma generateKeys_invariants_witness :
  exists p q e d,
    2 <= p /\ 2 <= q /\
    (exists s s' t,
       RSA.generateRandomOddNumber (mostly_high [0; 14]%nat) (8 / 2) s = Ok (p, s') /\
       RSA.millerRabinPrimalityTest (mostly_high [0; 14]%nat) p 10 s' = Ok (true, t)) /\
    (exists s s' t,
       RSA.generateRandomOddNumber (mostly_high [0; 14]%nat) (8 / 2) s = Ok (q, s') /\
       RSA.millerRabinPrimalityTest (mostly_high [0; 14]%nat) q 10 s' = Ok (true, t)) /\
    RSA.gcd e ((p - 1) * (q - 1)) = 1 /\
    RSA.modInverse e ((p - 1) * (q - 1)) = Ok d /\
    RSA.keyFields (lit "NjU1MzcsMTQz") = Ok (e, Some (p * q)) /\
    RSA.keyFields (lit "MTEzLDE0Mw==") = Ok (d, Some (p * q)).
Proof.
  apply (generateKeys_invariants (mostly_high [0; 14]%nat) 1 8 0%nat 26%nat
           {| RSA.publicKey := lit "NjU1MzcsMTQz"; RSA.privateKey := lit "MTEzLDE0Mw==" |}).
  vm_compute. reflexivity.
Defined.

(** ** validateKey on the tokens of generateKeys *)

Lemma strip_padding_shape (xs pad : jsstring) :
  Forall (fun c => c <> 61) xs ->
  pad = [] \/ pad = [61] \/ pad = [61; 61] ->
  Z.of_nat (List.length (xs ++ pad)) mod 4 = 0 ->
  strip_padding (xs ++ pad) = xs.
Proof.
  intros Hxs Hpad Hlen. unfold strip_padding. rewrite Hlen. cbn [Z.eqb].
  assert (Hrev : Forall (fun c => c <> 61) (rev xs)) by (apply Forall_rev; exact Hxs).
  rewrite rev_app_distr.
  assert (Hxs' : rev (rev xs) = xs) by apply rev_involutive.
  destruct Hpad as [-> | [-> | ->]]; cbn [rev app].
  - rewrite app_nil_r.
    destruct Hrev as [ | c1 r1 Hc1 Hr1]; [reflexivity | ].
    destruct (Z.eqb_spec c1 61) as [H61 | _]; [contradiction | ].
    destruct r1; reflexivity.
  - destruct Hrev as [ | c2 r Hc2 _]; [exact Hxs' | ].
    cbn [Z.eqb Pos.eqb].
    destruct (Z.eqb_spec c2 61) as [H61 | _]; [contradiction | exact Hxs'].
  - cbn [Z.eqb Pos.eqb]. exact Hxs'.
Qed.

Lemma base64_values_of_chars (vs : list Z) :
  Forall (fun v => 0 <= v < 64) vs ->
  map_throwing
    (fun c => match base64_value c with
              | Some v => Ok v
              | None => Throw InvalidCharacterError
              end) (List.map base64_char vs) = Ok vs.
Proof.
  induction 1 as [ | v vs' Hv _ IH]; [reflexivity | ].
  destruct (base64_char_value v Hv) as (_ & Hval & _).
  cbn [List.map map_throwing]. rewrite Hval, IH. reflexivity.
Qed.

(** [atob] reads back what [Buffer_toString_base64] wrote. *)
Lemma atob_base64 (bytes : list Z) :
  Forall (fun b => 0 <= b < 256) bytes ->
  atob (Buffer_toString_base64 bytes) = Ok bytes.
Proof.
  intros Hall.
  destruct (sextets_of_bytes_spec bytes Hall) as (Hrange & Hbytes & Hpad).
  set (vs := sextets_of_bytes bytes) in *.
  assert (Hchars : Forall (fun c => c <> 61 /\ is_ascii_whitespace c = false)
                          (List.map base64_char vs)).
  { apply Forall_map. eapply Forall_impl; [ | exact Hrange].
    intros v Hv. cbv beta in Hv. destruct (base64_char_value v Hv) as (H1 & _ & _ & H2).
    now split. }
  assert (Hpadding : Forall (fun c => is_ascii_whitespace c = false) (padding_of bytes)).
  { destruct Hpad as [[-> _] | [[-> _] | [-> _]]]; repeat constructor. }
  unfold atob. rewrite base64_shape. fold vs.
  assert (Hfilter : filter (fun c => negb (is_ascii_whitespace c))
                           (List.map base64_char vs ++ padding_of bytes)
                    = List.map base64_char vs ++ padding_of bytes).
  { apply forallb_filter_id. rewrite forallb_forall. intros c Hc.
    apply in_app_or in Hc. rewrite Forall_forall in Hchars, Hpadding.
    destruct Hc as [Hc | Hc]; [apply Hchars in Hc; destruct Hc as [_ ->] | rewrite (Hpadding c Hc)];
      reflexivity. }
  rewrite Hfilter.
  assert (Hlen : Z.of_nat (List.length (List.map base64_char vs ++ padding_of bytes)) mod 4 = 0
                 /\ Z.of_nat (List.length (List.map base64_char vs)) mod 4 <> 1).
  { rewrite length_app, length_map, Nat2Z.inj_add.
    destruct Hpad as [[-> H] | [[-> H] | [-> H]]]; cbn [List.length Z.of_nat];
      (split; [ | lia]); Z.div_mod_to_equations; lia. }
  destruct Hlen as [Hlen Hlen'].
  rewrite strip_padding_shape.
  - destruct (Z.eqb_spec (Z.of_nat (List.length (List.map base64_char vs)) mod 4) 1);
      [contradiction | ].
    rewrite base64_values_of_chars by exact Hrange. now rewrite Hbytes.
  - eapply Forall_impl; [ | exact Hchars]. intros c [H _]. exact H.
  - destruct Hpad as [[-> _] | [[-> _] | [-> _]]]; auto.
  - exact Hlen.
Qed.

Lemma validateKey_keyToken (x n : Z) :
  ConsoleInterface.validateKey (RSA.keyToken x n) = Ok true.
Proof.
  unfold ConsoleInterface.validateKey, RSA.keyToken.
  set (text := BigInt_toString x ++ lit "," ++ BigInt_toString n).
  assert (Hascii : Forall (fun c => 0 <= c < 128) text).
  { unfold text. destruct (BigInt_toString_text x) as [Hx _].
    destruct (BigInt_toString_text n) as [Hn _].
    apply Forall_app; split; [ | apply Forall_app; split].
    - eapply Forall_impl; [ | exact Hx]. cbn. intros; lia.
    - constructor; [cbn; lia | constructor].
    - eapply Forall_impl; [ | exact Hn]. cbn. intros; lia. }
  rewrite (Buffer_from_ascii text Hascii).
  rewrite atob_base64 by (eapply Forall_impl; [ | exact Hascii]; cbn; intros; lia).
  cbn [bind].
  assert (Hcomma : In comma text).
  { unfold text. apply in_or_app. right. now left. }
  apply field_count_comma in Hcomma.
  destruct (Z.ltb_spec (ConsoleInterface.field_count text) 2); [lia | reflexivity].
Qed.

(** The console's check accepts both tokens of every key pair that
    [generateKeys] returns. *)
Theorem validateKey_accepts_generated_keys (random : nat -> Q) (fuel : nat)
    (bitLength : Q) (st st' : nat) (keys : RSA.KeyPair) :
  RSA.generateKeys random fuel bitLength st = Ok (keys, st') ->
  ConsoleInterface.validateKey (RSA.publicKey keys) = Ok true /\
  ConsoleInterface.validateKey (RSA.privateKey keys) = Ok true.
Proof.
  intros H. unfold RSA.generateKeys in H.
  apply bind_rand_ok in H. destruct H as (p & st1 & _ & H).
  apply bind_rand_ok in H. destruct H as (q & st2 & _ & H).
  apply bind_rand_ok in H. destruct H as (e & st3 & _ & H).
  apply bind_rand_ok in H. destruct H as (d & st4 & _ & H).
  injection H as <- _. cbn [RSA.publicKey RSA.privateKey].
  split; apply validateKey_keyToken.
Qed.

Lemma validateKey_accepts_generated_keys_witness :
  ConsoleInterface.validateKey (lit "NjU1MzcsMTQz") = Ok true /\
  ConsoleInterface.validateKey (lit "MTEzLDE0Mw==") = Ok true.
Proof.
  apply (validateKey_accepts_generated_keys (mostly_high [0; 14]%nat) 1 8 0%nat 26%nat
           {| RSA.publicKey := lit "NjU1MzcsMTQz"; RSA.privateKey := lit "MTEzLDE0Mw==" |}).
  vm_compute. reflexivity.
Defined.

(** ** The primality test on a prime *)

Lemma decompose_step (r s : Z) :
  r <> 0 -> Z.rem r 2 = 0 -> RSA.decompose r s = RSA.decompose (Z.shiftr r 1) (s + 1).
Proof.
  intros Hr He. rewrite RSA.decompose_equation_1.
  destruct (Z.eq_dec (Z.rem r 2) 0) as [E | E]; [ | contradiction]. cbn.
  destruct (Z.eq_dec r 0) as [E0 | E0]; [contradiction | reflexivity].
Qed.

Lemma decompose_done (r s : Z) :
  Z.rem r 2 <> 0 -> RSA.decompose r s = Ok (r, s).
Proof.
  intros He. rewrite RSA.decompose_equation_1.
  destruct (Z.eq_dec (Z.rem r 2) 0) as [E | E]; [contradiction | reflexivity].
Qed.

(** From a positive [r0] the loop ends, with the odd part of [r0] and the
    number of halvings added to [s0]. *)
Lemma decompose_spec (r0 : Z) :
  0 <= r0 -> 0 < r0 -> forall s0,
  exists r s, RSA.decompose r0 s0 = Ok (r, s) /\
              0 < r /\ r mod 2 = 1 /\ s0 <= s /\ r0 = r * 2 ^ (s - s0).
Proof.
  intros H0. pattern r0. apply Zlt_0_ind; [ | exact H0].
  clear r0 H0. intros r0 IH _ Hpos s0.
  pose proof (Z.mod_pos_bound r0 2 ltac:(lia)) as Hb.
  pose proof (Z.div_mod r0 2 ltac:(lia)) as Hdm.
  assert (Hrem : Z.rem r0 2 = r0 mod 2) by (apply Z.rem_mod_nonneg; lia).
  destruct (Z.eq_dec (r0 mod 2) 0) as [E | E].
  - rewrite decompose_step by lia.
    rewrite Z.shiftr_div_pow2 by lia. change (2 ^ 1) with 2.
    destruct (IH (r0 / 2) ltac:(lia) ltac:(lia) (s0 + 1)) as (r & s & Hd & Hr & Hodd & Hs & Heq).
    exists r, s. repeat split; try assumption; try lia.
    replace (s - s0) with (Z.succ (s - (s0 + 1))) by lia.
    rewrite Z.pow_succ_r by lia. lia.
  - rewrite decompose_done by lia.
    exists r0, s0. repeat split; try lia.
    rewrite Z.sub_diag. cbn. lia.
Qed.

(** Modulo a prime, 1 has the two square roots 1 and -1 only. *)
Lemma sqrt_one_prime (p x : Z) :
  Z.prime p -> 0 <= x < p -> (x * x) mod p = 1 -> x = 1 \/ x = p - 1.
Proof.
  intros Hp Hx Hsq. pose proof (Z.prime_ge_2 p Hp) as Hp2.
  assert (Hd : (p | (x - 1) * (x + 1))).
  { replace ((x - 1) * (x + 1)) with (x * x - 1) by lia.
    apply cong_divide; [lia | ]. rewrite Hsq. symmetry. apply Z.mod_small. lia. }
  apply Z.divide_prime_mul in Hd; [ | exact Hp].
  destruct Hd as [[k Hk] | [k Hk]].
  - left. assert (k = 0) by nia. lia.
  - right. assert (k = 1) by nia. lia.
Qed.

Lemma modPow_square (x n : Z) :
  0 <= x -> 0 < n -> RSA.modPow x 2 n = Ok ((x * x) mod n).
Proof.
  intros Hx Hn. rewrite modPow_spec by lia. cbn [Z.leb Z.compare].
  now rewrite Z.pow_2_r.
Qed.

Lemma squarings_done (n s j x : Z) :
  s <= j -> RSA.squarings n s j x = Ok (Some x).
Proof.
  intros H. rewrite RSA.squarings_equation_1.
  destruct (Z_lt_dec j s) as [L | L]; [lia | reflexivity].
Qed.

Lemma squarings_found (n s j x : Z) :
  j < s -> x = n - 1 -> RSA.squarings n s j x = Ok (Some x).
Proof.
  intros H Hx. rewrite RSA.squarings_equation_1.
  destruct (Z_lt_dec j s) as [L | L]; [ | lia]. cbn.
  destruct (Z.eq_dec x (n - 1)) as [E | E]; [reflexivity | contradiction].
Qed.

Lemma squarings_step (n s j x : Z) :
  j < s -> x <> n - 1 ->
  RSA.squarings n s j x =
  match RSA.modPow x 2 n with
  | Ok x' => if x' =? 1 then Ok None else RSA.squarings n s (j + 1) x'
  | Throw e => Throw e
  | OutOfFuel => OutOfFuel
  end.
Proof.
  intros H Hx. rewrite RSA.squarings_equation_1.
  destruct (Z_lt_dec j s) as [L | L]; [ | lia]. cbn.
  destruct (Z.eq_dec x (n - 1)) as [E | E]; [contradiction | ]. cbn.
  destruct (RSA.modPow x 2 n); reflexivity.
Qed.

Section PrimeCandidate.

Variables n r s a : Z.
Hypothesis n_prime : Z.prime n.
Hypothesis r_pos : 0 < r.
Hypothesis s_pos : 0 <= s.
Hypothesis n_split : n - 1 = r * 2 ^ s.
Hypothesis a_range : 1 <= a < n.

Lemma power_range (j : Z) : 0 <= squared_power n r a j < n.
Proof. apply Z.mod_pos_bound. pose proof (Z.prime_ge_2 n n_prime). lia. Qed.

Lemma power_succ (j : Z) : 0 <= j -> (squared_power n r a j * squared_power n r a j) mod n = squared_power n r a (j + 1).
Proof.
  intros Hj. unfold squared_power. pose proof (Z.prime_ge_2 n n_prime).
  rewrite <- Z.mul_mod by lia. rewrite <- Z.pow_add_r by nia.
  f_equal. f_equal. rewrite Z.pow_add_r, Z.pow_1_r by lia. lia.
Qed.

Lemma power_last : squared_power n r a s = 1.
Proof.
  unfold squared_power. rewrite <- n_split.
  apply Stdlib.Zmod.ZmodInv.Z.fermat_nz; [exact n_prime | ].
  rewrite Z.mod_small; lia.
Qed.

Lemma squarings_prime (k : nat) :
  forall j, 1 <= j <= s -> Z.of_nat k = s - j -> squared_power n r a (j - 1) <> 1 ->
  RSA.squarings n s j (squared_power n r a (j - 1)) = Ok (Some (n - 1)).
Proof.
  pose proof (Z.prime_ge_2 n n_prime) as Hn2.
  induction k as [ | k IH]; intros j Hj Hk Hne.
  - assert (j = s) by lia. subst j.
    rewrite squarings_done by lia.
    destruct (sqrt_one_prime n (squared_power n r a (s - 1)) n_prime (power_range _)) as [H1 | H1].
    + rewrite power_succ by lia. replace (s - 1 + 1) with s by lia. apply power_last.
    + contradiction.
    + now rewrite H1.
  - destruct (Z.eq_dec (squared_power n r a (j - 1)) (n - 1)) as [E | E].
    + rewrite squarings_found by (lia || exact E). now rewrite E.
    + rewrite squarings_step by (lia || exact E).
      pose proof (power_range (j - 1)) as Hr.
      rewrite modPow_square by lia.
      rewrite power_succ by lia. replace (j - 1 + 1) with j by lia.
      destruct (Z.eqb_spec (squared_power n r a j) 1) as [E1 | E1].
      * exfalso.
        destruct (sqrt_one_prime n (squared_power n r a (j - 1)) n_prime Hr) as [H1 | H1];
          [ | contradiction | contradiction].
        rewrite power_succ by lia. replace (j - 1 + 1) with j by lia. exact E1.
      * replace j with (j + 1 - 1) at 2 by lia.
        apply IH; [lia | lia | ]. replace (j + 1 - 1) with j by lia. exact E1.
Qed.

(** A prime passes the round of every witness in [1, n). *)
Lemma round_prime : 1 <= s -> RSA.round n r s a = Ok true.
Proof.
  intros Hs. pose proof (Z.prime_ge_2 n n_prime) as Hn2.
  unfold RSA.round. rewrite modPow_spec by lia.
  destruct (Z.leb_spec r 0) as [L | _]; [lia | ]. cbn [bind].
  assert (Hx : a ^ r mod n = squared_power n r a 0).
  { unfold squared_power. now rewrite Z.pow_0_r, Z.mul_1_r. }
  rewrite Hx.
  destruct (Z.eqb_spec (squared_power n r a 0) 1) as [E1 | E1]; [reflexivity | ].
  destruct (Z.eqb_spec (squared_power n r a 0) (n - 1)) as [E2 | E2]; [reflexivity | ].
  cbn [negb andb].
  change (squared_power n r a 0) with (squared_power n r a (1 - 1)).
  rewrite (squarings_prime (Z.to_nat (s - 1)) 1) by (lia || exact E1).
  cbn [bind]. now rewrite Z.eqb_refl.
Qed.

End PrimeCandidate.

(** The witness of a round on a candidate [n >= 5] is a residue other than 0. *)
Lemma witness_nonzero (n : Z) (x : Q) :
  5 <= n -> (0 <= x)%Q -> (x < 1)%Q -> 1 <= RSA.witness n x < n.
Proof.
  intros Hn H0 H1. unfold RSA.witness, RSA.minRandom.
  destruct (Z.gtb_spec n 10) as [G | G].
  - pose proof (scaled_draw_range x (n - (n - 10)) H0 H1 ltac:(lia)). lia.
  - pose proof (scaled_draw_range x (n - 2) H0 H1 ltac:(lia)). lia.
Qed.

Lemma rounds_prime (random : nat -> Q) (n r s : Z) :
  (forall i, (0 <= random i)%Q /\ (random i < 1)%Q) ->
  Z.prime n -> 5 <= n -> 0 < r -> 1 <= s -> n - 1 = r * 2 ^ s ->
  forall k st, RSA.rounds random k n r s st = Ok (true, (st + k)%nat).
Proof.
  intros Hrange Hp Hn Hr Hs Hsplit.
  induction k as [ | k IH]; intros st.
  - cbn. now rewrite Nat.add_0_r.
  - cbn [RSA.rounds]. unfold RSA.bind_rand, RSA.Math_random, RSA.lift.
    destruct (Hrange st) as [H0 H1].
    rewrite (round_prime n r s _ Hp Hr ltac:(lia) Hsplit (witness_nonzero n _ Hn H0 H1) Hs).
    rewrite IH. f_equal. f_equal. lia.
Qed.

Lemma prime_odd (n : Z) : Z.prime n -> n <> 2 -> n mod 2 = 1.
Proof.
  intros [Hn Hdiv] H2.
  pose proof (Z.mod_pos_bound n 2 ltac:(lia)) as Hb.
  destruct (Z.eq_dec (n mod 2) 0) as [E | E]; [ | lia].
  exfalso. apply (Hdiv 2); [lia | ].
  apply Z.mod_divide; [lia | exact E].
Qed.

(** The primality test never rejects a prime: with draws in [[0, 1)] every
    round passes, by Fermat's little theorem and because 1 has no square
    root modulo a prime but 1 and -1. It answers 2 and 3 without a draw and
    every other prime after [k] draws. *)
Theorem millerRabin_accepts_primes (random : nat -> Q) (n : Z) (k st : nat) :
  (forall i, (0 <= random i)%Q /\ (random i < 1)%Q) ->
  Z.prime n ->
  RSA.millerRabinPrimalityTest random n k st =
    Ok (true, if n <=? 3 then st else (st + k)%nat).
Proof.
  intros Hrange Hp. pose proof (Z.prime_ge_2 n Hp) as Hn2.
  unfold RSA.millerRabinPrimalityTest.
  destruct (Z.ltb_spec n 2) as [L | _]; [lia | ].
  destruct (Z.eqb_spec n 2) as [-> | H2]; [reflexivity | ].
  destruct (Z.eqb_spec n 3) as [-> | H3]; [reflexivity | ].
  cbn [orb].
  pose proof (prime_odd n Hp H2) as Hodd.
  rewrite Z.rem_mod_nonneg by lia. rewrite Hodd. cbn [Z.eqb].
  destruct (Z.leb_spec n 3) as [L | _]; [lia | ].
  assert (Hn5 : 5 <= n).
  { destruct (Z.eq_dec n 4) as [-> | ]; [discriminate Hodd | lia]. }
  destruct (decompose_spec (n - 1) ltac:(lia) ltac:(lia) 0)
    as (r & s & Hd & Hr & Hrodd & Hs & Hsplit).
  rewrite Z.sub_0_r in Hsplit.
  assert (Hs1 : 1 <= s).
  { destruct (Z.eq_dec s 0) as [-> | ]; [ | lia].
    rewrite Z.pow_0_r, Z.mul_1_r in Hsplit.
    pose proof (Z.div_mod n 2 ltac:(lia)). pose proof (Z.div_mod r 2 ltac:(lia)). lia. }
  unfold RSA.bind_rand, RSA.lift. rewrite Hd. cbn [fst snd].
  apply rounds_prime; assumption.
Qed.

Lemma millerRabin_accepts_primes_witness :
  RSA.millerRabinPrimalityTest (mostly_high [0; 14]%nat) 13 10 3%nat =
    Ok (true, if 13 <=? 3 then 3%nat else (3 + 10)%nat).
Proof.
  apply (millerRabin_accepts_primes (mostly_high [0; 14]%nat) 13 10 3%nat).
  - apply mostly_high_range.
  - exact prime_13.
Defined.

(** ** The primality test on high draws, and on any draws *)

Lemma minus_one_pow_odd (n r : Z) :
  1 < n -> 0 <= r -> r mod 2 = 1 -> (n - 1) ^ r mod n = n - 1.
Proof.
  intros Hn Hr Hodd.
  pose proof (Z.div_mod r 2 ltac:(lia)) as Hdm. rewrite Hodd in Hdm.
  assert (Hk : 0 <= r / 2) by (apply Z.div_pos; lia).
  rewrite Hdm, Z.pow_add_r, Z.pow_1_r, Z.pow_mul_r by lia.
  rewrite <- Z.mul_mod_idemp_l, <- Z.mod_pow_l by lia.
  replace ((n - 1) ^ 2 mod n) with 1.
  - rewrite Z.pow_1_l by lia. rewrite Z.mul_mod_idemp_l by lia.
    rewrite Z.mul_1_l. apply Z.mod_small. lia.
  - replace ((n - 1) ^ 2) with (1 + (n - 2) * n) by (rewrite Z.pow_2_r; lia).
    rewrite Z.mod_add by lia. symmetry. apply Z.mod_small. lia.
Qed.

(** A draw of 9/10 or more on a candidate above 10 gives the witness [n - 1]. *)
Lemma witness_high_draw (n : Z) (x : Q) :
  10 < n -> (9 # 10 <= x)%Q -> (x < 1)%Q -> RSA.witness n x = n - 1.
Proof.
  intros Hn H9 H1. unfold RSA.witness, RSA.minRandom.
  destruct (Z.gtb_spec n 10) as [_ | G]; [ | lia].
  replace (n - (n - 10)) with 10 by lia.
  assert (H0 : (0 <= x)%Q) by (eapply Qle_trans; [ | exact H9]; easy).
  pose proof (scaled_draw_range x 10 H0 H1 ltac:(lia)) as Hup.
  assert (Hlow : 9 <= Qfloor (x * inject_Z 10)).
  { change 9 with (Qfloor (inject_Z 9)). apply Qfloor_resp_le.
    apply Qle_trans with ((9 # 10) * inject_Z 10)%Q; [easy | ].
    apply Qmult_le_compat_r; [exact H9 | easy]. }
  lia.
Qed.

Lemma round_minus_one (n r s : Z) :
  1 < n -> 0 < r -> r mod 2 = 1 -> RSA.round n r s (n - 1) = Ok true.
Proof.
  intros Hn Hr Hodd. unfold RSA.round. rewrite modPow_spec by lia.
  destruct (Z.leb_spec r 0) as [L | _]; [lia | ]. cbn [bind].
  rewrite minus_one_pow_odd by lia.
  rewrite (Z.eqb_refl (n - 1)). cbn [negb andb].
  now rewrite andb_false_r.
Qed.

(** The primality test can be made to accept any odd candidate above 10,
    prime or not: when every draw is 9/10 or more the witness of every
    round is [n - 1], whose odd powers are [n - 1] again, and every round
    passes. *)
Theorem millerRabin_accepts_on_high_draws (random : nat -> Q) (n : Z) (k st : nat) :
  (forall i, (9 # 10 <= random i)%Q /\ (random i < 1)%Q) ->
  10 < n -> n mod 2 = 1 ->
  RSA.millerRabinPrimalityTest random n k st = Ok (true, (st + k)%nat).
Proof.
  intros Hrange Hn Hodd. unfold RSA.millerRabinPrimalityTest.
  destruct (Z.ltb_spec n 2) as [L | _]; [lia | ].
  destruct (Z.eqb_spec n 2) as [E | _]; [lia | ].
  destruct (Z.eqb_spec n 3) as [E | _]; [lia | ].
  cbn [orb]. rewrite Z.rem_mod_nonneg by lia. rewrite Hodd. cbn [Z.eqb].
  destruct (decompose_spec (n - 1) ltac:(lia) ltac:(lia) 0)
    as (r & s & Hd & Hr & Hrodd & _ & _).
  unfold RSA.bind_rand at 1, RSA.lift. rewrite Hd. cbn [fst snd].
  clear Hd. revert st.
  induction k as [ | k IH]; intros st.
  - cbn. now rewrite Nat.add_0_r.
  - cbn [RSA.rounds]. unfold RSA.bind_rand, RSA.Math_random, RSA.lift.
    destruct (Hrange st) as [H9 H1].
    rewrite witness_high_draw by assumption.
    rewrite round_minus_one by lia.
    rewrite IH. f_equal. f_equal. lia.
Qed.

Lemma millerRabin_accepts_on_high_draws_witness :
  RSA.millerRabinPrimalityTest (always (9 # 10)) 15 10 0%nat = Ok (true, (0 + 10)%nat).
Proof.
  apply (millerRabin_accepts_on_high_draws (always (9 # 10)) 15 10 0%nat).
  - intros i. split; easy.
  - lia.
  - reflexivity.
Defined.

(** [modPow] returns on every modulus other than 0. *)
Lemma modPow_returns (base exponent modulus : Z) :
  modulus <> 0 -> exists v, RSA.modPow base exponent modulus = Ok v.
Proof.
  intros Hm. unfold RSA.modPow, BigInt_rem.
  destruct (Z.eqb_spec modulus 0); [contradiction | ]. cbn. eauto.
Qed.

Lemma squarings_returns (n s : Z) (k : nat) :
  n <> 0 ->
  forall j x, Z.of_nat k = Z.max 0 (s - j) -> exists after, RSA.squarings n s j x = Ok after.
Proof.
  intros Hn. induction k as [ | k IH]; intros j x Hk.
  - rewrite squarings_done by lia. eauto.
  - destruct (Z.eq_dec x (n - 1)) as [E | E].
    + rewrite squarings_found by lia. eauto.
    + rewrite squarings_step by lia.
      destruct (modPow_returns x 2 n Hn) as [x' ->].
      destruct (x' =? 1); [eauto | ]. apply IH. lia.
Qed.

Lemma round_returns (n r s a : Z) :
  n <> 0 -> exists passed, RSA.round n r s a = Ok passed.
Proof.
  intros Hn. unfold RSA.round.
  destruct (modPow_returns a r n Hn) as [x ->]. cbn [bind].
  destruct (_ && _); [ | eauto].
  destruct (squarings_returns n s (Z.to_nat (Z.max 0 (s - 1))) Hn 1 x ltac:(lia))
    as [after ->].
  cbn [bind]. destruct after; eauto.
Qed.

Lemma rounds_returns (random : nat -> Q) (n r s : Z) :
  n <> 0 -> forall k st,
  exists passed st', RSA.rounds random k n r s st = Ok (passed, st') /\
                     (st <= st' <= st + k)%nat.
Proof.
  intros Hn. induction k as [ | k IH]; intros st.
  - exists true, st. split; [reflexivity | lia].
  - cbn [RSA.rounds]. unfold RSA.bind_rand, RSA.Math_random, RSA.lift.
    destruct (round_returns n r s (RSA.witness n (random st)) Hn) as [passed ->].
    destruct passed.
    + destruct (IH (S st)) as (b & st' & -> & Hst). exists b, st'. split; [reflexivity | lia].
    + exists false, (S st). split; [reflexivity | lia].
Qed.

Lemma millerRabin_total (random : nat -> Q) (n : Z) (k st : nat) :
  exists verdict st', RSA.millerRabinPrimalityTest random n k st = Ok (verdict, st').
Proof.
  unfold RSA.millerRabinPrimalityTest.
  destruct (Z.ltb_spec n 2) as [L | L]; [unfold RSA.ret; eauto | ].
  destruct ((n =? 2) || (n =? 3)); [unfold RSA.ret; eauto | ].
  destruct (Z.rem n 2 =? 0); [unfold RSA.ret; eauto | ].
  destruct (decompose_spec (n - 1) ltac:(lia) ltac:(lia) 0) as (r & s & Hd & _).
  unfold RSA.bind_rand, RSA.lift. rewrite Hd. cbn [fst snd].
  destruct (rounds_returns random n r s ltac:(lia) k st) as (b & st' & Hr & _).
  eauto.
Qed.

(** The primality test returns a verdict on every candidate, whatever the
    draws: it does not throw and its loops end. It draws one number per
    round it runs, [k] at most, and none on a candidate that is below 5 or
    even. *)
Theorem millerRabin_returns (random : nat -> Q) (n : Z) (k st : nat) :
  exists verdict st',
    RSA.millerRabinPrimalityTest random n k st = Ok (verdict, st') /\
    (st <= st' <= st + k)%nat /\
    (n < 5 \/ n mod 2 = 0 -> st' = st).
Proof.
  unfold RSA.millerRabinPrimalityTest.
  destruct (Z.ltb_spec n 2) as [L | L].
  { exists false, st. repeat split; lia. }
  destruct ((n =? 2) || (n =? 3)) eqn:E23.
  { exists true, st. repeat split; lia. }
  apply orb_false_elim in E23. destruct E23 as [E2 E3].
  apply Z.eqb_neq in E2, E3.
  rewrite Z.rem_mod_nonneg by lia.
  destruct (Z.eqb_spec (n mod 2) 0) as [E | E].
  { exists false, st. repeat split; lia. }
  destruct (decompose_spec (n - 1) ltac:(lia) ltac:(lia) 0) as (r & s & Hd & _).
  unfold RSA.bind_rand, RSA.lift. rewrite Hd. cbn [fst snd].
  destruct (rounds_returns random n r s ltac:(lia) k st) as (b & st' & Hr & Hst).
  exists b, st'. repeat split; try assumption; try lia.
  intros [H | H]; [ | lia].
  assert (n = 4) by lia. subst n. cbn in E. lia.
Qed.

(** ** The size of the candidates and of the modulus *)

(** The loop test [i < bitLength] on a number that need not be an integer. *)
Lemma loop_test_ceiling (bitLength : Q) (i : Z) :
  (inject_Z i < bitLength)%Q <-> i < Qceiling bitLength.
Proof.
  split; intros H.
  - rewrite Zlt_Qlt. eapply Qlt_le_trans; [exact H | apply Qle_ceiling].
  - apply Qle_lt_trans with (inject_Z (Qceiling bitLength - 1)).
    + rewrite <- Zle_Qle. lia.
    + apply Qceiling_lt.
Qed.

Lemma randomBits_loop_turn (random : nat -> Q) (bitLength : Q) (i : Z) bits st :
  RSA.randomBits_loop random bitLength i bits st =
  if Qlt_le_dec (inject_Z i) bitLength
  then RSA.randomBits_loop random bitLength (i + 1)
         (bits ++ (if Qlt_le_dec (random st) (1 # 2) then lit "0" else lit "1")) (S st)
  else (bits, st).
Proof.
  rewrite RSA.randomBits_loop_equation_1 at 1.
  destruct (Qlt_le_dec (inject_Z i) bitLength); reflexivity.
Qed.

Lemma randomBits_loop_count (random : nat -> Q) (bitLength : Q) (k : nat) :
  forall i bits st,
  Z.of_nat k = Z.max 0 (Qceiling bitLength - i) ->
  exists tail,
    RSA.randomBits_loop random bitLength i bits st = (bits ++ tail, (st + k)%nat) /\
    List.length tail = k /\
    Forall (fun c => c = 48 \/ c = 49) tail.
Proof.
  induction k as [ | k IH]; intros i bits st Hk.
  - exists []. rewrite randomBits_loop_turn.
    destruct (Qlt_le_dec (inject_Z i) bitLength) as [L | L].
    + exfalso. apply (proj1 (loop_test_ceiling _ _)) in L. lia.
    + rewrite app_nil_r, Nat.add_0_r. repeat split. constructor.
  - rewrite randomBits_loop_turn.
    destruct (Qlt_le_dec (inject_Z i) bitLength) as [L | L].
    + destruct (IH (i + 1)
                  (bits ++ (if Qlt_le_dec (random st) (1 # 2) then lit "0" else lit "1"))
                  (S st) ltac:(lia)) as (tail & Hloop & Hlen & Hbits).
      rewrite Hloop.
      exists ((if Qlt_le_dec (random st) (1 # 2) then lit "0" else lit "1") ++ tail).
      repeat split.
      * rewrite <- app_assoc. f_equal. lia.
      * destruct (Qlt_le_dec (random st) (1 # 2)); cbn; now rewrite Hlen.
      * destruct (Qlt_le_dec (random st) (1 # 2)); cbn; constructor; auto.
    + exfalso. assert (H : i < Qceiling bitLength) by lia.
      apply (proj2 (loop_test_ceiling _ _)) in H. apply (Qlt_not_le _ _ H L).
Qed.

(** The candidate for any bit length: [ceil bitLength] bits, one at least. *)
Lemma generateRandomOddNumber_bits (random : nat -> Q) (bitLength : Q) (st : nat) :
  let bits := Z.max 1 (Qceiling bitLength) in
  exists n,
    RSA.generateRandomOddNumber random bitLength st =
      Ok (n, (st + Z.to_nat (bits - 1))%nat) /\
    2 ^ (bits - 1) <= n < 2 ^ bits.
Proof.
  intros bits. unfold RSA.generateRandomOddNumber.
  destruct (randomBits_loop_count random bitLength (Z.to_nat (bits - 1)) 1 (lit "1") st
              ltac:(lia)) as (tail & Hloop & Hlen & Hbits).
  rewrite Hloop.
  destruct (parse_binary tail Hbits 1) as (v & Hparse & Hv).
  rewrite Hlen, Z2Nat.id in Hparse, Hv by lia.
  exists (1 * 2 ^ (bits - 1) + v). split.
  - unfold RSA.lift, BigInt_of_string, StringToBigInt.
    rewrite trim_no_whitespace.
    + change (lit "0b" ++ lit "1" ++ tail) with (48 :: 98 :: 49 :: tail).
      cbn [Z.eqb Pos.eqb orb parse_number parse_digits digit_value Z.leb Z.compare
           Pos.compare Pos.compare_cont andb Z.sub Z.add Z.opp Z.pos_sub Z.ltb Z.mul
           Pos.pred_double Z.succ_double Z.pred_double Z.double].
      rewrite Hparse. reflexivity.
    + change (lit "0b" ++ lit "1" ++ tail) with (48 :: 98 :: 49 :: tail).
      repeat (constructor; [reflexivity | ]).
      eapply Forall_impl; [ | exact Hbits]. intros c Hc. cbv beta in Hc.
      apply printable_not_whitespace. lia.
  - assert (Hpow : 2 ^ bits = 2 * 2 ^ (bits - 1)).
    { replace bits with (Z.succ (bits - 1)) at 1 by lia.
      apply Z.pow_succ_r. lia. }
    lia.
Qed.

(** [generatePrime] on a bit length of 1 or less: every candidate is 1. *)
Lemma generatePrime_never_returns (random : nat -> Q) (bitLength : Q) :
  (bitLength <= 1)%Q ->
  forall fuel st, RSA.generatePrime random fuel bitLength st = OutOfFuel.
Proof.
  intros Hb.
  assert (Hc : Qceiling bitLength <= 1).
  { change 1 with (Qceiling 1). apply Qceiling_resp_le. exact Hb. }
  induction fuel as [ | fuel IH]; intros st; [reflexivity | ].
  cbn [RSA.generatePrime]. unfold RSA.bind_rand.
  destruct (generateRandomOddNumber_bits random bitLength st) as (n & -> & Hn).
  replace (Z.max 1 (Qceiling bitLength)) with 1 in Hn by lia.
  assert (n = 1) by (cbn in Hn; lia). subst n.
  cbn. apply IH.
Qed.

(** On a bit length of 2 or less [generateKeys] does not return, whatever
    the draws and however many candidates it may try: half the bit length
    is 1 or less, every candidate of [generatePrime] is then the number 1,
    and the primality test rejects 1. *)
Theorem generateKeys_never_returns (random : nat -> Q) (bitLength : Q) :
  (bitLength <= 2)%Q ->
  forall fuel st,
    RSA.generatePrime random fuel (bitLength / 2) st = OutOfFuel /\
    RSA.generateKeys random fuel bitLength st = OutOfFuel.
Proof.
  intros Hb fuel st.
  assert (Hhalf : (bitLength / 2 <= 1)%Q).
  { apply Qle_shift_div_r; [easy | exact Hb]. }
  pose proof (generatePrime_never_returns random (bitLength / 2) Hhalf fuel st) as Hp.
  split; [exact Hp | ].
  unfold RSA.generateKeys, RSA.bind_rand. now rewrite Hp.
Qed.

Lemma generateKeys_never_returns_witness :
  RSA.generatePrime (always (1 # 4)) 1000 (2 / 2) 0%nat = OutOfFuel /\
  RSA.generateKeys (always (1 # 4)) 1000 2 0%nat = OutOfFuel.
Proof. apply (generateKeys_never_returns (always (1 # 4)) 2); easy. Defined.

(** What [generatePrime] returns has [ceil bitLength] bits. *)
Lemma generatePrime_size (random : nat -> Q) (bitLength : Q) :
  forall fuel st p st',
  RSA.generatePrime random fuel bitLength st = Ok (p, st') ->
  2 <= Qceiling bitLength /\
  2 ^ (Qceiling bitLength - 1) <= p < 2 ^ Qceiling bitLength.
Proof.
  induction fuel as [ | fuel IH]; intros st p st' H; [discriminate | ].
  cbn [RSA.generatePrime] in H. unfold RSA.bind_rand at 1 in H.
  destruct (generateRandomOddNumber_bits random bitLength st) as (n & Hn & Hsize).
  rewrite Hn in H.
  apply bind_rand_ok in H. destruct H as (ok & st2 & Htest & H).
  destruct ok; [ | eapply IH; exact H].
  injection H as <- <-.
  apply millerRabin_true_ge_2 in Htest.
  destruct (Z_le_gt_dec (Qceiling bitLength) 1) as [L | G].
  - replace (Z.max 1 (Qceiling bitLength)) with 1 in Hsize by lia.
    cbn in Hsize. lia.
  - replace (Z.max 1 (Qceiling bitLength)) with (Qceiling bitLength) in Hsize by lia.
    split; [lia | exact Hsize].
Qed.

(** The tokens [generateKeys] returns and the size of their modulus. *)
Lemma generateKeys_tokens (random : nat -> Q) (fuel : nat) (bitLength : Q)
    (st st' : nat) (keys : RSA.KeyPair) :
  RSA.generateKeys random fuel bitLength st = Ok (keys, st') ->
  exists e d n,
    keys = {| RSA.publicKey := RSA.keyToken e n; RSA.privateKey := RSA.keyToken d n |} /\
    2 <= Qceiling (bitLength / 2) /\
    2 ^ (2 * Qceiling (bitLength / 2) - 2) <= n < 2 ^ (2 * Qceiling (bitLength / 2)).
Proof.
  intros H. unfold RSA.generateKeys in H.
  apply bind_rand_ok in H. destruct H as (p & st1 & Hp & H).
  apply bind_rand_ok in H. destruct H as (q & st2 & Hq & H).
  apply bind_rand_ok in H. destruct H as (e & st3 & _ & H).
  apply bind_rand_ok in H. destruct H as (d & st4 & _ & H).
  injection H as <- _.
  apply generatePrime_size in Hp, Hq.
  set (half := Qceiling (bitLength / 2)) in *.
  destruct Hp as [Hhalf Hp], Hq as [_ Hq].
  exists e, d, (p * q). split; [reflexivity | ]. split; [exact Hhalf | ].
  assert (0 < 2 ^ (half - 1)) by (apply Z.pow_pos_nonneg; lia).
  split.
  - replace (2 * half - 2) with ((half - 1) + (half - 1)) by lia.
    rewrite Z.pow_add_r by lia. nia.
  - replace (2 * half) with (half + half) by lia.
    rewrite Z.pow_add_r by lia. nia.
Qed.

(** The size of the keys: whenever [generateKeys] returns, both tokens
    carry one modulus [n] with [2 ^ (2 * half - 2) <= n < 2 ^ (2 * half)],
    where [half] is [bitLength / 2] rounded up, 2 at least. So an even bit
    length [L] gives a modulus of [L - 1] or [L] bits, an odd one a modulus
    of [L] or [L + 1] bits. *)
Theorem generateKeys_modulus_size (random : nat -> Q) (fuel : nat) (bitLength : Q)
    (st st' : nat) (keys : RSA.KeyPair) :
  RSA.generateKeys random fuel bitLength st = Ok (keys, st') ->
  let half := Qceiling (bitLength / 2) in
  exists e d n,
    RSA.keyFields (RSA.publicKey keys) = Ok (e, Some n) /\
    RSA.keyFields (RSA.privateKey keys) = Ok (d, Some n) /\
    2 <= half /\ 2 ^ (2 * half - 2) <= n < 2 ^ (2 * half).
Proof.
  intros H half.
  destruct (generateKeys_tokens _ _ _ _ _ _ H) as (e & d & n & -> & Hhalf & Hn).
  exists e, d, n. cbn [RSA.publicKey RSA.privateKey].
  rewrite !keyFields_keyToken. auto.
Qed.

Lemma generateKeys_modulus_size_witness :
  let half := Qceiling (8 / 2) in
  exists e d n,
    RSA.keyFields (lit "NjU1MzcsMTQz") = Ok (e, Some n) /\
    RSA.keyFields (lit "MTEzLDE0Mw==") = Ok (d, Some n) /\
    2 <= half /\ 2 ^ (2 * half - 2) <= n < 2 ^ (2 * half).
Proof.
  apply (generateKeys_modulus_size (mostly_high [0; 14]%nat) 1 8 0%nat 26%nat
           {| RSA.publicKey := lit "NjU1MzcsMTQz"; RSA.privateKey := lit "MTEzLDE0Mw==" |}).
  vm_compute. reflexivity.
Defined.

(** ** The arithmetic on arguments the key generator does not give *)

(** The loop of [modInverse] on a pair that is not coprime. *)
Lemma modInverse_loop_not_coprime (m : Z) :
  0 <= m -> forall a x0 x1,
  1 < a -> Z.gcd a m <> 1 -> RSA.modInverse_loop a m x0 x1 = Throw RangeError.
Proof.
  intros Hm0. pattern m. apply Zlt_0_ind; [ | exact Hm0].
  clear m Hm0. intros m IH Hm a x0 x1 Ha Hg.
  destruct (Z.eq_dec m 0) as [-> | Hz].
  - now apply modInverse_loop_zero.
  - rewrite modInverse_loop_step by assumption.
    rewrite Z.rem_mod_nonneg by lia.
    pose proof (Z.mod_pos_bound a m ltac:(lia)) as Hb.
    apply IH; [lia | | ].
    + destruct (Z.eq_dec m 1) as [-> | ]; [ | lia].
      rewrite Z.gcd_1_r in Hg. contradiction.
    + rewrite Z.gcd_comm, Z.gcd_mod by lia. rewrite Z.gcd_comm. exact Hg.
Qed.

(** [modInverse] on a pair that has a common factor: for [a > 1] and
    [m >= 0] with [gcd a m <> 1] the loop reaches [m = 0] with [a] still
    above 1, and the division [a / m] raises the runtime's [RangeError]. *)
Theorem modInverse_not_coprime (a m : Z) :
  1 < a -> 0 <= m -> Z.gcd a m <> 1 -> RSA.modInverse a m = Throw RangeError.
Proof.
  intros Ha Hm Hg. unfold RSA.modInverse.
  destruct (Z.eqb_spec m 1) as [-> | _].
  - rewrite Z.gcd_1_r in Hg. contradiction.
  - now rewrite modInverse_loop_not_coprime.
Qed.

Lemma modInverse_not_coprime_witness : RSA.modInverse 4 6 = Throw RangeError.
Proof. apply (modInverse_not_coprime 4 6); [lia | lia | discriminate]. Defined.

(** One turn of [gcd] keeps the greatest common divisor. *)
Lemma gcd_rem (a b : Z) : b <> 0 -> Z.gcd b (Z.rem a b) = Z.gcd a b.
Proof.
  intros Hb. pose proof (Z.quot_rem' a b) as H.
  rewrite (Z.gcd_comm a b). rewrite H at 2.
  rewrite Z.add_comm, Z.mul_comm. now rewrite Z.gcd_add_mult_diag_r.
Qed.

(** On integers of any sign [gcd] returns the greatest common divisor up
    to its sign. *)
Theorem gcd_any_sign (a b : Z) : Z.abs (RSA.gcd a b) = Z.gcd a b.
Proof.
  remember (Z.abs b) as n eqn:Hn.
  assert (Hn0 : 0 <= n) by lia.
  revert a b Hn. pattern n. apply Zlt_0_ind; [ | exact Hn0].
  clear n Hn0. intros n IH _ a b Hn.
  destruct (Z.eq_dec b 0) as [-> | Hb].
  - rewrite gcd_zero, Z.gcd_0_r. reflexivity.
  - rewrite gcd_step by assumption.
    pose proof (Z.rem_bound_abs a b Hb).
    rewrite (IH (Z.abs (Z.rem a b)) ltac:(lia) b (Z.rem a b) eq_refl).
    now apply gcd_rem.
Qed.

Lemma rem_cong (x m : Z) : m <> 0 -> Z.rem x m mod m = x mod m.
Proof.
  intros Hm. pose proof (Z.quot_rem' x m) as H.
  replace (Z.rem x m) with (x + (- Z.quot x m) * m) by lia.
  now apply Z.mod_add.
Qed.

Lemma modPow_loop_cong (exponent : Z) :
  0 <= exponent -> forall result base modulus,
  modulus <> 0 -> 0 < exponent ->
  RSA.modPow_loop result base exponent modulus mod modulus
    = (result * base ^ exponent) mod modulus /\
  Z.abs (RSA.modPow_loop result base exponent modulus) < Z.abs modulus.
Proof.
  intros He0. pattern exponent. apply Z_lt_induction; [ | exact He0].
  clear exponent He0. intros e IH r b m Hm He.
  rewrite modPow_loop_step by lia.
  pose proof (low_bit_split e ltac:(lia)) as Hsplit.
  set (h := Z.shiftr e 1) in *. clearbody h.
  assert (Hh : 0 <= h < e).
  { destruct (Z.land e 1 =? 0); lia. }
  assert (Hsq : forall k, 0 <= k -> Z.rem (b * b) m ^ k mod m = b ^ (2 * k) mod m).
  { intros k Hk. rewrite <- Z.mod_pow_l, rem_cong, Z.mod_pow_l by assumption.
    rewrite Z.pow_mul_r by lia. f_equal. f_equal. lia. }
  destruct (Z.eq_dec h 0) as [Hz | Hz].
  - rewrite Hz in *. rewrite modPow_loop_done by lia.
    destruct (Z.land e 1 =? 0); [lia | ].
    replace e with 1 by lia. rewrite Z.pow_1_r.
    split; [now apply rem_cong | ].
    pose proof (Z.rem_bound_abs (r * b) m Hm). lia.
  - destruct (IH h ltac:(lia)
                (if Z.land e 1 =? 0 then r else Z.rem (r * b) m)
                (Z.rem (b * b) m) m Hm ltac:(lia)) as [Hc Hb].
    split; [ | exact Hb].
    rewrite Hc.
    rewrite <- Z.mul_mod_idemp_r, Hsq, Z.mul_mod_idemp_r by lia.
    destruct (Z.land e 1 =? 0).
    + f_equal. f_equal. f_equal. lia.
    + rewrite <- Z.mul_mod_idemp_l, rem_cong, Z.mul_mod_idemp_l by assumption.
      rewrite Hsplit, Z.pow_add_r, Z.pow_1_r by lia.
      f_equal. lia.
Qed.

(** For every base, every positive exponent and every modulus other than
    0, negative ones too, [modPow] returns a value congruent to the power
    modulo the modulus, and smaller than the modulus in absolute value. *)
Theorem modPow_any_sign (base exponent modulus : Z) :
  modulus <> 0 -> 0 < exponent ->
  exists v, RSA.modPow base exponent modulus = Ok v /\
            v mod modulus = base ^ exponent mod modulus /\
            Z.abs v < Z.abs modulus.
Proof.
  intros Hm He. unfold RSA.modPow, BigInt_rem.
  destruct (Z.eqb_spec modulus 0) as [E | _]; [contradiction | ]. cbn [bind].
  eexists. split; [reflexivity | ].
  destruct (modPow_loop_cong exponent ltac:(lia) 1 (Z.rem base modulus) modulus Hm He)
    as [Hc Hb].
  split; [ | exact Hb].
  rewrite Hc, Z.mul_1_l.
  rewrite <- Z.mod_pow_l, rem_cong, Z.mod_pow_l by assumption. reflexivity.
Qed.

Lemma modPow_any_sign_witness :
  exists v, RSA.modPow (-7) 3 (-5) = Ok v /\
            v mod (-5) = (-7) ^ 3 mod (-5) /\
            Z.abs v < Z.abs (-5).
Proof. apply (modPow_any_sign (-7) 3 (-5)); lia. Defined.

(** ** The round trip of any string: every unit comes back reduced modulo n *)

Lemma modPow_round_trip_mod (p q e d c : Z) :
  Z.prime p -> Z.prime q -> p <> q ->
  1 <= e -> 1 <= d -> (e * d) mod ((p - 1) * (q - 1)) = 1 ->
  0 <= c ->
  forall u, RSA.modPow c e (p * q) = Ok u -> RSA.modPow u d (p * q) = Ok (c mod (p * q)).
Proof.
  intros Hp Hq Hne He Hd Hed Hc u Hu.
  pose proof (Z.prime_ge_2 p Hp) as Hp2. pose proof (Z.prime_ge_2 q Hq) as Hq2.
  assert (Hn : 0 < p * q) by nia.
  assert (Hphi : 0 < (p - 1) * (q - 1)) by nia.
  rewrite modPow_spec in Hu by lia.
  destruct (Z.leb_spec e 0) as [L | _]; [lia | ].
  injection Hu as <-.
  pose proof (Z.mod_pos_bound (c ^ e) (p * q) Hn) as Hu.
  rewrite modPow_spec by lia.
  destruct (Z.leb_spec d 0) as [L | _]; [lia | ].
  f_equal. rewrite Z.mod_pow_l, <- Z.pow_mul_r by lia.
  pose proof (Z.div_mod (e * d) ((p - 1) * (q - 1)) ltac:(lia)) as Hdm.
  rewrite Hed in Hdm.
  assert (Hk : 0 <= (e * d) / ((p - 1) * (q - 1))) by (apply Z.div_pos; nia).
  set (k := (e * d) / ((p - 1) * (q - 1))) in *.
  replace (e * d) with (1 + k * ((p - 1) * (q - 1))) by lia.
  now apply rsa_identity.
Qed.

(** Under a pair of keys with inverse exponents for a modulus of two
    distinct primes, a non-empty string is encrypted, and its ciphertext
    decrypts to the string with every unit reduced modulo the modulus. *)
Lemma encrypt_then_decrypt (publicKey privateKey : jsstring) (p q e d : Z)
    (message : jsstring) :
  RSA.keyFields publicKey = Ok (e, Some (p * q)) ->
  RSA.keyFields privateKey = Ok (d, Some (p * q)) ->
  Z.prime p -> Z.prime q -> p <> q ->
  1 <= e -> 1 <= d -> (e * d) mod ((p - 1) * (q - 1)) = 1 ->
  message <> [] -> is_jsstring message ->
  exists encrypted,
    RSA.encryptWorker message publicKey = Ok encrypted /\
    RSA.decryptWorker encrypted privateKey
    = Ok (List.map (fun charCode => charCode mod (p * q)) message).
Proof.
  intros Hpub Hpriv Hp Hq Hne He Hd Hed Hm Hmsg.
  pose proof (Z.prime_ge_2 p Hp) as Hp2. pose proof (Z.prime_ge_2 q Hq) as Hq2.
  assert (Hn : 1 < p * q) by nia.
  destruct (encrypt_loop_spec e (p * q) message Hn Hmsg []) as (units & Hloop & Hunits).
  exists (ciphertext_of units). split.
  { unfold RSA.encryptWorker. rewrite Hpub. cbn [bind fst snd].
    rewrite Hloop. reflexivity. }
  assert (Hback : Forall2 (fun c u => RSA.modPow u d (p * q) = Ok c /\ is_code_unit c)
                          (List.map (fun charCode => charCode mod (p * q)) message) units).
  { clear Hloop Hm. induction Hunits as [ | c u message' units' [Hu _] _ IH];
      [constructor | ].
    inversion_clear Hmsg as [ | ? ? Hc Hmsg'].
    cbn [List.map]. constructor; [ | now apply IH].
    unfold is_code_unit in *. split.
    - apply (modPow_round_trip_mod p q e d c); try assumption. lia.
    - pose proof (Z.mod_pos_bound c (p * q) ltac:(lia)).
      pose proof (Z.mod_le c (p * q) ltac:(lia) ltac:(lia)). lia. }
  unfold RSA.decryptWorker. rewrite Hpriv. cbn [bind fst snd].
  destruct units as [ | u us].
  - inversion Hunits. subst message. contradiction.
  - rewrite split_ciphertext.
    change (BigInt_toString u :: List.map BigInt_toString us)
      with (List.map BigInt_toString (u :: us)).
    rewrite map_BigInt_of_toString. cbn [bind].
    apply (decrypt_loop_spec d (p * q) _ (u :: us) Hback []).
Qed.

(** The round trip of any non-empty string, under a public and a private
    key that hold inverse exponents for a modulus [n = p * q] of two
    distinct primes: every unit comes back reduced modulo [n]. A unit below
    [n] comes back as it was; a unit of [n] or more does not. *)
Theorem round_trip_modulo (publicKey privateKey : jsstring) (p q e d : Z)
    (message : jsstring) :
  RSA.keyFields publicKey = Ok (e, Some (p * q)) ->
  RSA.keyFields privateKey = Ok (d, Some (p * q)) ->
  Z.prime p -> Z.prime q -> p <> q ->
  1 <= e -> 1 <= d -> (e * d) mod ((p - 1) * (q - 1)) = 1 ->
  message <> [] -> is_jsstring message ->
  (c <- RSA.encryptWorker message publicKey ;; RSA.decryptWorker c privateKey)
  = Ok (List.map (fun charCode => charCode mod (p * q)) message).
Proof.
  intros Hpub Hpriv Hp Hq Hne He Hd Hed Hm Hmsg.
  destruct (encrypt_then_decrypt publicKey privateKey p q e d message)
    as (encrypted & Henc & Hdec); try assumption.
  rewrite Henc. exact Hdec.
Qed.

Lemma round_trip_modulo_witness :
  (c <- RSA.encryptWorker [72; 233; 8364] (lit "NjU1MzcsMTQz") ;;
   RSA.decryptWorker c (lit "MTEzLDE0Mw=="))
  = Ok (List.map (fun charCode => charCode mod (11 * 13)) [72; 233; 8364]).
Proof.
  apply (round_trip_modulo (lit "NjU1MzcsMTQz") (lit "MTEzLDE0Mw==") 11 13 65537 113).
  - vm_compute. reflexivity.
  - vm_compute. reflexivity.
  - exact prime_11.
  - exact prime_13.
  - lia.
  - lia.
  - lia.
  - reflexivity.
  - discriminate.
  - repeat constructor; vm_compute; congruence.
Defined.

(** ** The workers, unit by unit *)

Lemma encrypt_loop_acc (e : Z) (n : option Z) (message : jsstring) :
  forall encrypted,
  RSA.encrypt_loop e n message encrypted =
  (r <- RSA.encrypt_loop e n message [] ;; Ok (encrypted ++ r)).
Proof.
  induction message as [ | c rest IH]; intros encrypted.
  - cbn. now rewrite app_nil_r.
  - cbn [RSA.encrypt_loop].
    destruct (RSA.modPow_with c e n) as [u | err | ]; cbn [bind]; try reflexivity.
    rewrite IH. rewrite (IH ([] ++ _)).
    destruct (RSA.encrypt_loop e n rest []) as [r | err | ]; cbn [bind]; try reflexivity.
    now rewrite <- !app_assoc.
Qed.

Lemma encrypt_loop_app (e : Z) (n : option Z) (m1 m2 : jsstring) :
  RSA.encrypt_loop e n (m1 ++ m2) [] =
  (r1 <- RSA.encrypt_loop e n m1 [] ;;
   r2 <- RSA.encrypt_loop e n m2 [] ;; Ok (r1 ++ r2)).
Proof.
  induction m1 as [ | c rest IH].
  - cbn. destruct (RSA.encrypt_loop e n m2 []); reflexivity.
  - cbn [app RSA.encrypt_loop].
    destruct (RSA.modPow_with c e n) as [u | err | ]; cbn [bind]; try reflexivity.
    rewrite (encrypt_loop_acc e n (rest ++ m2)), (encrypt_loop_acc e n rest), IH.
    destruct (RSA.encrypt_loop e n rest []) as [r1 | err | ]; cbn [bind]; try reflexivity.
    destruct (RSA.encrypt_loop e n m2 []) as [r2 | err | ]; cbn [bind]; try reflexivity.
    now rewrite <- !app_assoc.
Qed.

(** What the loop builds for a non-empty message ends with a comma. *)
Lemma encrypt_loop_last (e : Z) (n : option Z) (message : jsstring) :
  forall r, message <> [] -> RSA.encrypt_loop e n message [] = Ok r ->
  r = slice_0_minus1 r ++ [comma].
Proof.
  induction message as [ | c rest IH]; intros r Hne H; [contradiction | ].
  cbn [RSA.encrypt_loop] in H.
  destruct (RSA.modPow_with c e n) as [u | err | ]; cbn [bind] in H; try discriminate.
  rewrite encrypt_loop_acc in H.
  destruct (RSA.encrypt_loop e n rest []) as [r' | err | ] eqn:Hrest; cbn [bind] in H;
    try discriminate.
  injection H as <-. cbn [app]. unfold slice_0_minus1.
  destruct rest as [ | c' rest'].
  - cbn in Hrest. injection Hrest as <-. rewrite app_nil_r.
    change (lit ",") with [comma]. now rewrite removelast_last.
  - specialize (IH r' ltac:(discriminate) eq_refl).
    assert (Hr' : r' <> []).
    { intros ->. destruct (slice_0_minus1 []); discriminate. }
    rewrite removelast_app by exact Hr'.
    rewrite <- (app_assoc _ (removelast r') [comma]). f_equal. exact IH.
Qed.

(** Encryption works unit by unit: the ciphertext of two non-empty strings
    put together is their ciphertexts joined by a comma. *)
Theorem encryptWorker_app (m1 m2 publicKey c1 c2 : jsstring) :
  m1 <> [] -> m2 <> [] ->
  RSA.encryptWorker m1 publicKey = Ok c1 ->
  RSA.encryptWorker m2 publicKey = Ok c2 ->
  RSA.encryptWorker (m1 ++ m2) publicKey = Ok (c1 ++ comma :: c2).
Proof.
  unfold RSA.encryptWorker. intros H1 H2.
  destruct (RSA.keyFields publicKey) as [[e n] | err | ]; cbn [bind fst snd];
    try discriminate.
  rewrite encrypt_loop_app.
  destruct (RSA.encrypt_loop e n m1 []) as [r1 | err | ] eqn:E1; cbn [bind];
    try discriminate.
  destruct (RSA.encrypt_loop e n m2 []) as [r2 | err | ] eqn:E2; cbn [bind];
    try discriminate.
  intros Hc1 Hc2. injection Hc1 as <-. injection Hc2 as <-.
  pose proof (encrypt_loop_last e n m1 r1 H1 E1) as L1.
  pose proof (encrypt_loop_last e n m2 r2 H2 E2) as L2.
  f_equal. unfold slice_0_minus1 at 1.
  rewrite removelast_app by (intros ->; destruct (slice_0_minus1 []); discriminate).
  rewrite L1 at 1. rewrite <- app_assoc. reflexivity.
Qed.

Lemma encryptWorker_app_witness :
  RSA.encryptWorker (lit "Hi" ++ lit "!") (lit "NjU1MzcsMTQz")
  = Ok (lit "63,118" ++ comma :: lit "11").
Proof.
  apply (encryptWorker_app (lit "Hi") (lit "!") (lit "NjU1MzcsMTQz"));
    try discriminate; vm_compute; reflexivity.
Defined.

(** The fields of two strings joined by a comma. *)
Lemma split_fields_app (s1 s2 : jsstring) :
  fst (split comma (s1 ++ comma :: s2)) :: snd (split comma (s1 ++ comma :: s2)) =
  (fst (split comma s1) :: snd (split comma s1)) ++
  (fst (split comma s2) :: snd (split comma s2)).
Proof.
  induction s1 as [ | c r IH].
  - cbn [app split]. rewrite Z.eqb_refl. destruct (split comma s2). reflexivity.
  - cbn [app split].
    destruct (split comma (r ++ comma :: s2)) as [f fs].
    destruct (split comma r) as [f1 fs1]. cbn [fst snd] in IH.
    destruct (c =? comma); cbn [fst snd app]; [now rewrite IH | ].
    injection IH as -> ->. reflexivity.
Qed.

Lemma map_throwing_app {A B} (f : A -> outcome B) (l1 l2 : list A) :
  map_throwing f (l1 ++ l2) =
  (r1 <- map_throwing f l1 ;; r2 <- map_throwing f l2 ;; Ok (r1 ++ r2)).
Proof.
  induction l1 as [ | x r IH].
  - cbn. destruct (map_throwing f l2); reflexivity.
  - cbn [app map_throwing]. destruct (f x) as [y | e | ]; cbn [bind]; try reflexivity.
    rewrite IH. destruct (map_throwing f r) as [ys | e | ]; cbn [bind]; try reflexivity.
    destruct (map_throwing f l2); reflexivity.
Qed.

Lemma decrypt_loop_acc (d : Z) (n : option Z) (units : list Z) :
  forall decrypted,
  RSA.decrypt_loop d n units decrypted =
  (r <- RSA.decrypt_loop d n units [] ;; Ok (decrypted ++ r)).
Proof.
  induction units as [ | u rest IH]; intros decrypted.
  - cbn. now rewrite app_nil_r.
  - cbn [RSA.decrypt_loop].
    destruct (RSA.modPow_with u d n) as [x | err | ]; cbn [bind]; try reflexivity.
    rewrite IH. rewrite (IH ([] ++ _)).
    destruct (RSA.decrypt_loop d n rest []) as [r | err | ]; cbn [bind]; try reflexivity.
    now rewrite <- !app_assoc.
Qed.

Lemma decrypt_loop_app (d : Z) (n : option Z) (u1 u2 : list Z) :
  RSA.decrypt_loop d n (u1 ++ u2) [] =
  (r1 <- RSA.decrypt_loop d n u1 [] ;;
   r2 <- RSA.decrypt_loop d n u2 [] ;; Ok (r1 ++ r2)).
Proof.
  induction u1 as [ | u rest IH].
  - cbn. destruct (RSA.decrypt_loop d n u2 []); reflexivity.
  - cbn [app RSA.decrypt_loop].
    destruct (RSA.modPow_with u d n) as [x | err | ]; cbn [bind]; try reflexivity.
    rewrite (decrypt_loop_acc d n (rest ++ u2)), (decrypt_loop_acc d n rest), IH.
    destruct (RSA.decrypt_loop d n rest []) as [r1 | err | ]; cbn [bind]; try reflexivity.
    destruct (RSA.decrypt_loop d n u2 []) as [r2 | err | ]; cbn [bind]; reflexivity.
Qed.

(** Decryption works field by field: two ciphertexts joined by a comma
    decrypt to the two plaintexts put together. *)
Theorem decryptWorker_app (c1 c2 privateKey r1 r2 : jsstring) :
  RSA.decryptWorker c1 privateKey = Ok r1 ->
  RSA.decryptWorker c2 privateKey = Ok r2 ->
  RSA.decryptWorker (c1 ++ comma :: c2) privateKey = Ok (r1 ++ r2).
Proof.
  unfold RSA.decryptWorker.
  destruct (RSA.keyFields privateKey) as [[d n] | err | ]; cbn [bind fst snd];
    try discriminate.
  pose proof (split_fields_app c1 c2) as Hsplit.
  destruct (split comma (c1 ++ comma :: c2)) as [f fs].
  destruct (split comma c1) as [f1 fs1]. destruct (split comma c2) as [f2 fs2].
  cbn [fst snd] in Hsplit. rewrite Hsplit, map_throwing_app.
  destruct (map_throwing BigInt_of_string (f1 :: fs1)) as [u1 | err | ]; cbn [bind];
    try discriminate.
  destruct (map_throwing BigInt_of_string (f2 :: fs2)) as [u2 | err | ]; cbn [bind];
    try discriminate.
  intros H1 H2. rewrite decrypt_loop_app, H1, H2. reflexivity.
Qed.

Lemma decryptWorker_app_witness :
  RSA.decryptWorker (lit "63,118" ++ comma :: lit "11") (lit "MTEzLDE0Mw==")
  = Ok (lit "Hi" ++ lit "!").
Proof.
  apply (decryptWorker_app (lit "63,118") (lit "11") (lit "MTEzLDE0Mw=="));
    vm_compute; reflexivity.
Defined.

(** ** How long the plaintext of a ciphertext is *)

Lemma split_count (s : jsstring) :
  List.length (snd (split comma s)) = count_occ Z.eq_dec s comma.
Proof.
  induction s as [ | c r IH]; [reflexivity | ].
  cbn [split count_occ]. destruct (split comma r) as [f fs]. cbn [snd] in IH.
  destruct (Z.eqb_spec c comma) as [E | E]; destruct (Z.eq_dec c comma) as [E' | E'];
    try contradiction; cbn [snd List.length]; now rewrite IH.
Qed.

Lemma map_throwing_length {A B} (f : A -> outcome B) (l : list A) :
  forall r, map_throwing f l = Ok r -> List.length r = List.length l.
Proof.
  induction l as [ | x l' IH]; intros r H.
  - injection H as <-. reflexivity.
  - cbn [map_throwing] in H. destruct (f x) as [y | e | ]; cbn [bind] in H; try discriminate.
    destruct (map_throwing f l') as [ys | e | ]; cbn [bind] in H; try discriminate.
    injection H as <-. cbn. f_equal. now apply IH.
Qed.

Lemma decrypt_loop_length (d : Z) (n : option Z) (units : list Z) :
  forall decrypted r,
  RSA.decrypt_loop d n units decrypted = Ok r ->
  List.length r = (List.length decrypted + List.length units)%nat.
Proof.
  induction units as [ | u rest IH]; intros decrypted r H.
  - injection H as <-. cbn. lia.
  - cbn [RSA.decrypt_loop] in H.
    destruct (RSA.modPow_with u d n) as [x | e | ]; cbn [bind] in H; try discriminate.
    apply IH in H. rewrite H, length_app. cbn. lia.
Qed.

(** What [decryptWorker] returns has one unit per field of the ciphertext,
    that is one more than the ciphertext has commas: it is never the empty
    string. *)
Theorem decryptWorker_length (encryptedMessage privateKey decrypted : jsstring) :
  RSA.decryptWorker encryptedMessage privateKey = Ok decrypted ->
  List.length decrypted = S (count_occ Z.eq_dec encryptedMessage comma).
Proof.
  unfold RSA.decryptWorker. intros H.
  destruct (RSA.keyFields privateKey) as [[d n] | e | ]; cbn [bind fst snd] in H;
    try discriminate.
  pose proof (split_count encryptedMessage) as Hcount.
  destruct (split comma encryptedMessage) as [f fs]. cbn [snd] in Hcount.
  destruct (map_throwing BigInt_of_string (f :: fs)) as [units | e | ] eqn:Hunits;
    cbn [bind] in H; try discriminate.
  apply map_throwing_length in Hunits. apply decrypt_loop_length in H.
  rewrite H, Hunits. cbn. now rewrite Hcount.
Qed.

Lemma decryptWorker_length_witness :
  List.length (lit "Hi!") = S (count_occ Z.eq_dec (lit "63,118,11") comma).
Proof.
  apply (decryptWorker_length (lit "63,118,11") (lit "MTEzLDE0Mw==") (lit "Hi!")).
  vm_compute. reflexivity.
Defined.

(** ** The text of a ciphertext *)

Lemma unit_text_shape (units : list Z) :
  Forall (fun u => 0 <= u) units ->
  Forall (fun c => c = comma \/ 48 <= c <= 57) (flat_map unit_text units) /\
  count_occ Z.eq_dec (flat_map unit_text units) comma = List.length units.
Proof.
  induction 1 as [ | u us Hu _ [IHall IHcount]]; [split; [constructor | reflexivity] | ].
  cbn [flat_map List.length]. unfold unit_text at 1 3, BigInt_toString.
  destruct (Z.ltb_spec u 0) as [L | _]; [lia | ].
  destruct (digits_spec u Hu) as (Hdigits & _ & _).
  split.
  - apply Forall_app. split; [apply Forall_app; split | exact IHall].
    + eapply Forall_impl; [ | exact Hdigits]. intros c Hc. now right.
    + constructor; [now left | constructor].
  - rewrite !count_occ_app, IHcount.
    rewrite (proj1 (count_occ_not_In Z.eq_dec (digits u) comma)).
    + reflexivity.
    + intros Hin. rewrite Forall_forall in Hdigits. apply Hdigits in Hin.
      unfold comma in Hin. lia.
Qed.

Lemma BigInt_toString_digits (u : Z) :
  0 <= u ->
  BigInt_toString u <> [] /\ Forall (fun c => 48 <= c <= 57) (BigInt_toString u).
Proof.
  intros Hu. unfold BigInt_toString.
  destruct (Z.ltb_spec u 0) as [L | _]; [lia | ].
  destruct (digits_spec u Hu) as (Hdigits & Hne & _). split; assumption.
Qed.

Lemma ciphertext_fields (units : list Z) :
  Forall (fun u => 0 <= u) units -> units <> [] ->
  Forall (fun field => field <> [] /\ Forall (fun c => 48 <= c <= 57) field)
         (fst (split comma (ciphertext_of units)) ::
          snd (split comma (ciphertext_of units))).
Proof.
  intros Hpos Hne. destruct units as [ | u us]; [contradiction | ].
  rewrite split_ciphertext. cbn [fst snd].
  change (BigInt_toString u :: List.map BigInt_toString us)
    with (List.map BigInt_toString (u :: us)).
  apply Forall_map. eapply Forall_impl; [ | exact Hpos].
  intros a Ha. apply BigInt_toString_digits. exact Ha.
Qed.

Lemma ciphertext_last (us : list Z) :
  forall u, Forall (fun u => 0 <= u) (u :: us) ->
  exists body digit, ciphertext_of (u :: us) = body ++ [digit] /\ 48 <= digit <= 57.
Proof.
  induction us as [ | u' us' IH]; intros u Hpos.
  - rewrite ciphertext_single.
    apply Forall_inv in Hpos.
    destruct (BigInt_toString_digits u Hpos) as [Hne Hall].
    destruct (exists_last Hne) as (body & digit & E).
    exists body, digit. split; [exact E | ].
    rewrite E in Hall. apply Forall_app in Hall. destruct Hall as [_ Hd].
    apply Forall_inv in Hd. exact Hd.
  - rewrite ciphertext_cons by discriminate.
    destruct (IH u' (Forall_inv_tail Hpos)) as (body & digit & E & Hd).
    exists (BigInt_toString u ++ comma :: body), digit.
    rewrite E, <- app_assoc. split; [reflexivity | exact Hd].
Qed.

(** Under a key with modulus above 1 the ciphertext of a non-empty string
    is made of decimal digits and commas only, with one comma less than the
    string has units. It ends in a digit, and the fields its commas part are
    not empty and hold digits only: no sign, no comma at either end, no two
    commas in a row. *)
Theorem encryptWorker_text (message publicKey : jsstring) (e n : Z) :
  RSA.keyFields publicKey = Ok (e, Some n) -> 1 < n ->
  is_jsstring message -> message <> [] ->
  exists encrypted,
    RSA.encryptWorker message publicKey = Ok encrypted /\
    Forall (fun c => c = comma \/ 48 <= c <= 57) encrypted /\
    S (count_occ Z.eq_dec encrypted comma) = List.length message /\
    (exists body digit, encrypted = body ++ [digit] /\ 48 <= digit <= 57) /\
    Forall (fun field => field <> [] /\ Forall (fun c => 48 <= c <= 57) field)
           (fst (split comma encrypted) :: snd (split comma encrypted)).
Proof.
  intros Hkey Hn Hmsg Hne.
  destruct (encrypt_loop_spec e n message Hn Hmsg []) as (units & Hloop & Hunits).
  clear Hmsg. cbn [app] in Hloop.
  unfold RSA.encryptWorker. rewrite Hkey. cbn [bind fst snd]. rewrite Hloop. cbn [bind].
  eexists. split; [reflexivity | ].
  assert (Hpos : Forall (fun u => 0 <= u) units).
  { clear Hloop Hne. induction Hunits as [ | c u ms us [_ Hu] _ IH]; constructor;
      [lia | exact IH]. }
  assert (Hne' : units <> []).
  { intros ->. inversion Hunits. subst. contradiction. }
  destruct (unit_text_shape units Hpos) as [Hall Hcount].
  pose proof (encrypt_loop_last e (Some n) message _ Hne Hloop) as Hlast.
  split; [ | split; [ | split]].
  - rewrite Hlast in Hall. apply Forall_app in Hall. apply Hall.
  - rewrite Hlast in Hcount. rewrite count_occ_app in Hcount. cbn in Hcount.
    rewrite <- (Forall2_length Hunits) in Hcount. lia.
  - destruct units as [ | u us]; [contradiction | ].
    apply (ciphertext_last us u Hpos).
  - apply (ciphertext_fields units Hpos Hne').
Qed.

Lemma encryptWorker_text_witness :
  exists encrypted,
    RSA.encryptWorker (lit "Hi!") (lit "NjU1MzcsMTQz") = Ok encrypted /\
    Forall (fun c => c = comma \/ 48 <= c <= 57) encrypted /\
    S (count_occ Z.eq_dec encrypted comma) = List.length (lit "Hi!") /\
    (exists body digit, encrypted = body ++ [digit] /\ 48 <= digit <= 57) /\
    Forall (fun field => field <> [] /\ Forall (fun c => 48 <= c <= 57) field)
           (fst (split comma encrypted) :: snd (split comma encrypted)).
Proof.
  apply (encryptWorker_text (lit "Hi!") (lit "NjU1MzcsMTQz") 65537 143);
    [vm_compute; reflexivity | lia | | discriminate].
  repeat constructor; vm_compute; congruence.
Defined.

(** ** What the workers throw *)

Lemma map_BigInt_outcome (l : list jsstring) :
  (exists r, map_throwing BigInt_of_string l = Ok r) \/
  map_throwing BigInt_of_string l = Throw SyntaxError.
Proof.
  induction l as [ | s l' IH]; [left; now exists [] | ].
  cbn [map_throwing]. unfold BigInt_of_string at 1 3.
  destruct (StringToBigInt s) as [z | ]; cbn [bind]; [ | now right].
  destruct IH as [[r ->] | ->]; cbn [bind]; [left; eauto | now right].
Qed.

Lemma encrypt_loop_returns (e n : Z) (message : jsstring) :
  n <> 0 -> forall encrypted,
  exists r, RSA.encrypt_loop e (Some n) message encrypted = Ok r.
Proof.
  intros Hn. induction message as [ | c rest IH]; intros encrypted.
  - cbn. eauto.
  - cbn [RSA.encrypt_loop RSA.modPow_with].
    destruct (modPow_returns c e n Hn) as [u ->]. cbn [bind]. apply IH.
Qed.

Lemma decrypt_loop_returns (d n : Z) (units : list Z) :
  n <> 0 -> forall decrypted,
  exists r, RSA.decrypt_loop d (Some n) units decrypted = Ok r.
Proof.
  intros Hn. induction units as [ | u rest IH]; intros decrypted.
  - cbn. eauto.
  - cbn [RSA.decrypt_loop RSA.modPow_with].
    destruct (modPow_returns u d n Hn) as [x ->]. cbn [bind]. apply IH.
Qed.

(** A key token never fails to decode; its fields may fail to parse. *)
Lemma keyFields_outcome (key : jsstring) :
  match RSA.keyFields key with
  | Ok _ => True
  | Throw err => err = SyntaxError
  | OutOfFuel => False
  end.
Proof.
  unfold RSA.keyFields.
  destruct (split comma _) as [f fs].
  destruct (map_BigInt_outcome (f :: fs)) as [[r Hr] | Hr]; rewrite Hr; cbn [bind];
    [ | reflexivity].
  apply map_throwing_length in Hr.
  destruct r as [ | x [ | n r']]; [discriminate | exact I | exact I].
Qed.

(** What [encryptWorker] does on any message and any key token. The token
    always decodes; if one of its fields is no integer literal the call
    throws [SyntaxError]. Otherwise the empty message gives the empty
    ciphertext, and a non-empty one gives a [TypeError] under a key of one
    field (the modulus is undefined), a [RangeError] under the modulus 0,
    and a ciphertext under every other modulus. The call always ends. *)
Theorem encryptWorker_errors (message publicKey : jsstring) :
  match RSA.keyFields publicKey, message with
  | Ok _, [] => RSA.encryptWorker message publicKey = Ok []
  | Ok (_, None), _ :: _ => RSA.encryptWorker message publicKey = Throw TypeError
  | Ok (_, Some n), _ :: _ =>
      if n =? 0 then RSA.encryptWorker message publicKey = Throw RangeError
      else exists encrypted, RSA.encryptWorker message publicKey = Ok encrypted
  | Throw err, _ =>
      err = SyntaxError /\ RSA.encryptWorker message publicKey = Throw SyntaxError
  | OutOfFuel, _ => False
  end.
Proof.
  pose proof (keyFields_outcome publicKey) as Hkey.
  unfold RSA.encryptWorker.
  destruct (RSA.keyFields publicKey) as [[e n] | err | ]; cbn [bind fst snd].
  - destruct n as [n | ]; destruct message as [ | c rest]; try reflexivity.
    destruct (Z.eqb_spec n 0) as [-> | Hn]; [reflexivity | ].
    destruct (encrypt_loop_returns e n (c :: rest) Hn []) as [r ->]. cbn [bind]. eauto.
  - subst err. destruct message; auto.
  - exact Hkey.
Qed.

(** What [decryptWorker] does on any ciphertext and any key token: a
    [SyntaxError] when a field of the key or of the ciphertext is no
    integer literal; otherwise a [TypeError] under a key of one field, a
    [RangeError] under the modulus 0, and a plaintext under every other
    modulus. A ciphertext has one field at least, so there is no case
    without arithmetic. *)
Theorem decryptWorker_errors (encryptedMessage privateKey : jsstring) :
  match RSA.keyFields privateKey with
  | Ok (_, n) =>
      match map_throwing BigInt_of_string
              (fst (split comma encryptedMessage) :: snd (split comma encryptedMessage)),
            n with
      | Ok _, None => RSA.decryptWorker encryptedMessage privateKey = Throw TypeError
      | Ok _, Some n =>
          if n =? 0 then RSA.decryptWorker encryptedMessage privateKey = Throw RangeError
          else exists decrypted, RSA.decryptWorker encryptedMessage privateKey = Ok decrypted
      | _, _ => RSA.decryptWorker encryptedMessage privateKey = Throw SyntaxError
      end
  | Throw err =>
      err = SyntaxError /\ RSA.decryptWorker encryptedMessage privateKey = Throw SyntaxError
  | OutOfFuel => False
  end.
Proof.
  pose proof (keyFields_outcome privateKey) as Hkey.
  unfold RSA.decryptWorker.
  destruct (RSA.keyFields privateKey) as [[d n] | err | ]; cbn [bind fst snd].
  - destruct (split comma encryptedMessage) as [f fs]. cbn [fst snd].
    destruct (map_BigInt_outcome (f :: fs)) as [[units Hu] | Hu]; rewrite Hu; cbn [bind].
    + pose proof (map_throwing_length _ _ _ Hu) as Hlen.
      destruct units as [ | u rest]; [discriminate | ].
      destruct n as [n | ]; [ | reflexivity].
      destruct (Z.eqb_spec n 0) as [-> | Hn]; [reflexivity | ].
      apply decrypt_loop_returns. exact Hn.
    + destruct n; reflexivity.
  - subst err. auto.
  - exact Hkey.
Qed.

(** ** Number(phi) and the exponent search *)

Lemma round_to_double_bounds (x : Z) :
  0 < x -> 2 ^ Z.log2 x <= round_to_double x <= 2 ^ (Z.log2 x + 1).
Proof.
  intros Hx. unfold round_to_double.
  pose proof (Z.log2_spec x Hx) as Hlog.
  rewrite <- Z.add_1_r in Hlog.
  destruct (Z.leb_spec (Z.log2 x - 52) 0) as [L | L]; [lia | ].
  set (k := Z.log2 x - 52) in *.
  rewrite Z.shiftr_div_pow2, Z.shiftl_mul_pow2 by lia.
  assert (Hk : 0 < 2 ^ k) by (apply Z.pow_pos_nonneg; lia).
  assert (Hlow : 2 ^ Z.log2 x = 2 ^ 52 * 2 ^ k).
  { rewrite <- Z.pow_add_r by lia. f_equal. lia. }
  assert (Hhigh : 2 ^ (Z.log2 x + 1) = 2 ^ 53 * 2 ^ k).
  { rewrite <- Z.pow_add_r by lia. f_equal. lia. }
  assert (Hq : 2 ^ 52 <= x / 2 ^ k < 2 ^ 53).
  { split.
    - apply Z.div_le_lower_bound; lia.
    - apply Z.div_lt_upper_bound; lia. }
  rewrite Hlow, Hhigh.
  destruct (_ || _); nia.
Qed.

(** A bigint of 2^1024 or more is the number Infinity. *)
Lemma Number_of_BigInt_overflow (x : Z) :
  2 ^ 1024 <= x -> Number_of_BigInt x = PosInfinity.
Proof.
  intros Hx.
  assert (H0 : 0 < 2 ^ 1024) by (apply Z.pow_pos_nonneg; lia).
  unfold Number_of_BigInt. rewrite Z.abs_eq by lia.
  pose proof (round_to_double_bounds x ltac:(lia)) as [Hlow _].
  assert (Hlog : 1024 <= Z.log2 x).
  { apply Z.log2_le_pow2; lia. }
  assert (Hpow : 2 ^ 1024 <= 2 ^ Z.log2 x) by (apply Z.pow_le_mono_r; lia).
  destruct (Z.leb_spec (2 ^ 1024) (round_to_double x)) as [_ | L]; [ | lia].
  destruct (Z.ltb_spec x 0); [lia | reflexivity].
Qed.

(** A bigint below 2^1023 in size is a finite number. *)
Lemma Number_of_BigInt_finite (x : Z) :
  0 <= x < 2 ^ 1023 -> exists v, Number_of_BigInt x = Finite v.
Proof.
  intros Hx. unfold Number_of_BigInt. rewrite Z.abs_eq by lia.
  assert (Hr : round_to_double x < 2 ^ 1024).
  { destruct (Z.eq_dec x 0) as [-> | Hz]; [reflexivity | ].
    pose proof (round_to_double_bounds x ltac:(lia)) as [_ Hup].
    assert (Hlog : Z.log2 x < 1023) by (apply Z.log2_lt_pow2; lia).
    assert (2 ^ (Z.log2 x + 1) <= 2 ^ 1023) by (apply Z.pow_le_mono_r; lia).
    assert (2 ^ 1023 < 2 ^ 1024) by (apply Z.pow_lt_mono_r; lia).
    lia. }
  destruct (Z.leb_spec (2 ^ 1024) (round_to_double x)) as [L | _]; [lia | eauto].
Qed.

(** The search of a public exponent fails on large keys: when [phi] is
    [2 ^ 1024] or more, [Number(phi)] is Infinity, and the first turn of
    the loop, taken when the exponent at hand is not coprime with [phi],
    throws the [RangeError] of [BigInt] on a number that is no integer. *)
Theorem exponent_search_overflow (random : nat -> Q) (fuel : nat) (phi e : Z) (st : nat) :
  2 ^ 1024 <= phi -> RSA.gcd e phi <> 1 ->
  RSA.exponent_loop random (S fuel) phi e st = Throw RangeError.
Proof.
  intros Hphi Hg. cbn [RSA.exponent_loop].
  destruct (Z.eqb_spec (RSA.gcd e phi) 1) as [E | _]; [contradiction | ].
  unfold RSA.bind_rand, RSA.Math_random, RSA.lift.
  now rewrite Number_of_BigInt_overflow.
Qed.

Lemma exponent_search_overflow_witness :
  RSA.exponent_loop (always (1 # 2)) 1 (65537 * 2 ^ 1024) 65537 0%nat = Throw RangeError.
Proof.
  apply (exponent_search_overflow (always (1 # 2)) 0 (65537 * 2 ^ 1024) 65537 0%nat).
  - assert (0 < 2 ^ 1024) by (apply Z.pow_pos_nonneg; lia). lia.
  - assert (0 < 2 ^ 1024) by (apply Z.pow_pos_nonneg; lia).
    rewrite gcd_correct by lia.
    rewrite Z.gcd_mul_diag_l by lia. lia.
Defined.

(** ** The key pair: the exponents are inverse to each other *)

Lemma exponents_inverse (e phi d : Z) :
  1 <= phi -> 0 <= e -> RSA.gcd e phi = 1 -> RSA.modInverse e phi = Ok d ->
  (phi = 1 \/ 1 <= e) /\ 0 <= d < phi /\ (e * d) mod phi = 1 mod phi.
Proof.
  intros Hphi He Hg Hd.
  destruct (Z.eq_dec phi 1) as [-> | Hne].
  - cbn in Hd. injection Hd as <-. rewrite Z.mul_0_r. repeat split; auto; lia.
  - rewrite gcd_correct in Hg by lia.
    assert (He1 : 1 <= e).
    { destruct (Z.eq_dec e 0) as [-> | ]; [ | lia]. rewrite Z.gcd_0_l in Hg. lia. }
    destruct (modInverse_spec e phi He1 ltac:(lia) Hg) as (d' & Hd' & Hr & Hinv).
    rewrite Hd in Hd'. injection Hd' as <-.
    rewrite Hinv, Z.mod_small by lia. auto.
Qed.

(** The exponents of every key pair [generateKeys] returns are inverse to
    each other modulo [phi = (p - 1) * (q - 1)], whether or not [p] and [q]
    are prime: [e * d = 1] modulo [phi], with [d] in [[0, phi)]. *)
Theorem generateKeys_inverse_pair (random : nat -> Q) (fuel : nat) (bitLength : Q)
    (st st' : nat) (keys : RSA.KeyPair) :
  (forall i, (0 <= random i)%Q /\ (random i < 1)%Q) ->
  RSA.generateKeys random fuel bitLength st = Ok (keys, st') ->
  exists p q e d,
    RSA.keyFields (RSA.publicKey keys) = Ok (e, Some (p * q)) /\
    RSA.keyFields (RSA.privateKey keys) = Ok (d, Some (p * q)) /\
    0 <= e /\ 0 <= d < (p - 1) * (q - 1) /\
    (e * d) mod ((p - 1) * (q - 1)) = 1 mod ((p - 1) * (q - 1)).
Proof.
  intros Hrange H. unfold RSA.generateKeys in H.
  apply bind_rand_ok in H. destruct H as (p & st1 & Hp & H).
  apply bind_rand_ok in H. destruct H as (q & st2 & Hq & H).
  apply bind_rand_ok in H. destruct H as (e & st3 & He & H).
  apply bind_rand_ok in H. destruct H as (d & st4 & Hd & H).
  injection H as <- _. cbn [RSA.publicKey RSA.privateKey].
  unfold RSA.lift in Hd.
  destruct (RSA.modInverse e ((p - 1) * (q - 1))) as [d' | ? | ] eqn:Hinv;
    try discriminate.
  injection Hd as -> _.
  pose proof (generatePrime_ge_2 _ _ _ _ _ _ Hp) as Hp2.
  pose proof (generatePrime_ge_2 _ _ _ _ _ _ Hq) as Hq2.
  assert (Hphi : 1 <= (p - 1) * (q - 1)) by nia.
  assert (Hpe : 0 <= RSA.PUBLIC_EXPONENT) by (unfold RSA.PUBLIC_EXPONENT; lia).
  destruct (exponent_loop_result random ((p - 1) * (q - 1)) Hrange ltac:(lia)
              _ _ _ _ _ Hpe He) as [Hg He0].
  destruct (exponents_inverse e _ d Hphi He0 Hg Hinv) as (_ & Hdr & Hed).
  exists p, q, e, d. rewrite !keyFields_keyToken. auto.
Qed.

Lemma generateKeys_inverse_pair_witness :
  exists p q e d,
    RSA.keyFields (lit "NjU1MzcsMTQz") = Ok (e, Some (p * q)) /\
    RSA.keyFields (lit "MTEzLDE0Mw==") = Ok (d, Some (p * q)) /\
    0 <= e /\ 0 <= d < (p - 1) * (q - 1) /\
    (e * d) mod ((p - 1) * (q - 1)) = 1 mod ((p - 1) * (q - 1)).
Proof.
  apply (generateKeys_inverse_pair (mostly_high [0; 14]%nat) 1 8 0%nat 26%nat
           {| RSA.publicKey := lit "NjU1MzcsMTQz"; RSA.privateKey := lit "MTEzLDE0Mw==" |}).
  - apply mostly_high_range.
  - vm_compute. reflexivity.
Defined.

(** ** generateKeys does not throw on the sizes its numbers can hold *)


Lemma generatePrime_outcome (random : nat -> Q) (bitLength : Q) :
  forall fuel st,
  (exists p st', RSA.generatePrime random fuel bitLength st = Ok (p, st')) \/
  RSA.generatePrime random fuel bitLength st = OutOfFuel.
Proof.
  induction fuel as [ | fuel IH]; intros st; [now right | ].
  cbn [RSA.generatePrime]. unfold RSA.bind_rand.
  destruct (generateRandomOddNumber_bits random bitLength st) as (n & -> & _).
  destruct (millerRabin_total random n 10 (st + Z.to_nat (Z.max 1 (Qceiling bitLength) - 1)))
    as (verdict & st' & ->).
  destruct verdict; [left; unfold RSA.ret; eauto | apply IH].
Qed.

Lemma exponent_loop_outcome (random : nat -> Q) (phi : Z) :
  0 <= phi < 2 ^ 1023 ->
  forall fuel e st,
  (exists e' st', RSA.exponent_loop random fuel phi e st = Ok (e', st')) \/
  RSA.exponent_loop random fuel phi e st = OutOfFuel.
Proof.
  intros Hphi. destruct (Number_of_BigInt_finite phi Hphi) as [v Hv].
  induction fuel as [ | fuel IH]; intros e st; cbn [RSA.exponent_loop];
    destruct (RSA.gcd e phi =? 1); try (left; unfold RSA.ret; eauto; fail);
    [now right | ].
  unfold RSA.bind_rand, RSA.Math_random, RSA.lift. rewrite Hv. cbn [BigInt_floor_times].
  apply IH.
Qed.

(** On a bit length of 1022 or less (half of it, rounded up, is 511 at
    most) [generateKeys] throws nothing: it returns a key pair or goes on
    drawing. *)
Theorem generateKeys_does_not_throw (random : nat -> Q) (fuel : nat) (bitLength : Q)
    (st : nat) :
  (forall i, (0 <= random i)%Q /\ (random i < 1)%Q) ->
  Qceiling (bitLength / 2) <= 511 ->
  (exists keys st', RSA.generateKeys random fuel bitLength st = Ok (keys, st')) \/
  RSA.generateKeys random fuel bitLength st = OutOfFuel.
Proof.
  intros Hrange Hsize. unfold RSA.generateKeys, RSA.bind_rand.
  destruct (generatePrime_outcome random (bitLength / 2) fuel st) as [(p & st1 & Hp) | ->];
    [ | now right].
  rewrite Hp.
  destruct (generatePrime_outcome random (bitLength / 2) fuel st1) as [(q & st2 & Hq) | ->];
    [ | now right].
  rewrite Hq.
  pose proof (generatePrime_size _ _ _ _ _ _ Hp) as [Hhalf Hps].
  pose proof (generatePrime_size _ _ _ _ _ _ Hq) as [_ Hqs].
  set (half := Qceiling (bitLength / 2)) in *.
  set (phi := (p - 1) * (q - 1)).
  assert (Hpow : 2 ^ half * 2 ^ half <= 2 ^ 1022).
  { rewrite <- Z.pow_add_r by lia. apply Z.pow_le_mono_r; lia. }
  assert (H1023 : 2 ^ 1022 < 2 ^ 1023) by (apply Z.pow_lt_mono_r; lia).
  assert (Hlow : 0 < 2 ^ (half - 1)) by (apply Z.pow_pos_nonneg; lia).
  assert (H2 : 2 <= 2 ^ (half - 1)).
  { change 2 with (2 ^ 1) at 1. apply Z.pow_le_mono_r; lia. }
  assert (Hphi : 1 <= phi < 2 ^ 1023) by (unfold phi; nia).
  destruct (exponent_loop_outcome random phi ltac:(lia) fuel RSA.PUBLIC_EXPONENT st2)
    as [(e & st3 & He) | ->]; [ | now right].
  rewrite He.
  assert (Hpe : 0 <= RSA.PUBLIC_EXPONENT) by (unfold RSA.PUBLIC_EXPONENT; lia).
  destruct (exponent_loop_result random phi Hrange ltac:(lia) _ _ _ _ _ Hpe He) as [Hg He0].
  left. unfold RSA.lift, RSA.ret.
  destruct (Z.eq_dec phi 1) as [E1 | Hne].
  - rewrite E1. cbn. eauto.
  - rewrite gcd_correct in Hg by lia.
    assert (He1 : 1 <= e).
    { destruct (Z.eq_dec e 0) as [-> | ]; [ | lia]. rewrite Z.gcd_0_l in Hg. lia. }
    destruct (modInverse_spec e phi He1 ltac:(lia) Hg) as (d & -> & _). eauto.
Qed.

Lemma generateKeys_does_not_throw_witness :
  (exists keys st', RSA.generateKeys (mostly_high [0; 14]%nat) 1 8 0%nat = Ok (keys, st')) \/
  RSA.generateKeys (mostly_high [0; 14]%nat) 1 8 0%nat = OutOfFuel.
Proof.
  apply (generateKeys_does_not_throw (mostly_high [0; 14]%nat) 1 8 0%nat).
  - apply mostly_high_range.
  - vm_compute. discriminate.
Defined.

Import ConsoleInterface.

(** ** The console: encrypting under a key the check refuses *)

Lemma bind_io_ok {A B} (c : io A) (k : A -> io B) w b w' :
  bind_io c k w = Ok (b, w') ->
  exists a w1, c w = Ok (a, w1) /\ k a w1 = Ok (b, w').
Proof.
  unfold bind_io. destruct (c w) as [[a w1] | e | ]; try discriminate.
  intros H. eauto.
Qed.

Lemma encryptMessage_loop_invalid (answers : nat -> jsstring) (publicKey : jsstring) :
  forall fuel w, encryptMessage_loop answers fuel false publicKey w = OutOfFuel.
Proof.
  induction fuel as [ | fuel IH]; intros w; [reflexivity | ].
  cbn [encryptMessage_loop]. unfold bind_io, write. apply IH.
Qed.

(** When [validateKey] answers false for the key typed, [encryptMessage]
    does not return, however many turns its loop is given: the flag the
    loop tests is set before it and not inside it. *)
Theorem encryptMessage_invalid_key (answers : nat -> jsstring) (w : world) :
  validateKey (answers (asked w)) = Ok false ->
  forall fuel, encryptMessage answers fuel w = OutOfFuel.
Proof.
  intros Hkey fuel. unfold encryptMessage, bind_io, askQuestion, lift_outcome.
  rewrite Hkey. apply encryptMessage_loop_invalid.
Qed.

Lemma encryptMessage_invalid_key_witness :
  encryptMessage (fun _ => lit "MTIz") 1000 {| draws := 0; asked := 0; screen := [] |}
  = OutOfFuel.
Proof.
  apply (encryptMessage_invalid_key (fun _ => lit "MTIz")
           {| draws := 0; asked := 0; screen := [] |}).
  vm_compute. reflexivity.
Defined.

(** ** The console: a message encrypted and decrypted again *)

Lemma map_mod_small (n : Z) (message : jsstring) :
  is_jsstring message -> Forall (fun c => c < n) message ->
  List.map (fun charCode => charCode mod n) message = message.
Proof.
  intros Hmsg Hlt. induction Hmsg as [ | c r Hc _ IH]; [reflexivity | ].
  inversion_clear Hlt as [ | ? ? Hcn Hr]. cbn [List.map].
  rewrite IH by exact Hr. f_equal. apply Z.mod_small. unfold is_code_unit in Hc. lia.
Qed.

(** A message encrypted at the console and decrypted at the console, under
    the two tokens of a key with inverse exponents for a modulus of two
    distinct primes: [encryptMessage] accepts the public token, asks for
    the message and writes a ciphertext; [decryptMessage], given the
    private token and that ciphertext, writes the message, for every
    non-empty message whose units are below the modulus. *)
Theorem console_round_trip (answers : nat -> jsstring) (fuel : nat) (w w2 : world)
    (p q e d : Z) (message : jsstring) :
  Z.prime p -> Z.prime q -> p <> q ->
  1 <= e -> 1 <= d -> (e * d) mod ((p - 1) * (q - 1)) = 1 ->
  message <> [] -> is_jsstring message -> Forall (fun c => c < p * q) message ->
  answers (asked w) = RSA.keyToken e (p * q) ->
  answers (S (asked w)) = message ->
  exists encrypted,
    encryptMessage answers (S fuel) w =
      Ok (tt, {| draws := draws w; asked := S (S (asked w));
                 screen := screen w ++
                           [Question (lit "Enter the RSA public key: ");
                            Question (lit "Enter the message to encrypt: ");
                            Log [lit "Encrypted Message: "; encrypted]] |}) /\
    (answers (asked w2) = RSA.keyToken d (p * q) ->
     answers (S (asked w2)) = encrypted ->
     decryptMessage answers w2 =
       Ok (tt, {| draws := draws w2; asked := S (S (asked w2));
                  screen := screen w2 ++
                            [Question (lit "Enter the RSA private key: ");
                             Question (lit "Enter the encrypted message: ");
                             Log [lit "Decrypted Message: "; message]] |})).
Proof.
  intros Hp Hq Hne He Hd Hed Hm Hmsg Hlt Hpub Hans.
  destruct (encrypt_then_decrypt (RSA.keyToken e (p * q)) (RSA.keyToken d (p * q))
              p q e d message) as (encrypted & Henc & Hdec);
    try assumption; try apply keyFields_keyToken.
  rewrite map_mod_small in Hdec by assumption.
  exists encrypted. split.
  - unfold encryptMessage, bind_io at 1 2, askQuestion at 1, lift_outcome at 1.
    rewrite Hpub, validateKey_keyToken.
    cbn [encryptMessage_loop]. unfold bind_io, askQuestion, lift_outcome, write, ret_io.
    cbn [asked draws screen]. rewrite Hans.
    unfold RSA.encrypt, RSA.workerTask. rewrite Henc.
    cbn [asked draws screen]. now rewrite <- !app_assoc.
  - intros Hpriv Hcipher.
    unfold decryptMessage, bind_io, askQuestion, lift_outcome, write.
    cbn [asked draws screen]. rewrite Hpriv, Hcipher.
    unfold RSA.decrypt, RSA.workerTask. rewrite Hdec.
    cbn [asked draws screen]. now rewrite <- !app_assoc.
Qed.

Lemma console_round_trip_witness :
  exists encrypted,
    encryptMessage (fun i => nth i [lit "NjU1MzcsMTQz"; lit "Hi!"; lit "MTEzLDE0Mw=="] (lit "63,118,11"))
      (S 0) {| draws := 0; asked := 0; screen := [] |} =
      Ok (tt, {| draws := 0; asked := 2;
                 screen := [] ++
                           [Question (lit "Enter the RSA public key: ");
                            Question (lit "Enter the message to encrypt: ");
                            Log [lit "Encrypted Message: "; encrypted]] |}) /\
    (nth 2 [lit "NjU1MzcsMTQz"; lit "Hi!"; lit "MTEzLDE0Mw=="] (lit "63,118,11")
       = RSA.keyToken 113 (11 * 13) ->
     nth 3 [lit "NjU1MzcsMTQz"; lit "Hi!"; lit "MTEzLDE0Mw=="] (lit "63,118,11") = encrypted ->
     decryptMessage (fun i => nth i [lit "NjU1MzcsMTQz"; lit "Hi!"; lit "MTEzLDE0Mw=="] (lit "63,118,11"))
       {| draws := 0; asked := 2; screen := [] |} =
       Ok (tt, {| draws := 0; asked := 4;
                  screen := [] ++
                            [Question (lit "Enter the RSA private key: ");
                             Question (lit "Enter the encrypted message: ");
                             Log [lit "Decrypted Message: "; lit "Hi!"]] |})).
Proof.
  apply (console_round_trip
           (fun i => nth i [lit "NjU1MzcsMTQz"; lit "Hi!"; lit "MTEzLDE0Mw=="] (lit "63,118,11"))
           0 {| draws := 0; asked := 0; screen := [] |}
           {| draws := 0; asked := 2; screen := [] |} 11 13 65537 113 (lit "Hi!")).
  - exact prime_11.
  - exact prime_13.
  - lia.
  - lia.
  - lia.
  - reflexivity.
  - discriminate.
  - repeat constructor; vm_compute; congruence.
  - repeat constructor.
  - vm_compute. reflexivity.
  - reflexivity.
Defined.

(** ** The console: the keys it makes *)

Lemma askBitLength_result (answers : nat -> jsstring) :
  forall fuel w bitLength w',
  askBitLength answers fuel w = Ok (bitLength, w') ->
  Number_lt bitLength (Num (Finite 16)) = false /\
  draws w' = draws w /\ (asked w < asked w')%nat /\
  exists shown, screen w' = screen w ++ shown.
Proof.
  induction fuel as [ | fuel IH]; intros w b w' H; [discriminate | ].
  cbn [askBitLength] in H. unfold bind_io at 1, askQuestion at 1 in H.
  destruct (Number_lt (parseInt (answers (asked w))) (Num (Finite 16))) eqn:Hlt.
  - unfold bind_io, write in H. apply IH in H. cbn [draws asked screen] in H.
    destruct H as (Hb & Hd & Ha & shown & Hs).
    repeat split; try assumption; try lia.
    eexists. rewrite Hs, <- !app_assoc. reflexivity.
  - unfold ret_io in H. injection H as <- <-. cbn [draws asked screen].
    repeat split; try assumption; try lia. eauto.
Qed.

Lemma half_of_sixteen (v : Z) : 16 <= v -> 8 <= Qceiling (inject_Z v / 2).
Proof.
  intros Hv. change 8 with (Qceiling (inject_Z 8)). apply Qceiling_resp_le.
  apply Qle_shift_div_l; [easy | ].
  change (inject_Z 8 * 2)%Q with (inject_Z 8 * inject_Z 2)%Q.
  rewrite <- inject_Z_mult, <- Zle_Qle. lia.
Qed.

(** Whenever [createRSAKey] returns, the last two lines it wrote are the
    two tokens of a key pair, and their modulus is [2 ^ 14] at least: the
    loop lets no bit length below 16 through, and on an answer that is not
    a number the key generator does not return. *)
Theorem createRSAKey_modulus (random : nat -> Q) (answers : nat -> jsstring)
    (fuel : nat) (w w' : world) :
  createRSAKey random answers fuel w = Ok (tt, w') ->
  exists earlier publicKey privateKey e d n,
    screen w' = earlier ++ [Log [lit "Public Key: "; publicKey];
                            Log [lit "Private Key: "; privateKey]] /\
    RSA.keyFields publicKey = Ok (e, Some n) /\
    RSA.keyFields privateKey = Ok (d, Some n) /\
    2 ^ 14 <= n.
Proof.
  intros H. unfold createRSAKey in H.
  apply bind_io_ok in H. destruct H as (b & w1 & Hask & H).
  apply bind_io_ok in H. destruct H as ([] & w2 & Hwarn & H).
  apply bind_io_ok in H. destruct H as (keys & w3 & Hkeys & H).
  unfold bind_io, write in H. injection H as <-. cbn [screen].
  apply askBitLength_result in Hask. destruct Hask as (Hb & _).
  unfold lift_rand in Hkeys.
  destruct (generateKeys_on random fuel b (draws w2)) as [[keys' st] | ? | ] eqn:Hgen;
    try discriminate.
  injection Hkeys as -> <-. cbn [screen].
  assert (Hdiverges : forall st0, RSA.generateKeys random fuel 0 st0 = OutOfFuel).
  { intros st0. unfold RSA.generateKeys, RSA.bind_rand.
    now rewrite (generatePrime_never_returns random (0 / 2) ltac:(easy)). }
  destruct b as [ | [v | | ]]; cbn [generateKeys_on] in Hgen;
    try (rewrite Hdiverges in Hgen); try discriminate.
  cbn [Number_lt] in Hb. apply Z.ltb_ge in Hb.
  destruct (generateKeys_tokens _ _ _ _ _ _ Hgen) as (e & d & n & -> & _ & Hn & _).
  pose proof (half_of_sixteen v Hb) as Hhalf.
  exists (screen w2), (RSA.keyToken e n), (RSA.keyToken d n), e, d, n.
  cbn [RSA.publicKey RSA.privateKey]. rewrite <- app_assoc.
  repeat split; try apply keyFields_keyToken.
  eapply Z.le_trans; [ | exact Hn]. apply Z.pow_le_mono_r; lia.
Qed.

Lemma createRSAKey_modulus_witness :
  exists w',
    createRSAKey (mostly_high [4; 19]%nat) (fun _ => lit "16") 1
      {| draws := 0; asked := 0; screen := [] |} = Ok (tt, w') /\
    exists earlier publicKey privateKey e d n,
      screen w' = earlier ++ [Log [lit "Public Key: "; publicKey];
                              Log [lit "Private Key: "; privateKey]] /\
      RSA.keyFields publicKey = Ok (e, Some n) /\
      RSA.keyFields privateKey = Ok (d, Some n) /\
      2 ^ 14 <= n.
Proof.
  eexists. split.
  - vm_compute. reflexivity.
  - apply (createRSAKey_modulus (mostly_high [4; 19]%nat) (fun _ => lit "16") 1
             {| draws := 0; asked := 0; screen := [] |}).
    vm_compute. reflexivity.
Defined.

(** An answer [parseInt] reads no number from is taken as a bit length:
    NaN is not below 16, so the loop of [createRSAKey] ends at once, with
    NaN and no error line; [generateKeys] is then called on NaN, and
    [createRSAKey] does not return, whatever is typed next. *)
Theorem createRSAKey_not_a_number (random : nat -> Q) (answers : nat -> jsstring)
    (w : world) :
  parseInt (answers (asked w)) = NaN ->
  forall fuel,
    askBitLength answers (S fuel) w =
      Ok (NaN, {| draws := draws w; asked := S (asked w);
                  screen := screen w ++
                            [Question (lit "Enter the desired bit length for the keys (>=16): ")] |}) /\
    createRSAKey random answers fuel w = OutOfFuel.
Proof.
  intros Hnan fuel.
  assert (Hask : forall turns, askBitLength answers (S turns) w =
                 Ok (NaN, {| draws := draws w; asked := S (asked w);
                             screen := screen w ++
                                       [Question (lit "Enter the desired bit length for the keys (>=16): ")] |})).
  { intros turns. cbn [askBitLength]. unfold bind_io, askQuestion. rewrite Hnan.
    reflexivity. }
  split; [apply Hask | ].
  destruct fuel as [ | fuel]; [reflexivity | ].
  unfold createRSAKey, bind_io at 1. rewrite Hask.
  cbn [Number_lt andb]. unfold bind_io, ret_io, lift_rand.
  cbn [generateKeys_on draws].
  unfold RSA.generateKeys, RSA.bind_rand.
  now rewrite (generatePrime_never_returns random (0 / 2) ltac:(easy)).
Qed.

Lemma createRSAKey_not_a_number_witness :
  askBitLength (fun _ => lit "sixteen") (S 1000) {| draws := 0; asked := 0; screen := [] |} =
    Ok (NaN, {| draws := 0; asked := 1;
                screen := [] ++
                          [Question (lit "Enter the desired bit length for the keys (>=16): ")] |}) /\
  createRSAKey (always (1 # 2)) (fun _ => lit "sixteen") 1000
    {| draws := 0; asked := 0; screen := [] |} = OutOfFuel.
Proof.
  apply (createRSAKey_not_a_number (always (1 # 2)) (fun _ => lit "sixteen")
           {| draws := 0; asked := 0; screen := [] |}).
  vm_compute. reflexivity.
Defined.

(** ** The console: how the program ends *)

Lemma processChoice_exit (random : nat -> Q) (answers : nat -> jsstring)
    (fuel : nat) (choice : jsstring) (w w' : world) (code : Z) :
  processChoice random answers fuel choice w = Ok (Exited code, w') ->
  code = 0 /\ trim choice = lit "4" /\ close w = Ok (tt, w').
Proof.
  unfold processChoice.
  destruct (list_eq_dec Z.eq_dec (trim choice) (lit "1")) as [E1 | E1].
  { intros H. apply bind_io_ok in H. destruct H as (? & ? & _ & H). discriminate. }
  destruct (list_eq_dec Z.eq_dec (trim choice) (lit "2")) as [E2 | E2].
  { intros H. apply bind_io_ok in H. destruct H as (? & ? & _ & H). discriminate. }
  destruct (list_eq_dec Z.eq_dec (trim choice) (lit "3")) as [E3 | E3].
  { intros H. apply bind_io_ok in H. destruct H as (? & ? & _ & H). discriminate. }
  destruct (list_eq_dec Z.eq_dec (trim choice) (lit "4")) as [E4 | E4].
  - intros H. apply bind_io_ok in H. destruct H as ([] & w1 & Hclose & H).
    injection H as <- <-. auto.
  - intros H. apply bind_io_ok in H. destruct H as (? & ? & _ & H). discriminate.
Qed.

Lemma main_loop_exit (random : nat -> Q) (answers : nat -> jsstring) :
  forall fuel w code w',
  main_loop random answers fuel w = Ok (code, w') ->
  code = 0 /\
  (0 < asked w')%nat /\ trim (answers (pred (asked w'))) = lit "4" /\
  exists earlier,
    screen w' = earlier ++ [Question (lit "Enter your choice: "); Close].
Proof.
  induction fuel as [ | fuel IH]; intros w code w' H; [discriminate | ].
  cbn [main_loop] in H.
  apply bind_io_ok in H. destruct H as ([] & w1 & _ & H).
  apply bind_io_ok in H. destruct H as (choice & w2 & Hask & H).
  apply bind_io_ok in H. destruct H as (how & w3 & Hchoice & H).
  destruct how as [ | c].
  - eapply IH. exact H.
  - injection H as <- <-.
    apply processChoice_exit in Hchoice. destruct Hchoice as (-> & Htrim & Hclose).
    unfold askQuestion in Hask. injection Hask as <- <-.
    unfold close in Hclose. cbn [asked Nat.eqb] in Hclose.
    unfold write in Hclose. injection Hclose as <-. cbn [asked screen draws pred].
    repeat split; try assumption; try lia.
    eexists. rewrite <- app_assoc. reflexivity.
Qed.

(** The program leaves [main] through [process.exit] only, with the exit
    code 0: the last line typed was the choice 4, surrounding whitespace
    aside, and the last things done were asking for the choice and closing
    the readline interface. *)
Theorem main_exit (random : nat -> Q) (answers : nat -> jsstring)
    (fuel : nat) (w w' : world) (code : Z) :
  main random answers fuel w = Ok (code, w') ->
  code = 0 /\
  (0 < asked w')%nat /\ trim (answers (pred (asked w'))) = lit "4" /\
  exists earlier,
    screen w' = earlier ++ [Question (lit "Enter your choice: "); Close].
Proof.
  unfold main. intros H.
  apply bind_io_ok in H. destruct H as ([] & w1 & _ & H).
  eapply main_loop_exit. exact H.
Qed.

Lemma main_exit_witness :
  exists w',
    main (always (1 # 2)) (fun i => nth i [lit "7"; lit "3"; lit "MTEzLDE0Mw=="; lit "63,118,11"] (lit " 4 "))
      5 {| draws := 0; asked := 0; screen := [] |} = Ok (0, w') /\
    (0 = 0 /\
     (0 < asked w')%nat /\
     trim (nth (pred (asked w'))
             [lit "7"; lit "3"; lit "MTEzLDE0Mw=="; lit "63,118,11"] (lit " 4 ")) = lit "4" /\
     exists earlier,
       screen w' = earlier ++ [Question (lit "Enter your choice: "); Close]).
Proof.
  eexists. split.
  - vm_compute. reflexivity.
  - apply (main_exit (always (1 # 2))
             (fun i => nth i [lit "7"; lit "3"; lit "MTEzLDE0Mw=="; lit "63,118,11"] (lit " 4 "))
             5 {| draws := 0; asked := 0; screen := [] |}).
    vm_compute. reflexivity.
Defined.

(** ** The check of a key and its use agree on the modulus *)

Lemma node_sextets_whitespace (s : jsstring) :
  node_sextets (filter (fun c => negb (is_ascii_whitespace c)) s) = node_sextets s.
Proof.
  induction s as [ | c r IH]; [reflexivity | ].
  cbn [filter]. destruct (is_ascii_whitespace c) eqn:Hw; cbn [negb].
  - rewrite IH. cbn [node_sextets].
    unfold is_ascii_whitespace in Hw. cbn [existsb] in Hw.
    repeat (apply orb_prop in Hw; destruct Hw as [Hw | Hw];
            [apply Z.eqb_eq in Hw; subst c; reflexivity | ]).
    discriminate.
  - cbn [node_sextets]. now rewrite IH.
Qed.

Lemma strip_padding_cases (s : jsstring) :
  exists pad, s = strip_padding s ++ pad /\ (pad = [] \/ exists r, pad = 61 :: r).
Proof.
  unfold strip_padding.
  destruct (_ =? 0); [ | exists []; rewrite app_nil_r; auto].
  destruct (rev s) as [ | c1 [ | c2 r]] eqn:E.
  - exists []. rewrite app_nil_r. auto.
  - destruct (Z.eqb_spec c1 61) as [-> | _]; [ | exists []; rewrite app_nil_r; auto].
    exists [61]. split; [ | right; eauto].
    apply (f_equal (@rev Z)) in E. rewrite rev_involutive in E. exact E.
  - apply (f_equal (@rev Z)) in E. rewrite rev_involutive in E. cbn [rev] in E.
    destruct (Z.eqb_spec c1 61) as [-> | _]; [ | exists []; rewrite app_nil_r; auto].
    destruct (Z.eqb_spec c2 61) as [-> | _].
    + exists [61; 61]. split; [ | right; eauto]. rewrite E, <- app_assoc. reflexivity.
    + exists [61]. split; [ | right; eauto]. cbn [rev]. exact E.
Qed.

Lemma base64_value_byte (c v : Z) :
  base64_value c = Some v -> c mod 256 = c.
Proof.
  intros Hv. apply Z.mod_small. unfold base64_value in Hv.
  destruct (Z.leb_spec 65 c); destruct (Z.leb_spec c 90); cbn [andb] in Hv; try lia;
    destruct (Z.leb_spec 97 c); destruct (Z.leb_spec c 122); cbn [andb] in Hv; try lia;
    destruct (Z.leb_spec 48 c); destruct (Z.leb_spec c 57); cbn [andb] in Hv; try lia;
    destruct (Z.eqb_spec c 43); try lia;
    destruct (Z.eqb_spec c 47); try lia; discriminate.
Qed.

Lemma node_sextets_alphabet (d : jsstring) (pad : jsstring) :
  pad = [] \/ (exists r, pad = 61 :: r) ->
  forall vs,
  map_throwing (fun c => match base64_value c with
                         | Some v => Ok v
                         | None => Throw InvalidCharacterError
                         end) d = Ok vs ->
  node_sextets (d ++ pad) = vs.
Proof.
  intros Hpad. induction d as [ | c r IH]; intros vs H.
  - injection H as <-. destruct Hpad as [-> | [r ->]]; reflexivity.
  - cbn [map_throwing] in H.
    destruct (base64_value c) as [v | ] eqn:Hv; cbn [bind] in H; [ | discriminate].
    destruct (map_throwing _ r) as [vs' | ? | ]; cbn [bind] in H; try discriminate.
    injection H as <-. cbn [app node_sextets]. cbv zeta.
    rewrite (base64_value_byte c v Hv).
    assert (Hc : (c =? 61) = false /\ node_base64_value c = Some v).
    { unfold node_base64_value. unfold base64_value in Hv.
      destruct (Z.eqb_spec c 61) as [-> | _]; [discriminate | ].
      destruct (Z.eqb_spec c 45) as [-> | _]; [discriminate | ].
      destruct (Z.eqb_spec c 95) as [-> | _]; [discriminate | ].
      unfold base64_value. auto. }
    destruct Hc as [-> ->]. now rewrite (IH vs').
Qed.

(** What [atob] decodes, [Buffer.from(..., "base64")] decodes to the same
    bytes. *)
Lemma atob_Buffer_from (data decoded : jsstring) :
  atob data = Ok decoded -> Buffer_from_base64 data = decoded.
Proof.
  unfold atob, Buffer_from_base64. intros H.
  rewrite <- node_sextets_whitespace.
  set (d0 := filter _ data) in *. clearbody d0.
  destruct (strip_padding_cases d0) as (pad & Hd & Hpad).
  destruct (_ =? 1); [discriminate | ].
  destruct (map_throwing _ (strip_padding d0)) as [vs | ? | ] eqn:Hvs; try discriminate.
  injection H as <-. rewrite Hd.
  now rewrite (node_sextets_alphabet _ pad Hpad vs Hvs).
Qed.

(** A comma among the bytes is a comma of the text they decode to. *)
Lemma utf8_decode_comma (bytes : list Z) :
  forall st, 128 <= lower st -> In comma bytes -> In comma (utf8_decode st bytes).
Proof.
  induction bytes as [ | b r IH]; intros st Hst Hin; [destruct Hin | ].
  cbn [utf8_decode].
  destruct (utf8_step st b) as [out st'] eqn:Hstep.
  assert (Hnext : 128 <= lower st' /\ (b = comma -> In comma out)).
  { unfold utf8_step in Hstep.
    assert (Hlead : forall out0 st0, utf8_lead b = (out0, st0) ->
                    128 <= lower st0 /\ (b = comma -> In comma out0)).
    { unfold utf8_lead. intros out0 st0 H.
      destruct (Z.leb_spec b 127).
      { injection H as <- <-. cbn. split; [lia | intros ->; now left]. }
      destruct ((194 <=? b) && (b <=? 223)).
      { injection H as <- <-. cbn. split; [lia | unfold comma; lia]. }
      destruct ((224 <=? b) && (b <=? 239)).
      { injection H as <- <-. cbn. split; [destruct (b =? 224); lia | unfold comma; lia]. }
      destruct ((240 <=? b) && (b <=? 244)).
      { injection H as <- <-. cbn. split; [destruct (b =? 240); lia | unfold comma; lia]. }
      injection H as <- <-. cbn. split; [lia | unfold comma; lia]. }
    destruct (needed st =? 0); [now apply Hlead | ].
    destruct (Z.leb_spec (lower st) b) as [L | L]; cbn [andb] in Hstep.
    - destruct (b <=? upper st).
      + destruct (needed st =? 1); injection Hstep as <- <-; cbn;
          (split; [lia | unfold comma; lia]).
      + destruct (utf8_lead b) as [out0 st0] eqn:E. injection Hstep as <- <-.
        destruct (Hlead out0 st0 eq_refl) as [H1 H2].
        split; [exact H1 | intros Hb; right; now apply H2].
    - destruct (utf8_lead b) as [out0 st0] eqn:E. injection Hstep as <- <-.
      destruct (Hlead out0 st0 eq_refl) as [H1 H2].
      split; [exact H1 | intros Hb; right; now apply H2]. }
  destruct Hnext as [Hst' Hout].
  apply in_or_app. destruct Hin as [-> | Hin]; [left; now apply Hout | right; now apply IH].
Qed.

Lemma Buffer_toString_comma (bytes : list Z) :
  In comma bytes -> In comma (Buffer_toString bytes).
Proof.
  intros Hin. unfold Buffer_toString. apply in_flat_map.
  exists comma. split; [ | now left].
  apply utf8_decode_comma; [cbn; lia | exact Hin].
Qed.

(** A key the console's check accepts has a modulus for the workers. The
    check decodes the token with [atob], the workers with
    [Buffer.from(..., "base64")], which reads the same bytes from every
    token [atob] accepts; a comma among the bytes is a comma of the text.
    So under a key for which [validateKey] returns true, the workers find
    two fields at least: they fail on a field that is no integer literal,
    not on a missing modulus. *)
Theorem validateKey_modulus_present (key : jsstring) :
  validateKey key = Ok true ->
  RSA.keyFields key = Throw SyntaxError \/
  exists x n, RSA.keyFields key = Ok (x, Some n).
Proof.
  unfold validateKey. intros H.
  destruct (atob key) as [decoded | ? | ] eqn:Hatob; cbn [bind] in H; try discriminate.
  destruct (Z.ltb_spec (field_count decoded) 2) as [L | L]; [discriminate | ].
  apply field_count_comma in L.
  apply atob_Buffer_from in Hatob.
  unfold RSA.keyFields. rewrite Hatob.
  apply Buffer_toString_comma, field_count_comma in L. unfold field_count in L.
  destruct (split comma (Buffer_toString decoded)) as [first others]. cbn [snd] in L.
  destruct others as [ | second others']; [cbn in L; lia | ].
  destruct (map_BigInt_outcome (first :: second :: others')) as [[fields Hf] | Hf];
    rewrite Hf; cbn [bind]; [ | now left].
  apply map_throwing_length in Hf.
  destruct fields as [ | x [ | n rest]]; try discriminate. right. eauto.
Qed.

Lemma validateKey_modulus_present_witness :
  RSA.keyFields (lit " NjU1 MzcsMTQz") = Throw SyntaxError \/
  exists x n, RSA.keyFields (lit " NjU1 MzcsMTQz") = Ok (x, Some n).
Proof.
  apply (validateKey_modulus_present (lit " NjU1 MzcsMTQz")). vm_compute. reflexivity.
Defined.
